(** * Editor session state and file-tree builder of the online code editor

    A shallow embedding of two pieces of the client:

    - the session store of [EditorProvider] (contexts/EditorContext.tsx):
      [openFile], [closeTab], [setActiveTab], [updateTabContent], [saveFile];
    - [buildTree] and its inner [sortNodes] (components/sidebar/FileExplorer.tsx);
    - the callers of the store: [handleClose] of the tab bar, [handleSave]
      of the editor page, [handleChange] of the editor pane with the
      [debounce] of lib/utils.ts it goes through.

    React state is modelled by explicit state passing: every operation takes
    the current [Session] and returns the next one.  The outcome of a network
    request is an argument of the operation that awaits it, and the requests
    an operation issues are returned in a log. *)

From stdpp Require Import gmap strings list fin_maps pretty.
From Stdlib Require Import ZArith NArith Ascii Permutation Sorted.

Local Open Scope string_scope.
Local Open Scope Z_scope.
Local Open Scope list_scope.

(** ** Types (types/index.ts) *)

Inductive FileType := FILE | FOLDER.

#[global] Instance FileType_eq_dec : EqDecision FileType.
Proof. solve_decision. Defined.

(** [FileNode] without its [children] member: the children array is a
    reference to other objects and lives in the object store of the tree
    builder below. *)
Module FileNode.
Record t := mk {
  id : string;
  name : string;
  path : string;
  type : FileType;
  extension : option string;
  mimeType : option string;
  content : option string;
  size : Z;
  parentId : option string;
  createdAt : string;
  updatedAt : string
}.
End FileNode.

Module EditorTab.
Record t := mk {
  id : string;
  fileId : string;
  name : string;
  path : string;
  content : string;
  extension : option string;
  isDirty : bool;
  isActive : bool
}.

(** [{ ...t, isActive: b }] *)
Definition with_isActive (b : bool) (x : t) : t :=
  mk (id x) (fileId x) (name x) (path x) (content x) (extension x) (isDirty x) b.

(** [{ ...t, content, isDirty: true }] *)
Definition with_content (c : string) (x : t) : t :=
  mk (id x) (fileId x) (name x) (path x) c (extension x) true (isActive x).

(** [{ ...t, isDirty: false }] *)
Definition with_clean (x : t) : t :=
  mk (id x) (fileId x) (name x) (path x) (content x) (extension x) false (isActive x).
End EditorTab.

(** ** The session store (contexts/EditorContext.tsx) *)

(** The three pieces of provider state the tab operations read and write.
    The remaining provider state (current project, file list, panel flags,
    theme) is untouched by them. *)
Record Session := mkSession {
  tabs : list EditorTab.t;
  activeTabId : option string;
  selectedFile : option FileNode.t
}.

Definition emptySession : Session := mkSession [] None None.

(** What [await fetch(...)] gives back.  [Rejected] is a rejected promise
    (network failure).  In [Resolved ok body], [ok] is [response.ok];
    [body] is [None] when [response.json()] fails or the parsed value has
    no [file] member, and [Some c] when [data.file.content] is [c]
    ([None] for null or undefined). *)
Inductive FetchOutcome :=
  | Rejected
  | Resolved (ok : bool) (body : option (option string)).

(** Requests and log lines an operation issues: [FetchGET fileId] is
    [fetch(`/api/files/${fileId}`)], [FetchPATCH fileId content] is the PATCH
    of [{ content }] to the same address. *)
Inductive Effect :=
  | FetchGET (fileId : string)
  | FetchPATCH (fileId : string) (content : string)
  | ConsoleError (msg : string).

Inductive Exn :=
  | NetworkError
  | Error (msg : string)
  | TypeError.

Inductive Result (A : Type) :=
  | Ok (a : A)
  | Throw (e : Exn).
Arguments Ok {A} a.
Arguments Throw {A} e.

(** [Array.prototype.find] and [Array.prototype.findIndex]; the latter
    returns [-1] when nothing matches. *)
Definition find {A} (P : A → Prop) `{∀ x, Decision (P x)} (l : list A) : option A :=
  snd <$> list_find P l.

Definition findIndex {A} (P : A → Prop) `{∀ x, Decision (P x)} (l : list A) : Z :=
  match list_find P l with
  | Some (i, _) => Z.of_nat i
  | None => -1
  end.

(** [arr[i]] for a number [i]: [undefined] (here [None]) out of range. *)
Definition index {A} (l : list A) (i : Z) : option A :=
  if decide (0 ≤ i) then l !! Z.to_nat i else None.

(** [c || ''] on a string that may be null or undefined. *)
Definition or_empty (c : option string) : string :=
  match c with
  | Some s => s
  | None => ""
  end.

(** [`tab-${Date.now()}`], for the clock value [now]. *)
Definition newTabId (now : Z) : string := "tab-" +:+ pretty now.

(** [openFile(file)], where [net] is the outcome of the content request
    (consulted only if the request is made) and [now] is [Date.now()]. *)
Definition openFile (s : Session) (file : FileNode.t) (net : FetchOutcome) (now : Z)
    : Session * list Effect :=
  match FileNode.type file with
  | FOLDER => (s, [])
  | FILE =>
    match find (λ t, EditorTab.fileId t = FileNode.id file) (tabs s) with
    | Some existingTab =>
        (mkSession (tabs s) (Some (EditorTab.id existingTab)) (Some file), [])
    | None =>
        let request := FetchGET (FileNode.id file) in
        match net with
        | Resolved true (Some c) =>
            let newTab :=
              EditorTab.mk (newTabId now) (FileNode.id file) (FileNode.name file)
                (FileNode.path file) (or_empty c) (FileNode.extension file) false true in
            (mkSession ((EditorTab.with_isActive false <$> tabs s) ++ [newTab])
               (Some (EditorTab.id newTab)) (Some file),
             [request])
        | _ => (s, [request; ConsoleError "Error opening file:"])
        end
    end
  end.

(** [closeTab(tabId)].  The updater reads [newTabs[newActiveIndex].id]; when
    [tabId] is the active id but no tab carries it, the index is [-1] and
    the read throws. *)
Definition closeTab (s : Session) (tabId : string) : Result Session :=
  let idx := findIndex (λ t, EditorTab.id t = tabId) (tabs s) in
  let newTabs := filter (λ t, EditorTab.id t ≠ tabId) (tabs s) in
  if decide (activeTabId s = Some tabId ∧ (0 < length newTabs)%nat) then
    let newActiveIndex := Z.min idx (Z.of_nat (length newTabs) - 1) in
    match index newTabs newActiveIndex with
    | Some t => Ok (mkSession newTabs (Some (EditorTab.id t)) (selectedFile s))
    | None => Throw TypeError
    end
  else if decide (length newTabs = 0%nat) then
    Ok (mkSession newTabs None None)
  else
    Ok (mkSession newTabs (activeTabId s) (selectedFile s)).

(** [setActiveTab(tabId)] *)
Definition setActiveTab (s : Session) (tabId : string) : Session :=
  mkSession
    ((λ t, EditorTab.with_isActive (bool_decide (EditorTab.id t = tabId)) t) <$> tabs s)
    (Some tabId)
    (selectedFile s).

(** [updateTabContent(tabId, content)] *)
Definition updateTabContent (s : Session) (tabId : string) (content : string) : Session :=
  mkSession
    ((λ t, if decide (EditorTab.id t = tabId) then EditorTab.with_content content t else t)
       <$> tabs s)
    (activeTabId s)
    (selectedFile s).

(** What an operation that can throw leaves behind. *)
Record Outcome := mkOutcome {
  next : Session;
  effects : list Effect;
  thrown : option Exn
}.

(** [saveFile(tabId)], where [net] is the outcome of the PATCH request
    (consulted only if the request is made).  The caught error is logged
    and thrown again. *)
Definition saveFile (s : Session) (tabId : string) (net : FetchOutcome) : Outcome :=
  match find (λ t, EditorTab.id t = tabId) (tabs s) with
  | None => mkOutcome s [] None
  | Some tab =>
    if EditorTab.isDirty tab then
      let request := FetchPATCH (EditorTab.fileId tab) (EditorTab.content tab) in
      match net with
      | Rejected =>
          mkOutcome s [request; ConsoleError "Error saving file:"] (Some NetworkError)
      | Resolved false _ =>
          mkOutcome s [request; ConsoleError "Error saving file:"]
            (Some (Error "Failed to save file"))
      | Resolved true _ =>
          mkOutcome
            (mkSession
               ((λ t, if decide (EditorTab.id t = tabId) then EditorTab.with_clean t else t)
                  <$> tabs s)
               (activeTabId s) (selectedFile s))
            [request] None
      end
    else mkOutcome s [] None
  end.

(** Sequences of operations, issued one at a time to completion. *)
Inductive Op :=
  | OpenFile (file : FileNode.t) (net : FetchOutcome) (now : Z)
  | CloseTab (tabId : string)
  | SetActiveTab (tabId : string)
  | UpdateTabContent (tabId : string) (content : string)
  | SaveFile (tabId : string) (net : FetchOutcome).

(** One operation on the session the provider holds.  Only [closeTab] can
    fail: its error is raised while React applies the updater, the
    provider is unmounted and no session is left, which [Throw] stands
    for. *)
Definition perform (s : Session) (op : Op) : Result Session :=
  match op with
  | OpenFile file net now => Ok (fst (openFile s file net now))
  | CloseTab tabId => closeTab s tabId
  | SetActiveTab tabId => Ok (setActiveTab s tabId)
  | UpdateTabContent tabId content => Ok (updateTabContent s tabId content)
  | SaveFile tabId net => Ok (next (saveFile s tabId net))
  end.

(** The session of [perform] when there is one, and otherwise the session
    the provider held last, before the error that unmounted it. *)
Definition step (s : Session) (op : Op) : Session :=
  match op with
  | OpenFile file net now => fst (openFile s file net now)
  | CloseTab tabId =>
      match closeTab s tabId with
      | Ok s' => s'
      | Throw _ => s
      end
  | SetActiveTab tabId => setActiveTab s tabId
  | UpdateTabContent tabId content => updateTabContent s tabId content
  | SaveFile tabId net => next (saveFile s tabId net)
  end.

Definition run (ops : list Op) : Session := foldl step emptySession ops.

(** The session invariant of the data model: a non-empty tab list has
    exactly one tab flagged [isActive], and [activeTabId] is its id; an
    empty tab list goes with a null [activeTabId]. *)
Definition session_invariant (s : Session) : Prop :=
  match tabs s with
  | [] => activeTabId s = None
  | _ :: _ =>
      ∃ t, filter (λ x, EditorTab.isActive x = true) (tabs s) = [t]
           ∧ activeTabId s = Some (EditorTab.id t)
  end.

(** The tab the user interface treats as active: the tab bar, the editor
    pane and the status line all look it up by [activeTabId]. *)
Definition designated (s : Session) : list EditorTab.t :=
  filter (λ x, activeTabId s = Some (EditorTab.id x)) (tabs s).

(** An operation as the user interface issues it: [setActiveTab] is given
    the id of an open tab, the tab bar offering no other.  Nothing is asked
    of the other operations; in particular [openFile] may mint an id that
    an open tab carries already. *)
Definition targets_open_tab (s : Session) (op : Op) : Prop :=
  match op with
  | SetActiveTab tabId => tabId ∈ EditorTab.id <$> tabs s
  | _ => True
  end.

(** The sessions such operations lead to, each operation acting on the
    session the one before it has left. *)
Inductive ui_reachable : Session → Prop :=
  | ui_reachable_init : ui_reachable emptySession
  | ui_reachable_step s op s' :
      ui_reachable s → targets_open_tab s op → perform s op = Ok s' →
      ui_reachable s'.

(** What holds of [activeTabId] alone: it is the id of an open tab, or
    null when no tab is open. *)
Definition active_tab_invariant (s : Session) : Prop :=
  match tabs s with
  | [] => activeTabId s = None
  | _ :: _ => ∃ t, t ∈ tabs s ∧ activeTabId s = Some (EditorTab.id t)
  end.

(** Sample records for the concrete scenarios. *)
Definition sampleFile (id name : string) (parent : option string) : FileNode.t :=
  FileNode.mk id name ("/" +:+ name) FILE (Some ".js") None None 0 parent "" "".

Definition sampleFolder (id name : string) (parent : option string) : FileNode.t :=
  FileNode.mk id name ("/" +:+ name) FOLDER None None None 0 parent "" "".

Definition fetched (c : string) : FetchOutcome := Resolved true (Some (Some c)).

(** Open two files, then close the second (active) tab. *)
Definition close_active_trace : list Op :=
  [ OpenFile (sampleFile "f1" "a.js" None) (fetched "x") 1000;
    OpenFile (sampleFile "f2" "b.js" None) (fetched "y") 2000;
    CloseTab "tab-2000" ].

(** Open three files, make the middle tab the active one, and close it. *)
Definition close_middle_trace : list Op :=
  [ OpenFile (sampleFile "f1" "a.js" None) (fetched "x") 1000;
    OpenFile (sampleFile "f2" "b.js" None) (fetched "y") 2000;
    OpenFile (sampleFile "f3" "c.js" None) (fetched "z") 3000;
    SetActiveTab "tab-2000";
    CloseTab "tab-2000" ].

(** Open two files, then select the first one again in the explorer. *)
Definition reopen_trace : list Op :=
  [ OpenFile (sampleFile "f1" "a.js" None) (fetched "x") 1000;
    OpenFile (sampleFile "f2" "b.js" None) (fetched "y") 2000;
    OpenFile (sampleFile "f1" "a.js" None) Rejected 3000 ].

(** Whether the awaited PATCH counts as a success: the promise resolved
    and [response.ok] holds (the body is not read). *)
Definition saved (net : FetchOutcome) : bool :=
  match net with
  | Resolved true _ => true
  | _ => false
  end.

(** The number of tabs open on a file. *)
Definition tabsOn (fileId : string) (s : Session) : nat :=
  length (filter (λ t, EditorTab.fileId t = fileId) (tabs s)).

(** ** The store as the session has seen it *)

(** The session together with, for each file id, the content the store
    held at the last request of this session that succeeded: the content a
    GET returned or a PATCH delivered. *)
Record World := mkWorld {
  session : Session;
  persisted : gmap string string
}.

Definition observe (net : FetchOutcome) (e : Effect) (store : gmap string string)
    : gmap string string :=
  match e, net with
  | FetchGET fileId, Resolved true (Some c) => <[fileId := or_empty c]> store
  | FetchPATCH fileId content, Resolved true _ => <[fileId := content]> store
  | _, _ => store
  end.

Definition wstep (w : World) (op : Op) : World :=
  match op with
  | OpenFile file net now =>
      let r := openFile (session w) file net now in
      mkWorld (fst r) (foldr (observe net) (persisted w) (snd r))
  | SaveFile tabId net =>
      let o := saveFile (session w) tabId net in
      mkWorld (next o) (foldr (observe net) (persisted w) (effects o))
  | _ => mkWorld (step (session w) op) (persisted w)
  end.

Definition emptyWorld : World := mkWorld emptySession ∅.

Definition wrun (ops : list Op) : World := foldl wstep emptyWorld ops.

(** The clock has moved on since the open tabs were created: the id
    [openFile] would mint is carried by no open tab. *)
Definition fresh_clock (s : Session) (op : Op) : Prop :=
  match op with
  | OpenFile _ _ now => newTabId now ∉ EditorTab.id <$> tabs s
  | _ => True
  end.

Inductive reachable : World → Prop :=
  | reachable_init : reachable emptyWorld
  | reachable_step w op :
      reachable w → fresh_clock (session w) op → reachable (wstep w op).


(** The direction that survives: a tab that is not dirty holds the
    persisted content. *)
Definition clean_reconciled (w : World) : Prop :=
  ∀ t, t ∈ tabs (session w) →
    EditorTab.isDirty t = false →
    persisted w !! EditorTab.fileId t = Some (EditorTab.content t).

(** What the reachable worlds have in common: tab ids are distinct, no
    file has two tabs, and clean tabs hold the persisted content. *)
Definition world_invariant (w : World) : Prop :=
  NoDup (EditorTab.id <$> tabs (session w))
  ∧ NoDup (EditorTab.fileId <$> tabs (session w))
  ∧ clean_reconciled w.

(** Open a file, edit it, and type the original content back. *)
Definition restore_trace : list Op :=
  [ OpenFile (sampleFile "f1" "a.js" None) (fetched "x") 1000;
    UpdateTabContent "tab-1000" "y";
    UpdateTabContent "tab-1000" "x" ].

(** ** The tree builder (components/sidebar/FileExplorer.tsx) *)

(** [buildTree] works on objects that refer to one another: it keeps the
    node objects it creates in [nodeMap], pushes them into the [children]
    arrays of other node objects, and sorts those arrays in place.  The
    store below holds the objects; arrays hold references.

    A reference is either to an object the caller passed in (an element of
    [files]) or to an object created by the running call. *)
Inductive ref :=
  | Given (l : nat)
  | Fresh (k : nat).

#[global] Instance ref_eq_dec : EqDecision ref.
Proof. solve_decision. Defined.

(** An object of type [FileNode]: its scalar members and its [children]
    member, [None] when the member is undefined. *)
Record Obj := mkObj {
  fields : FileNode.t;
  children : option (list ref)
}.

(** [input] holds the elements of the array [files], in array order;
    [arena] holds the objects created by the call, in creation order. *)
Record Store := mkStore {
  input : list Obj;
  arena : list Obj
}.

Definition deref (st : Store) (r : ref) : option Obj :=
  match r with
  | Given l => input st !! l
  | Fresh k => arena st !! k
  end.

(** Apply [f] to the object behind [r], in place. *)
Definition update (f : Obj → Obj) (r : ref) (st : Store) : Store :=
  match r with
  | Given l => mkStore (alter f l (input st)) (arena st)
  | Fresh k => mkStore (input st) (alter f k (arena st))
  end.

(** [{ ...file, children: file.type === 'FOLDER' ? [] : undefined }] *)
Definition create_node (file : FileNode.t) : Obj :=
  mkObj file (match FileNode.type file with FOLDER => Some [] | FILE => None end).

(** [parent.children?.push(node)]: nothing happens when [children] is
    undefined. *)
Definition push_child (node : ref) (parent : Obj) : Obj :=
  match children parent with
  | Some cs => mkObj (fields parent) (Some (cs ++ [node]))
  | None => parent
  end.

(** The effect of an in-place sort of the array [o.children]. *)
Definition set_children (cs : list ref) (o : Obj) : Obj :=
  mkObj (fields o) (Some cs).

(** The value of [file.parentId] when it is truthy: not null and not the
    empty string. *)
Definition truthy (s : option string) : option string :=
  match s with
  | Some "" => None
  | other => other
  end.

(** First loop: [nodeMap.set(file.id, { ...file, children: ... })]. *)
Definition index_file (acc : Store * gmap string ref) (file : FileNode.t)
    : Store * gmap string ref :=
  (mkStore (input acc.1) (arena acc.1 ++ [create_node file]),
   <[FileNode.id file := Fresh (length (arena acc.1))]> acc.2).

(** Second loop.  [nodeMap.get(file.id)!] is always defined here, the first
    loop having set every id of [files]. *)
Definition attach (nodeMap : gmap string ref) (acc : Store * list ref) (file : FileNode.t)
    : Store * list ref :=
  match nodeMap !! FileNode.id file with
  | None => acc
  | Some node =>
      match truthy (FileNode.parentId file) ≫= (nodeMap !!.) with
      | Some parent => (update (push_child node) parent acc.1, acc.2)
      | None => (acc.1, acc.2 ++ [node])
      end
  end.

(** [Array.prototype.sort] with a comparator.  The language fixes the
    result for a consistent comparator: the elements in comparator order,
    equal elements in their original order.  Insertion from the right
    computes it. *)
Fixpoint insert_sorted {A} (cmp : A → A → Z) (x : A) (l : list A) : list A :=
  match l with
  | [] => [x]
  | y :: l' => if decide (0 < cmp x y) then y :: insert_sorted cmp x l' else x :: l
  end.

Definition js_sort {A} (cmp : A → A → Z) (l : list A) : list A :=
  foldr (insert_sorted cmp) [] l.

(** A node of the output: the fresh object [{ ...node, children: ... }]. *)
Local Unset Elimination Schemes.
Inductive Node :=
  | mkNode (record : FileNode.t) (kids : option (list Node)).
Local Set Elimination Schemes.

Definition record_of (n : Node) : FileNode.t :=
  match n with mkNode r _ => r end.

Definition kids_of (n : Node) : option (list Node) :=
  match n with mkNode _ k => k end.

(** [nodes.map(visit)], threading the store through the calls. *)
Fixpoint map_nodes (visit : Store → ref → option (Store * Node))
    (st : Store) (nodes : list ref) : option (Store * list Node) :=
  match nodes with
  | [] => Some (st, [])
  | r :: rest =>
      '(st1, n) ← visit st r;
      '(st2, ns) ← map_nodes visit st1 rest;
      Some (st2, n :: ns)
  end.

Section TreeBuilder.
(** [String.prototype.localeCompare] with no locale and no options: the
    collation of the host, known here only as a function to a sign. *)
Variable localeCompare : string → string → Z.

(** The comparator of [sortNodes]. *)
Definition compareNodes (a b : FileNode.t) : Z :=
  if decide (FileNode.type a ≠ FileNode.type b)
  then (if decide (FileNode.type a = FOLDER) then -1 else 1)
  else localeCompare (FileNode.name a) (FileNode.name b).

(** The order in which [nodes.sort(...)] leaves the references of
    [nodes], given the objects [objs] behind them. *)
Definition comparePairs (a b : ref * Obj) : Z :=
  compareNodes (fields a.2) (fields b.2).

Definition sorted_refs (nodes : list ref) (objs : list Obj) : list ref :=
  (js_sort comparePairs (zip nodes objs)).*1.

(** [sortNodes(nodes)].  [owner] is the object whose [children] array
    [nodes] is, if any ([None] for the local array [rootNodes]): the sort
    is in place, so that object sees its array sorted.  [fuel] bounds the
    depth of the recursion; [None] is returned when it runs out, or when
    a reference points outside the store. *)
Fixpoint sortNodes (fuel : nat) (st : Store) (owner : option ref) (nodes : list ref)
    : option (Store * list Node) :=
  match fuel with
  | O => None
  | S fuel' =>
      objs ← mapM (deref st) nodes;
      let sorted := sorted_refs nodes objs in
      let st1 := from_option (λ r, update (set_children sorted) r st) st owner in
      map_nodes
        (λ st r,
           o ← deref st r;
           match children o with
           | Some cs =>
               '(st', ns) ← sortNodes fuel' st (Some r) cs;
               Some (st', mkNode (fields o) (Some ns))
           | None => Some (st, mkNode (fields o) None)
           end)
        st1 sorted
  end.

(** [buildTree(files)] on the objects [files]: the objects as the call
    leaves them, and the returned roots. *)
Definition buildTree (fuel : nat) (files : list Obj) : option (list Obj * list Node) :=
  let records := fields <$> files in
  let indexed := foldl index_file (mkStore files [], ∅) records in
  let attached := foldl (attach indexed.2) (indexed.1, []) records in
  '(st, roots) ← sortNodes fuel attached.1 None attached.2;
  Some (input st, roots).
End TreeBuilder.


(** ** Vocabulary of the tree-builder properties *)

(** Name order under the host collation. *)
Definition collation_le (localeCompare : string → string → Z) (a b : string) : Prop :=
  localeCompare a b ≤ 0.

(** Sibling order: folders before files, and within one type by name. *)
Definition sibling_le (name_le : relation string) (a b : FileNode.t) : Prop :=
  (FileNode.type a = FOLDER ∧ FileNode.type b = FILE)
  ∨ (FileNode.type a = FileNode.type b
     ∧ name_le (FileNode.name a) (FileNode.name b)).

Definition siblings_sorted (name_le : relation string) (ns : list Node) : Prop :=
  StronglySorted (sibling_le name_le) (record_of <$> ns).

(** [P] holds of every sibling set of a forest: of the roots and of the
    children of every node, at any depth. *)
Local Unset Elimination Schemes.
Inductive every_sibling_set (P : list Node → Prop) : list Node → Prop :=
  | every_sibling_set_intro ns :
      P ns →
      Forall (λ n, ∀ ks, kids_of n = Some ks → every_sibling_set P ks) ns →
      every_sibling_set P ns.
Local Set Elimination Schemes.

(** The records of all nodes of a forest, parents before children. *)
Fixpoint records_of_node (n : Node) : list FileNode.t :=
  match n with
  | mkNode r ks =>
      r :: match ks with
           | None => []
           | Some l =>
               (fix go (l : list Node) : list FileNode.t :=
                  match l with
                  | [] => []
                  | k :: l' => records_of_node k ++ go l'
                  end) l
           end
  end.

Definition all_records (ns : list Node) : list FileNode.t :=
  concat (records_of_node <$> ns).

(** Where the second loop puts a record, for [files] with distinct ids:
    among the roots, into the children of the folder at index [j], or
    nowhere (its parent id is that of a FILE record, whose [children] is
    undefined). *)
Inductive Placement :=
  | Root
  | Under (j : nat)
  | Dropped.

#[global] Instance Placement_eq_dec : EqDecision Placement.
Proof. solve_decision. Defined.

Definition index_of (files : list FileNode.t) (key : string) : option nat :=
  fst <$> list_find (λ f, FileNode.id f = key) files.

Definition placement (files : list FileNode.t) (file : FileNode.t) : Placement :=
  match truthy (FileNode.parentId file) ≫= index_of files with
  | None => Root
  | Some j =>
      match FileNode.type <$> files !! j with
      | Some FOLDER => Under j
      | _ => Dropped
      end
  end.

(** The indices below [k] of the records placed at [p], in array order. *)
Definition placed_below (files : list FileNode.t) (k : nat) (p : Placement) : list nat :=
  filter (λ i, placement files <$> files !! i = Some p) (seq 0 k).

Definition placed (files : list FileNode.t) (p : Placement) : list nat :=
  placed_below files (length files) p.

(** Depth of a record in the forest the placements describe. *)
Inductive at_depth (files : list FileNode.t) : nat → nat → Prop :=
  | at_depth_root i f :
      files !! i = Some f → placement files f = Root → at_depth files 0 i
  | at_depth_child i f j d :
      files !! i = Some f → placement files f = Under j → at_depth files d j →
      at_depth files (S d) i.

(** [below files a x]: the record at index [x] is the one at [a] or lies
    under it. *)
Inductive below (files : list FileNode.t) (a : nat) : nat → Prop :=
  | below_refl : below files a a
  | below_step x f p :
      files !! x = Some f → placement files f = Under p → below files a p →
      below files a x.

(** Two objects are the same up to the order of their children. *)
Definition obj_equiv (o o' : Obj) : Prop :=
  fields o = fields o' ∧ option_Forall2 Permutation (children o) (children o').

(** [evolves st st']: nothing has changed between the stores but the
    order of the children of created objects. *)
Definition evolves (st st' : Store) : Prop :=
  input st = input st' ∧ Forall2 obj_equiv (arena st) (arena st').

(** A reference to a created object that exists. *)
Definition is_fresh (st : Store) (r : ref) : Prop :=
  ∃ k, r = Fresh k ∧ (k < length (arena st))%nat.

(** The arrays of created objects refer to created objects only. *)
Definition closed (st : Store) : Prop :=
  ∀ k o cs, arena st !! k = Some o → children o = Some cs → Forall (is_fresh st) cs.

(** A call [sortNodes(nodes)] in a closed store, on an array of created
    objects that is either local or the [children] array of [owner]. *)
Definition call_ok (st : Store) (owner : option ref) (nodes : list ref) : Prop :=
  closed st
  ∧ Forall (is_fresh st) nodes
  ∧ ∀ r, owner = Some r →
      is_fresh st r ∧ ∃ o, deref st r = Some o ∧ children o = Some nodes.

(** The store the second loop leaves for [files] with distinct ids, up to
    the order of children: one created object per record, a folder's
    children being the records placed under it. *)
Definition tidy (files : list FileNode.t) (st : Store) : Prop :=
  fields <$> arena st = files
  ∧ ∀ j o, arena st !! j = Some o →
      match FileNode.type (fields o) with
      | FOLDER => ∃ cs, children o = Some cs ∧ cs ≡ₚ Fresh <$> placed files (Under j)
      | FILE => children o = None
      end.

(** The object created for the record [f] at index [j], once the second
    loop has handled the first [k] records. *)
Definition attached_below (files : list FileNode.t) (k j : nat) (f : FileNode.t) : Obj :=
  mkObj f
    (match FileNode.type f with
     | FOLDER => Some (Fresh <$> placed_below files k (Under j))
     | FILE => None
     end).

(** All references of an array are to objects of records at depth [d]. *)
Definition on_level (files : list FileNode.t) (d : nat) (nodes : list ref) : Prop :=
  Forall (λ r, ∃ i, r = Fresh i ∧ at_depth files d i) nodes.

(** The store and the array [rootNodes] as the two loops of [buildTree]
    leave them. *)
Definition prepared (files : list Obj) : Store * list ref :=
  let records := fields <$> files in
  let indexed := foldl index_file (mkStore files [], ∅) records in
  foldl (attach indexed.2) (indexed.1, []) records.

(** ** Sample data *)

(** A collation in the manner of the usual host default, on ASCII: names
    are compared letter by letter without regard to case, and case decides
    only between names that are otherwise equal, lower case first. *)
Definition caseless_key (s : string) : list N :=
  (λ c, let n := N_of_ascii c in
        if ((65 <=? n) && (n <=? 90))%N then (n + 32)%N else n)
    <$> String.list_ascii_of_string s.

Definition raw_key (s : string) : list N :=
  N_of_ascii <$> String.list_ascii_of_string s.

Definition sign (c : comparison) : Z :=
  match c with
  | Lt => -1
  | Eq => 0
  | Gt => 1
  end.

Definition sampleCollation (a b : string) : Z :=
  match list_compare N.compare (caseless_key a) (caseless_key b) with
  | Eq => sign (list_compare N.compare (raw_key b) (raw_key a))
  | c => sign c
  end.

(** Name order without regard to case. *)
Definition caseless_le (a b : string) : Prop :=
  list_compare N.compare (caseless_key a) (caseless_key b) ≠ Gt.

(** The first scenario of the specification. *)
Definition scenario_files : list Obj :=
  [ mkObj (sampleFolder "1" "src" None) None;
    mkObj (sampleFile "2" "a.js" (Some "1")) None;
    mkObj (sampleFile "3" "b.js" None) None ].

(** A folder with two files and a subfolder, a record whose parent is
    missing, and a record whose parent is a file. *)
Definition stray_files : list Obj :=
  [ mkObj (sampleFile "3" "b.js" None) None;
    mkObj (sampleFile "2" "a.js" (Some "1")) None;
    mkObj (sampleFile "7" "B.js" (Some "1")) None;
    mkObj (sampleFolder "1" "src" None) None;
    mkObj (sampleFolder "6" "lib" (Some "1")) None;
    mkObj (sampleFile "4" "orphan.js" (Some "99")) None;
    mkObj (sampleFile "5" "lost.js" (Some "2")) None ].

(** A file whose id is the empty string, and a record that names it as
    its parent. *)
Definition empty_id_files : list Obj :=
  [ mkObj (sampleFile "" "a.js" None) None;
    mkObj (sampleFile "x" "b.js" (Some "")) None ].

(** The shape of a forest, names only. *)
Fixpoint outline (n : Node) : string :=
  match n with
  | mkNode r ks =>
      FileNode.name r +:+
      match ks with
      | None => ""
      | Some l =>
          "{" +:+
          (fix go (l : list Node) : string :=
             match l with
             | [] => ""
             | k :: l' => outline k +:+ ";" +:+ go l'
             end) l +:+ "}"
      end
  end.

(** ** Callers of the session store *)

(** The tab an operation is aimed at, if it is aimed at one. *)
Definition aims_at (op : Op) (tabId : string) : Prop :=
  match op with
  | CloseTab i | UpdateTabContent i _ | SaveFile i _ => i = tabId
  | OpenFile _ _ _ | SetActiveTab _ => False
  end.

(** Two tabs that differ at most in their [isActive] flag. *)
Definition same_document (a b : EditorTab.t) : Prop :=
  EditorTab.with_isActive false a = EditorTab.with_isActive false b.

(** What the components add to the requests of the store: the dialog of
    [confirm] and the toasts. *)
Inductive UiEvent :=
  | Issued (e : Effect)
  | ConfirmDialog (msg : string)
  | ToastSuccess (msg : string)
  | ToastError (msg : string).

(** What a handler leaves behind: the session, what it has shown and
    sent, and the error it ends with, if any ([ui_thrown]).
    [ui_unmounted] is the error React meets, if any, when it applies the
    update the handler has queued: the provider is then unmounted, no
    session is left, and [ui_next] is the session it held last. *)
Record UiOutcome := mkUiOutcome {
  ui_next : Session;
  ui_log : list UiEvent;
  ui_thrown : option Exn;
  ui_unmounted : option Exn
}.

(** The call [closeTab(tabId)] that ends [handleClose].  The call itself
    returns; an error of its updater comes up when React applies it, not
    in the handler. *)
Definition finish_close (s : Session) (tabId : string) (log : list UiEvent) : UiOutcome :=
  match closeTab s tabId with
  | Ok s' => mkUiOutcome s' log None None
  | Throw e => mkUiOutcome s log None (Some e)
  end.

(** [handleClose(e, tabId)] of the tab bar ([EditorTabs], components/editor).
    [confirmed] is the answer to the dialog and [net] the outcome of the
    PATCH request, each consulted only if the dialog is shown or the
    request made.  A rejected [await saveFile(tabId)] ends the handler
    before [closeTab] is reached. *)
Definition handleClose (s : Session) (tabId : string) (confirmed : bool)
    (net : FetchOutcome) : UiOutcome :=
  match find (λ t, EditorTab.id t = tabId) (tabs s) with
  | Some tab =>
      if EditorTab.isDirty tab then
        let asked := ConfirmDialog "Save changes before closing?" in
        if confirmed then
          let o := saveFile s tabId net in
          match thrown o with
          | Some e => mkUiOutcome (next o) (asked :: (Issued <$> effects o)) (Some e) None
          | None => finish_close (next o) tabId (asked :: (Issued <$> effects o))
          end
        else finish_close s tabId [asked]
      else finish_close s tabId []
  | None => finish_close s tabId []
  end.


(** ** [debounce] (lib/utils.ts) *)

Module Debounce.
Section debounce.
Context {A : Type}.

(** The delay [wait], in the unit of the clock. *)
Variable wait : Z.

(** A timer of the host that has been set and has neither run nor been
    cleared: its handle, the clock value from which it is due, and the
    arguments its callback [() => func(...args)] has captured. *)
Record Timer := mkTimer {
  handle : positive;
  due : Z;
  args : A
}.

(** The variable [timeout] of the closure, the timers of the host that
    the closure has set, oldest first, and the next handle the host hands
    out (handles are positive integers, so a handle is truthy). *)
Record t := mk {
  timeout : option positive;
  timers : list Timer;
  unused : positive
}.

Definition init : t := mk None [] 1%positive.

(** [clearTimeout(h)]: nothing happens when no timer has the handle. *)
Definition clearTimeout (h : positive) (l : list Timer) : list Timer :=
  filter (λ x, handle x ≠ h) l.

(** A call of the returned function at clock value [now]. *)
Definition call (now : Z) (a : A) (d : t) : t :=
  let kept :=
    match timeout d with
    | Some h => clearTimeout h (timers d)
    | None => timers d
    end in
  mk (Some (unused d)) (kept ++ [mkTimer (unused d) (now + wait) a]) (Pos.succ (unused d)).

(** The host, at clock value [now], runs the timers that are due, oldest
    first: the state left, and the arguments [func] is applied to. *)
Definition elapse (now : Z) (d : t) : t * list A :=
  (mk (timeout d) (filter (λ x, ¬ due x ≤ now) (timers d)) (unused d),
   args <$> filter (λ x, due x ≤ now) (timers d)).

Inductive Event :=
  | Call (now : Z) (a : A)
  | Elapse (now : Z).

(** The state after an event, and the applications of [func] so far, each
    with the clock value at which it took place. *)
Definition step (acc : t * list (Z * A)) (ev : Event) : t * list (Z * A) :=
  match ev with
  | Call now a => (call now a acc.1, acc.2)
  | Elapse now =>
      let r := elapse now acc.1 in
      (r.1, acc.2 ++ ((λ a, (now, a)) <$> r.2))
  end.

Definition run (evs : list Event) : t * list (Z * A) := foldl step (init, []) evs.

Definition is_call (ev : Event) : Prop :=
  match ev with
  | Call _ _ => True
  | Elapse _ => False
  end.

(** The last call among the events, with its clock value. *)
Definition last_call (evs : list Event) : option (Z * A) :=
  foldl (λ acc ev, match ev with Call now a => Some (now, a) | Elapse _ => acc end)
    None evs.

(** A burst: every event comes less than [wait] after the call before it.
    [deadline] is the clock value at which the pending timer is due. *)
Fixpoint burst (deadline : option Z) (evs : list Event) : Prop :=
  match evs with
  | [] => True
  | Call now _ :: rest =>
      (∀ d, deadline = Some d → now < d) ∧ burst (Some (now + wait)) rest
  | Elapse now :: rest =>
      (∀ d, deadline = Some d → now < d) ∧ burst deadline rest
  end.
End debounce.
End Debounce.

(** ** Further vocabulary of the tree-builder properties *)

(** [P] holds of every node of a forest, at any depth. *)
Local Unset Elimination Schemes.
Inductive every_node (P : Node → Prop) : list Node → Prop :=
  | every_node_intro ns :
      Forall (λ n, P n ∧ ∀ ks, kids_of n = Some ks → every_node P ks) ns →
      every_node P ns.
Local Set Elimination Schemes.

(** The record [f] names [r] as its parent: [f.parentId] is truthy and is
    the id of [r]. *)
Definition child_of (r f : FileNode.t) : Prop :=
  truthy (FileNode.parentId f) = Some (FileNode.id r).

(** The record [f] names no record of [files] as its parent. *)
Definition parentless (files : list FileNode.t) (f : FileNode.t) : Prop :=
  ∀ pid, truthy (FileNode.parentId f) = Some pid → pid ∉ FileNode.id <$> files.

(** A folder node has as kids copies of exactly the records that name it
    as their parent; a file node has none. *)
Definition kids_are_children (files : list FileNode.t) (n : Node) : Prop :=
  match FileNode.type (record_of n) with
  | FOLDER =>
      ∃ ks, kids_of n = Some ks
        ∧ ∀ f, f ∈ record_of <$> ks ↔ f ∈ files ∧ child_of (record_of n) f
  | FILE => kids_of n = None
  end.

(** A folder that is its own parent, and a file in it. *)
Definition looped_files : list Obj :=
  [ mkObj (sampleFile "3" "b.js" None) None;
    mkObj (sampleFolder "1" "src" (Some "1")) None;
    mkObj (sampleFile "2" "a.js" (Some "1")) None ].

#[global] Instance FileNode_eq_dec : EqDecision FileNode.t.
Proof. solve_decision. Defined.

(** The records of [stray_files] in another order. *)
Definition shuffled_files : list Obj :=
  [ mkObj (sampleFile "5" "lost.js" (Some "2")) None;
    mkObj (sampleFolder "6" "lib" (Some "1")) None;
    mkObj (sampleFile "7" "B.js" (Some "1")) None;
    mkObj (sampleFile "3" "b.js" None) None;
    mkObj (sampleFile "4" "orphan.js" (Some "99")) None;
    mkObj (sampleFolder "1" "src" None) None;
    mkObj (sampleFile "2" "a.js" (Some "1")) None ].

(** The two ways in which an operation moves [activeTabId] to a tab
    without writing the [isActive] flags: [closeTab] on the active tab while
    other tabs remain, and [openFile] on a file whose tab is open but is
    not the active one. *)
Definition moves_focus_only (s : Session) (op : Op) : Prop :=
  match op with
  | CloseTab tabId => activeTabId s = Some tabId ∧ (2 ≤ length (tabs s))%nat
  | OpenFile file _ _ =>
      FileNode.type file = FILE
      ∧ ∃ t, find (λ x, EditorTab.fileId x = FileNode.id file) (tabs s) = Some t
             ∧ activeTabId s ≠ Some (EditorTab.id t)
  | SetActiveTab _ | UpdateTabContent _ _ | SaveFile _ _ => False
  end.

(** [activeTab] as the editor pane computes it:
    [tabs.find(t => t.id === activeTabId)]. *)
Definition activeTab (s : Session) : option EditorTab.t :=
  find (λ t, Some (EditorTab.id t) = activeTabId s) (tabs s).

(** ** The editor pane ([CodeEditor], components/editor) *)






(** * Properties of the session store *)

Section find_facts.
Context {A : Type} (P : A → Prop) `{∀ x, Decision (P x)}.

Lemma find_Some_inv (l : list A) (x : A) :
  find P l = Some x → ∃ i, list_find P l = Some (i, x) ∧ l !! i = Some x ∧ P x.
Proof.
  unfold find. destruct (list_find P l) as [[i y]|] eqn:E; simpl; [|done].
  intros [= ->]. exists i. split; [done|].
  apply list_find_Some in E. tauto.
Qed.

Lemma find_None_inv (l : list A) :
  find P l = None → Forall (λ x, ¬ P x) l.
Proof.
  unfold find. destruct (list_find P l) as [[i y]|] eqn:E; simpl; [done|].
  intros _. by apply list_find_None in E.
Qed.

Lemma find_is_Some (l : list A) (x : A) :
  x ∈ l → P x → is_Some (find P l).
Proof.
  intros Hin HP. unfold find.
  destruct (list_find P l) as [[i y]|] eqn:E; simpl; [by eexists|].
  apply list_find_None in E. rewrite Forall_forall in E. by destruct (E x).
Qed.
End find_facts.

(** ** Tab lists with unique ids *)

Section unique_keys.
Context {A K : Type} `{EqDecision K} (key : A → K).

Lemma filter_all (P : A → Prop) `{∀ x, Decision (P x)} (l : list A) :
  Forall P l → filter P l = l.
Proof.
  induction 1 as [|x l Hx _ IH]; [done|].
  rewrite filter_cons_True by done. by rewrite IH.
Qed.

Lemma filter_none (P : A → Prop) `{∀ x, Decision (P x)} (l : list A) :
  Forall (λ x, ¬ P x) l → filter P l = [].
Proof.
  induction 1 as [|x l Hx _ IH]; [done|].
  by rewrite filter_cons_False.
Qed.

Lemma unique_key_others (x : A) (l : list A) :
  NoDup (key <$> (x :: l)) → Forall (λ y, key y ≠ key x) l.
Proof.
  rewrite fmap_cons, NoDup_cons. intros [Hx _].
  apply Forall_forall. intros y Hy Heq. apply Hx. rewrite <- Heq.
  by apply list_elem_of_fmap_2.
Qed.

(** Filtering out one key removes exactly the element that carries it. *)
Lemma filter_key_delete (l : list A) (i : nat) (x : A) :
  NoDup (key <$> l) → l !! i = Some x →
  filter (λ y, key y ≠ key x) l = delete i l.
Proof.
  revert i. induction l as [|y l IH]; intros i Hnd Hi; [done|].
  destruct i as [|i]; simpl in Hi.
  - injection Hi as ->. rewrite filter_cons_False by (intros Hne; by apply Hne).
    simpl. apply filter_all. by apply unique_key_others.
  - assert (key y ≠ key x) as Hne.
    { pose proof (unique_key_others _ _ Hnd) as Hall.
      rewrite Forall_forall in Hall. intros Heq.
      apply (Hall x); [by eapply list_elem_of_lookup_2|done]. }
    rewrite filter_cons_True by done. simpl. f_equal.
    apply IH; [|done]. rewrite fmap_cons in Hnd. by apply NoDup_cons in Hnd as [_ ?].
Qed.

(** Searching for a key finds the one element that carries it. *)
Lemma list_find_key (l : list A) (i : nat) (x : A) :
  NoDup (key <$> l) → l !! i = Some x →
  list_find (λ y, key y = key x) l = Some (i, x).
Proof.
  intros Hnd Hi. apply list_find_Some. split_and!; [done|done|].
  intros j y Hj Hlt Heq.
  assert (i = j); [|lia].
  apply (NoDup_lookup (key <$> l) i j (key x)); [done| |].
  - by rewrite list_lookup_fmap, Hi.
  - rewrite list_lookup_fmap, Hj. simpl. by rewrite Heq.
Qed.

(** Selecting by a key that occurs keeps exactly its carrier. *)
Lemma filter_key_singleton (l : list A) (i : nat) (x : A) :
  NoDup (key <$> l) → l !! i = Some x →
  filter (λ y, key y = key x) l = [x].
Proof.
  revert i. induction l as [|y l IH]; intros i Hnd Hi; [done|].
  destruct i as [|i]; simpl in Hi.
  - injection Hi as ->. rewrite filter_cons_True by done. f_equal.
    apply filter_none. by apply unique_key_others.
  - pose proof (unique_key_others _ _ Hnd) as Hall.
    rewrite Forall_forall in Hall.
    rewrite filter_cons_False.
    + apply (IH i); [|done]. rewrite fmap_cons in Hnd. by apply NoDup_cons in Hnd as [_ ?].
    + intros Heq. apply (Hall x); [by eapply list_elem_of_lookup_2|done].
Qed.

Lemma NoDup_key_delete (l : list A) (i : nat) :
  NoDup (key <$> l) → NoDup (key <$> delete i l).
Proof.
  intros Hnd. rewrite list_fmap_delete.
  eapply sublist_NoDup; [done|apply sublist_delete].
Qed.
End unique_keys.

(** ** The session invariant *)

(** [setActiveTab] on the id of a present tab establishes the invariant:
    it writes both the flags and [activeTabId]. *)
Lemma setActiveTab_establishes_invariant (s : Session) (i : nat) (t : EditorTab.t) :
  NoDup (EditorTab.id <$> tabs s) → tabs s !! i = Some t →
  session_invariant (setActiveTab s (EditorTab.id t)).
Proof.
  intros Hnd Hi. unfold session_invariant.
  destruct (tabs (setActiveTab s (EditorTab.id t))) as [|y l] eqn:E.
  - apply (f_equal length) in E. simpl in E. rewrite length_fmap in E.
    apply lookup_lt_Some in Hi. lia.
  - rewrite <- E. clear E y l. exists (EditorTab.with_isActive true t). split; [|done].
    simpl. revert i Hnd Hi. induction (tabs s) as [|y l IH]; intros i Hnd Hi; [done|].
    pose proof (unique_key_others _ _ _ Hnd) as Hall.
    rewrite fmap_cons in Hnd. apply NoDup_cons in Hnd as [_ Hnd].
    rewrite fmap_cons. destruct i as [|i]; simpl in Hi.
    + injection Hi as ->. rewrite filter_cons_True by (simpl; by rewrite bool_decide_eq_true_2).
      rewrite bool_decide_eq_true_2 by done. f_equal.
      apply filter_none. apply Forall_fmap, (Forall_impl _ _ _ Hall).
      intros x Hx. simpl. by rewrite bool_decide_eq_false_2.
    + rewrite filter_cons_False; [by apply (IH i)|].
      simpl. rewrite bool_decide_eq_false_2; [done|].
      rewrite Forall_forall in Hall. intros Heq.
      apply (Hall t); [by eapply list_elem_of_lookup_2|done].
Qed.

(** So does the branch of [openFile] that appends a new tab. *)
Lemma openFile_new_establishes_invariant (s : Session) (file : FileNode.t)
    (c : option string) (now : Z) :
  FileNode.type file = FILE →
  find (λ t, EditorTab.fileId t = FileNode.id file) (tabs s) = None →
  session_invariant (fst (openFile s file (Resolved true (Some c)) now)).
Proof.
  intros Hty Hnone. unfold openFile. rewrite Hty, Hnone. simpl.
  unfold session_invariant. simpl.
  match goal with
  | |- match ?l with _ => _ end => destruct l as [|y l'] eqn:E
  end; [by destruct (tabs s)|].
  rewrite <- E. clear E.
  rewrite filter_app, filter_cons_True by done.
  rewrite filter_none by (apply Forall_fmap, Forall_forall; by intros x _).
  eexists. split; reflexivity.
Qed.

(** C1 (defect in the code).  The session invariant: with a non-empty tab
    list exactly one tab has [isActive = true] and [activeTabId] is its id.
    It holds after opening two files, and [closeTab] on the active tab then
    breaks it: the remaining tab becomes the one [activeTabId] names, but its
    [isActive] flag stays [false], so no tab is flagged active. *)
Theorem closeTab_breaks_session_invariant :
  session_invariant (run (take 2 close_active_trace))
  ∧ run close_active_trace =
      mkSession
        [EditorTab.mk "tab-1000" "f1" "a.js" "/a.js" "x" (Some ".js") false false]
        (Some "tab-1000") (Some (sampleFile "f2" "b.js" None))
  ∧ ¬ session_invariant (run close_active_trace).
Proof.
  split_and!.
  - vm_compute. eexists. split; reflexivity.
  - vm_compute. reflexivity.
  - intros Hinv. vm_compute in Hinv. destruct Hinv as [t [Hflag _]]. discriminate Hflag.
Qed.

(** The same happens when [openFile] finds the tab already open: it moves
    [activeTabId] to that tab and leaves the flags on the tab that was
    active before. *)
Lemma openFile_existing_breaks_session_invariant :
  ¬ session_invariant (run reopen_trace).
Proof.
  intros Hinv. vm_compute in Hinv. destruct Hinv as [t [Hflag Hid]].
  injection Hflag as <-. discriminate Hid.
Qed.

(** ** [setActiveTab] *)

(** C2, as stated, fails: on an id that no tab carries, [setActiveTab] is
    not a no-op.  After opening one file, selecting an absent id clears
    the flag of the open tab and leaves [activeTabId] dangling. *)
Lemma setActiveTab_missing_not_noop :
  let s := run [OpenFile (sampleFile "f1" "a.js" None) (fetched "x") 1000] in
  (∀ t, t ∈ tabs s → EditorTab.id t ≠ "tab-9")
  ∧ setActiveTab s "tab-9" ≠ s
  ∧ setActiveTab s "tab-9" =
      mkSession
        [EditorTab.mk "tab-1000" "f1" "a.js" "/a.js" "x" (Some ".js") false false]
        (Some "tab-9") (Some (sampleFile "f1" "a.js" None)).
Proof.
  split_and!.
  - intros t Ht. vm_compute in Ht. apply list_elem_of_singleton in Ht as ->. discriminate.
  - vm_compute. discriminate.
  - vm_compute. reflexivity.
Qed.

(** C2 (amended).  For every session and every [tabId], [setActiveTab]
    raises no error, keeps the tabs in place and changes nothing of a tab
    but its flag: the flag becomes [true] exactly on a tab whose id is
    [tabId]; [activeTabId] becomes [tabId].  When no tab carries [tabId],
    every flag becomes [false] and [activeTabId] is [tabId] all the same. *)
Theorem setActiveTab_spec (s : Session) (tabId : string) :
  let s' := setActiveTab s tabId in
  activeTabId s' = Some tabId
  ∧ selectedFile s' = selectedFile s
  ∧ length (tabs s') = length (tabs s)
  ∧ (∀ i t, tabs s !! i = Some t →
       tabs s' !! i = Some (EditorTab.with_isActive (bool_decide (EditorTab.id t = tabId)) t))
  ∧ (∀ t', t' ∈ tabs s' → (EditorTab.isActive t' = true ↔ EditorTab.id t' = tabId))
  ∧ ((∀ t, t ∈ tabs s → EditorTab.id t ≠ tabId) →
       Forall (λ t', EditorTab.isActive t' = false) (tabs s')).
Proof.
  simpl. split_and!; [done|done|by rewrite length_fmap| | |].
  - intros i t Hi. by rewrite list_lookup_fmap, Hi.
  - intros t' [t [-> _]]%list_elem_of_fmap. simpl.
    by rewrite bool_decide_eq_true.
  - intros Hnone. apply Forall_fmap, Forall_forall. intros t Ht. simpl.
    apply bool_decide_eq_false_2. by apply Hnone.
Qed.

Lemma setActiveTab_spec_witness :
  let s := run (take 2 close_active_trace) in
  (∀ t, t ∈ tabs s → EditorTab.id t ≠ "tab-9")
  ∧ Forall (λ t', EditorTab.isActive t' = false) (tabs (setActiveTab s "tab-9")).
Proof.
  simpl.
  assert (∀ t, t ∈ tabs (run (take 2 close_active_trace)) → EditorTab.id t ≠ "tab-9") as Hnone.
  { intros t Ht. vm_compute in Ht.
    apply elem_of_cons in Ht as [->|Ht]; [discriminate|].
    apply list_elem_of_singleton in Ht as ->. discriminate. }
  split; [exact Hnone|].
  exact (proj2 (proj2 (proj2 (proj2 (proj2
    (setActiveTab_spec (run (take 2 close_active_trace)) "tab-9"))))) Hnone).
Defined.

(** ** [closeTab] *)

(** [closeTab] on the id of a tab that is open, in a session with distinct
    tab ids: what it returns. *)
Lemma closeTab_present (s : Session) (i : nat) (t : EditorTab.t) :
  NoDup (EditorTab.id <$> tabs s) →
  tabs s !! i = Some t →
  ∃ s', closeTab s (EditorTab.id t) = Ok s'
    ∧ tabs s' = delete i (tabs s)
    ∧ activeTabId s'
      = if decide (tabs s' = []) then None
        else if decide (activeTabId s = Some (EditorTab.id t))
             then EditorTab.id <$> tabs s' !! (i `min` (length (tabs s') - 1))%nat
             else activeTabId s.
Proof.
  intros Hnd Hi. unfold closeTab, findIndex.
  rewrite (list_find_key EditorTab.id _ _ _ Hnd Hi).
  rewrite (filter_key_delete EditorTab.id _ _ _ Hnd Hi).
  pose proof (lookup_lt_Some _ _ _ Hi) as Hlt.
  destruct (decide (activeTabId s = Some (EditorTab.id t)
                    ∧ (0 < length (delete i (tabs s)))%nat)) as [[Hact Hpos]|Hno].
  - set (j := (i `min` (length (delete i (tabs s)) - 1))%nat).
    assert (Z.of_nat i `min` (Z.of_nat (length (delete i (tabs s))) - 1) = Z.of_nat j) as ->
      by (unfold j; lia).
    unfold index. rewrite decide_True by lia. rewrite Nat2Z.id.
    destruct (lookup_lt_is_Some_2 (delete i (tabs s)) j) as [t' Ht']; [unfold j; lia|].
    rewrite Ht'. eexists. split; [done|]. simpl. split; [done|].
    rewrite decide_False by (intros Hnil; rewrite Hnil in Hpos; simpl in Hpos; lia).
    rewrite decide_True by done. fold j. by rewrite Ht'.
  - destruct (decide (length (delete i (tabs s)) = 0%nat)) as [Hz|Hnz].
    + eexists. split; [done|]. simpl. split; [done|].
      apply length_zero_iff_nil in Hz. by rewrite decide_True.
    + eexists. split; [done|]. simpl. split; [done|].
      rewrite decide_False by (intros Hnil; by rewrite Hnil in Hnz).
      rewrite decide_False; [done|]. intros Hact. apply Hno. split; [done|lia].
Qed.

Lemma designated_key (s : Session) (i : nat) (t : EditorTab.t) :
  NoDup (EditorTab.id <$> tabs s) → tabs s !! i = Some t →
  activeTabId s = Some (EditorTab.id t) → designated s = [t].
Proof.
  intros Hnd Hi Hact. unfold designated. rewrite Hact.
  rewrite <- (filter_key_singleton EditorTab.id _ _ _ Hnd Hi).
  apply list_filter_iff. intros x. split; [by intros [= ->]|by intros ->].
Qed.

Lemma designated_elem (s : Session) (t : EditorTab.t) :
  designated s = [t] → t ∈ tabs s ∧ activeTabId s = Some (EditorTab.id t).
Proof.
  intros Hd.
  assert (t ∈ designated s) as [? ?]%list_elem_of_filter
    by (rewrite Hd; by apply list_elem_of_singleton).
  done.
Qed.

(** What [closeTab] does by [activeTabId], the [isActive] flags left
    aside.  In a session whose tab ids are distinct, [closeTab] on the id of
    the tab at index [i] raises no error and removes exactly that tab.  If
    no tab remains, [activeTabId] becomes null.  If the removed tab was the
    one [activeTabId] names and tabs remain, [activeTabId] becomes the id
    of the tab now at index [i], or of the last tab when the removed one
    was last (index [min i (n - 1)] of the [n] remaining tabs), and that
    tab is the only one [activeTabId] names.  If [activeTabId] named
    another tab and tabs remain, it is unchanged. *)
Lemma closeTab_spec (s : Session) (i : nat) (t : EditorTab.t) :
  NoDup (EditorTab.id <$> tabs s) →
  tabs s !! i = Some t →
  ∃ s', closeTab s (EditorTab.id t) = Ok s'
    ∧ tabs s' = delete i (tabs s)
    ∧ (tabs s' = [] → activeTabId s' = None)
    ∧ (activeTabId s = Some (EditorTab.id t) → (2 ≤ length (tabs s))%nat →
         ∃ t', tabs s' !! (i `min` (length (tabs s') - 1))%nat = Some t'
               ∧ activeTabId s' = Some (EditorTab.id t')
               ∧ designated s' = [t'])
    ∧ (activeTabId s ≠ Some (EditorTab.id t) → tabs s' ≠ [] →
         activeTabId s' = activeTabId s).
Proof.
  intros Hnd Hi.
  destruct (closeTab_present s i t Hnd Hi) as (s' & Hclose & Htabs & Hactive).
  exists s'. split; [done|]. split; [done|].
  assert (length (tabs s') = length (tabs s) - 1)%nat as Hlen
    by (rewrite Htabs; apply length_delete; by eexists).
  split_and!.
  - intros Hnil. by rewrite Hactive, decide_True.
  - intros Hact Htwo.
    destruct (lookup_lt_is_Some_2 (tabs s') (i `min` (length (tabs s') - 1))%nat)
      as [t' Ht']; [lia|].
    assert (tabs s' ≠ []) as Hne by (intros Hnil; rewrite Hnil in Hlen; simpl in Hlen; lia).
    assert (activeTabId s' = Some (EditorTab.id t')) as Hnew
      by (by rewrite Hactive, decide_False, decide_True, Ht').
    exists t'. split_and!; [done|done|].
    eapply (designated_key s'); [|exact Ht'|done].
    rewrite Htabs. by apply NoDup_key_delete.
  - intros Hother Hne. by rewrite Hactive, !decide_False.
Qed.

Lemma closeTab_spec_witness :
  let s := run (take 2 close_active_trace) in
  ∃ s', closeTab s "tab-2000" = Ok s'
    ∧ tabs s' = delete 1%nat (tabs s)
    ∧ (tabs s' = [] → activeTabId s' = None)
    ∧ (activeTabId s = Some "tab-2000" → (2 ≤ length (tabs s))%nat →
         ∃ t', tabs s' !! (1 `min` (length (tabs s') - 1))%nat = Some t'
               ∧ activeTabId s' = Some (EditorTab.id t')
               ∧ designated s' = [t'])
    ∧ (activeTabId s ≠ Some "tab-2000" → tabs s' ≠ [] →
         activeTabId s' = activeTabId s).
Proof.
  simpl.
  refine (closeTab_spec (run (take 2 close_active_trace)) 1
            (EditorTab.mk "tab-2000" "f2" "b.js" "/b.js" "y" (Some ".js") false true) _ _).
  - apply (bool_decide_unpack _). vm_compute. exact I.
  - vm_compute. reflexivity.
Defined.

(** [closeTab] leaves the [isActive] flags as it found them: every remaining
    tab is one of the tabs before the call, flag included. *)
Lemma closeTab_keeps_flags (s s' : Session) (tabId : string) (t : EditorTab.t) :
  closeTab s tabId = Ok s' → t ∈ tabs s' → t ∈ tabs s.
Proof.
  unfold closeTab. intros Hc Ht.
  assert (tabs s' = filter (λ x, EditorTab.id x ≠ tabId) (tabs s)) as Htabs.
  { destruct (decide _); [destruct (index _ _)|destruct (decide _)]; by simplify_eq. }
  rewrite Htabs in Ht. by apply list_elem_of_filter in Ht as [_ ?].
Qed.

(** The one situation in which [closeTab] throws: [activeTabId] names an
    absent tab (left there by [setActiveTab]) and that id is closed. *)
Lemma closeTab_dangling_throws :
  closeTab (setActiveTab (run (take 2 close_active_trace)) "tab-9") "tab-9" = Throw TypeError.
Proof. vm_compute. reflexivity. Qed.

(** C3 (defect in the code).  With three tabs open and the middle one
    active (flagged [isActive], and named by [activeTabId]), [closeTab] on
    it removes it and moves [activeTabId] to the tab now at its index, as
    the specification says; but it writes no [isActive] flag, so of the two
    remaining tabs none is flagged active, where the specification asks
    for exactly one.  The defect is the one of C1: [closeTab] calls
    [setActiveTabId] only, where [setActiveTab] and the new-tab branch of
    [openFile] write the flags too. *)
Theorem closeTab_activates_by_id_only :
  let s := run (take 4 close_middle_trace) in
  session_invariant s
  ∧ EditorTab.id <$> tabs s = ["tab-1000"; "tab-2000"; "tab-3000"]
  ∧ activeTabId s = Some "tab-2000"
  ∧ closeTab s "tab-2000" =
      Ok (mkSession
            [EditorTab.mk "tab-1000" "f1" "a.js" "/a.js" "x" (Some ".js") false false;
             EditorTab.mk "tab-3000" "f3" "c.js" "/c.js" "z" (Some ".js") false false]
            (Some "tab-3000") (Some (sampleFile "f3" "c.js" None)))
  ∧ ¬ (∃ s' t, closeTab s "tab-2000" = Ok s'
               ∧ filter (λ x, EditorTab.isActive x = true) (tabs s') = [t]).
Proof.
  split_and!.
  - vm_compute. eexists. split; reflexivity.
  - vm_compute. reflexivity.
  - vm_compute. reflexivity.
  - vm_compute. reflexivity.
  - intros (s' & t & Hclose & Hflag). vm_compute in Hclose.
    injection Hclose as <-. vm_compute in Hflag. discriminate Hflag.
Qed.

(** ** [saveFile] *)



(** The second scenario of the specification: open file 5 with content
    ["x"], edit to ["y"], and a failing save leaves content ["y"], dirty. *)
Example save_failure_scenario :
  let s := run [OpenFile (sampleFile "5" "five.js" None) (fetched "x") 1000;
                UpdateTabContent "tab-1000" "y"] in
  let o := saveFile s "tab-1000" (Resolved false None) in
  thrown o = Some (Error "Failed to save file")
  ∧ (λ t, (EditorTab.content t, EditorTab.isDirty t)) <$> tabs (next o) = [("y", true)].
Proof. vm_compute. split; reflexivity. Qed.

(** ** [openFile] *)

Lemma tabsOn_deactivate (fileId : string) (l : list EditorTab.t) :
  length (filter (λ t, EditorTab.fileId t = fileId) (EditorTab.with_isActive false <$> l))
  = length (filter (λ t, EditorTab.fileId t = fileId) l).
Proof.
  induction l as [|x l IH]; [done|]. rewrite fmap_cons, !filter_cons. simpl.
  case_decide; simpl; by rewrite IH.
Qed.

(** One call of [openFile] adds at most one tab on the file, and none when
    a tab on the file is already there. *)
Lemma openFile_tabsOn (s : Session) (file : FileNode.t) (net : FetchOutcome) (now : Z) :
  let s' := fst (openFile s file net now) in
  (tabsOn (FileNode.id file) s' ≤ S (tabsOn (FileNode.id file) s))%nat
  ∧ ((0 < tabsOn (FileNode.id file) s)%nat →
       tabsOn (FileNode.id file) s' = tabsOn (FileNode.id file) s).
Proof.
  unfold openFile, tabsOn. destruct (FileNode.type file); [|simpl; lia].
  destruct (find _ _) as [existing|] eqn:Hfind; [simpl; lia|].
  apply find_None_inv in Hfind.
  destruct net as [|[] [c|]]; simpl;
    rewrite ?filter_app, ?length_app, ?tabsOn_deactivate, ?(filter_none _ _ Hfind),
      ?filter_cons_True by done;
    simpl; lia.
Qed.

(** What two calls of [openFile] in a row do, for a FILE record, one call
    after the other has completed: they add at most one tab on that file.
    Whenever the first call leaves a tab on the file (it found one, or its
    fetch succeeded), the second call finds that tab, makes its id the
    [activeTabId], issues no request and leaves the tab list, flags
    included, as it is.  When the first call created the tab, that tab is
    after the second call the only tab on the file, flagged [isActive],
    and the one [activeTabId] names. *)
Lemma openFile_twice (s : Session) (file : FileNode.t)
    (net1 net2 : FetchOutcome) (now1 now2 : Z) :
  FileNode.type file = FILE →
  let s1 := fst (openFile s file net1 now1) in
  let r2 := openFile s1 file net2 now2 in
  (tabsOn (FileNode.id file) (fst r2) ≤ S (tabsOn (FileNode.id file) s))%nat
  ∧ (length (tabs (fst r2)) ≤ S (length (tabs s)))%nat
  ∧ ((0 < tabsOn (FileNode.id file) s)%nat ∨ (∃ c, net1 = Resolved true (Some c)) →
       ∃ existing,
         find (λ t, EditorTab.fileId t = FileNode.id file) (tabs s1) = Some existing
         ∧ r2 = (mkSession (tabs s1) (Some (EditorTab.id existing)) (Some file), []))
  ∧ (tabsOn (FileNode.id file) s = 0%nat → ∀ c, net1 = Resolved true (Some c) →
       ∃ t, filter (λ x, EditorTab.fileId x = FileNode.id file) (tabs (fst r2)) = [t]
            ∧ EditorTab.isActive t = true
            ∧ activeTabId (fst r2) = Some (EditorTab.id t)).
Proof.
  intros Hty. simpl.
  assert ((0 < tabsOn (FileNode.id file) s)%nat ∨ (∃ c, net1 = Resolved true (Some c)) →
          ∃ existing,
            find (λ t, EditorTab.fileId t = FileNode.id file)
              (tabs (fst (openFile s file net1 now1))) = Some existing) as Hex.
  { intros Hor.
    assert (0 < tabsOn (FileNode.id file) (fst (openFile s file net1 now1)))%nat as Hpos.
    { destruct Hor as [Hpos|[c ->]].
      - by rewrite (proj2 (openFile_tabsOn s file net1 now1) Hpos).
      - unfold openFile, tabsOn. rewrite Hty.
        destruct (find _ _) as [existing|] eqn:Hfind.
        + simpl. apply find_Some_inv in Hfind as (j & _ & Hj & HP).
          apply list_elem_of_lookup_2 in Hj.
          destruct (filter _ (tabs s)) eqn:E; [|simpl; lia].
          assert (existing ∈ filter (λ t, EditorTab.fileId t = FileNode.id file) (tabs s))
            as Hin by by apply list_elem_of_filter.
          rewrite E in Hin. by apply elem_of_nil in Hin.
        + simpl. rewrite filter_app, length_app, filter_cons_True by done. simpl. lia. }
    unfold tabsOn in Hpos.
    destruct (filter _ _) as [|x l] eqn:E; [simpl in Hpos; lia|].
    assert (x ∈ filter (λ t, EditorTab.fileId t = FileNode.id file)
                  (tabs (fst (openFile s file net1 now1)))) as Hin
      by (rewrite E; apply elem_of_cons; by left).
    apply list_elem_of_filter in Hin as [HP Hin].
    destruct (find_is_Some (λ t, EditorTab.fileId t = FileNode.id file) _ x Hin HP)
      as [existing ?].
    by exists existing. }
  split_and!.
  - pose proof (openFile_tabsOn s file net1 now1) as [H1 H1'].
    pose proof (openFile_tabsOn (fst (openFile s file net1 now1)) file net2 now2) as [H2 H2'].
    simpl in *.
    destruct (decide (0 < tabsOn (FileNode.id file) (fst (openFile s file net1 now1)))%nat)
      as [Hpos|Hzero]; [rewrite (H2' Hpos); lia|].
    lia.
  - destruct (find (λ t, EditorTab.fileId t = FileNode.id file)
                (tabs (fst (openFile s file net1 now1)))) as [existing|] eqn:Hfind2.
    + unfold openFile at 1. rewrite Hty, Hfind2. simpl.
      unfold openFile. rewrite Hty. destruct (find _ (tabs s)); [simpl; lia|].
      destruct net1 as [|[] [c|]]; simpl; rewrite ?length_app, ?length_fmap; simpl; lia.
    + assert (fst (openFile s file net1 now1) = s) as Hsame.
      { unfold openFile in Hfind2 |- *. rewrite Hty in Hfind2 |- *.
        destruct (find _ (tabs s)) eqn:Hfind1; [simpl in Hfind2; congruence|].
        destruct net1 as [|[] [c|]]; simpl in *; try done.
        apply find_None_inv in Hfind2. apply Forall_app in Hfind2 as [_ Hlast].
        inversion Hlast as [|? ? Hne _]. by destruct Hne. }
      rewrite Hsame. unfold openFile. rewrite Hty.
      destruct (find _ (tabs s)); [simpl; lia|].
      destruct net2 as [|[] [c|]]; simpl; rewrite ?length_app, ?length_fmap; simpl; lia.
  - intros Hor. destruct (Hex Hor) as [existing Hfind]. exists existing. split; [done|].
    unfold openFile at 1. by rewrite Hty, Hfind.
  - intros Hzero c ->.
    assert (Forall (λ x, EditorTab.fileId x ≠ FileNode.id file) (tabs s)) as Hnone.
    { apply Forall_forall. intros x Hx Hfile.
      unfold tabsOn in Hzero. apply length_zero_iff_nil in Hzero.
      exact (filter_nil_not_elem_of _ _ x Hzero Hfile Hx). }
    assert (find (λ t, EditorTab.fileId t = FileNode.id file) (tabs s) = None) as Hfind1.
    { unfold find. destruct (list_find _ _) as [[k x]|] eqn:E; [|done].
      apply list_find_Some in E as (Hk & HP & _). rewrite Forall_forall in Hnone.
      destruct (Hnone x); [by eapply list_elem_of_lookup_2|done]. }
    assert (Forall (λ x, EditorTab.fileId x ≠ FileNode.id file)
              (EditorTab.with_isActive false <$> tabs s)) as Hnone'.
    { apply Forall_fmap. eapply Forall_impl; [exact Hnone|]. by intros x. }
    set (newTab := EditorTab.mk (newTabId now1) (FileNode.id file) (FileNode.name file)
                     (FileNode.path file) (or_empty c) (FileNode.extension file) false true).
    assert (fst (openFile s file (Resolved true (Some c)) now1)
            = mkSession ((EditorTab.with_isActive false <$> tabs s) ++ [newTab])
                (Some (newTabId now1)) (Some file)) as Hs1
      by (unfold openFile; by rewrite Hty, Hfind1).
    rewrite Hs1.
    assert (find (λ t, EditorTab.fileId t = FileNode.id file)
              ((EditorTab.with_isActive false <$> tabs s) ++ [newTab]) = Some newTab)
      as Hfind2.
    { unfold find. erewrite list_find_app_r; [|by apply list_find_None].
      simpl. by rewrite decide_True. }
    unfold openFile. rewrite Hty. simpl. rewrite Hfind2. simpl.
    exists newTab. split_and!; [|done|done].
    rewrite filter_app, (filter_none _ _ Hnone'). simpl.
    by rewrite filter_cons_True.
Qed.

Lemma openFile_twice_witness :
  let file := sampleFile "f1" "a.js" None in
  let s1 := fst (openFile emptySession file (fetched "x") 1000) in
  let r2 := openFile s1 file Rejected 2000 in
  FileNode.type file = FILE
  ∧ (tabsOn "f1" (fst r2) ≤ 1)%nat
  ∧ ∃ existing,
      find (λ t, EditorTab.fileId t = "f1") (tabs s1) = Some existing
      ∧ r2 = (mkSession (tabs s1) (Some (EditorTab.id existing)) (Some file), []).
Proof.
  simpl. split; [reflexivity|].
  pose proof (openFile_twice emptySession (sampleFile "f1" "a.js" None)
                (fetched "x") Rejected 1000 2000 eq_refl) as (Hcount & _ & Hsecond & _).
  split; [exact Hcount|].
  apply Hsecond. right. by eexists.
Defined.

(** C5 (defect in the code).  With the tabs of two files open, the second
    one active, two calls of [openFile] in a row on the first file find its
    tab, send no request, add no tab and move [activeTabId] to it, as the
    specification says; but neither call writes an [isActive] flag, so
    the tab is not marked active: its flag is still [false], the flag of
    the other tab is still [true], and the session invariant is broken.
    The branch of [openFile] that finds the tab calls [setActiveTabId]
    only, where the branch that creates a tab, and [setActiveTab], write
    the flags too. *)
Theorem openFile_twice_activates_by_id_only :
  let s := run (take 2 reopen_trace) in
  let file := sampleFile "f1" "a.js" None in
  let r1 := openFile s file Rejected 3000 in
  let r2 := openFile r1.1 file Rejected 4000 in
  session_invariant s
  ∧ r1.2 = [] ∧ r2.2 = []
  ∧ r2.1 =
      mkSession
        [EditorTab.mk "tab-1000" "f1" "a.js" "/a.js" "x" (Some ".js") false false;
         EditorTab.mk "tab-2000" "f2" "b.js" "/b.js" "y" (Some ".js") false true]
        (Some "tab-1000") (Some file)
  ∧ tabs r2.1 = tabs s
  ∧ EditorTab.isActive
      <$> find (λ x, EditorTab.fileId x = FileNode.id file) (tabs r2.1) = Some false
  ∧ ¬ session_invariant r2.1.
Proof.
  split_and!.
  - vm_compute. eexists. split; reflexivity.
  - vm_compute. reflexivity.
  - vm_compute. reflexivity.
  - vm_compute. reflexivity.
  - vm_compute. reflexivity.
  - vm_compute. reflexivity.
  - intros Hinv. vm_compute in Hinv. destruct Hinv as [t [Hflag Hid]].
    injection Hflag as <-. discriminate Hid.
Qed.

(** ** The dirty flag *)

Lemma restore_trace_reachable : reachable (wrun restore_trace).
Proof.
  unfold wrun, restore_trace. cbn [foldl].
  do 3 (apply reachable_step; [|try exact I]); [apply reachable_init|].
  vm_compute. apply not_elem_of_nil.
Qed.


Lemma fmap_id_with_isActive (b : bool) (l : list EditorTab.t) :
  EditorTab.id <$> (EditorTab.with_isActive b <$> l) = EditorTab.id <$> l.
Proof. rewrite <- list_fmap_compose. by apply list_fmap_ext. Qed.

Lemma fmap_fileId_with_isActive (b : bool) (l : list EditorTab.t) :
  EditorTab.fileId <$> (EditorTab.with_isActive b <$> l) = EditorTab.fileId <$> l.
Proof. rewrite <- list_fmap_compose. by apply list_fmap_ext. Qed.

Lemma observe_failed_open (net : FetchOutcome) (fileId : string) (store : gmap string string) :
  (∀ c, net ≠ Resolved true (Some c)) →
  foldr (observe net) store [FetchGET fileId; ConsoleError "Error opening file:"] = store.
Proof. intros Hfail. destruct net as [|[] [c|]]; simpl; try done. by destruct (Hfail c). Qed.

Lemma world_invariant_openFile (w : World) (file : FileNode.t) (net : FetchOutcome) (now : Z) :
  world_invariant w → fresh_clock (session w) (OpenFile file net now) →
  world_invariant (wstep w (OpenFile file net now)).
Proof.
  intros (Hids & Hfiles & Hclean) Hfresh. simpl in Hfresh.
  unfold world_invariant, clean_reconciled, wstep, openFile.
  destruct (FileNode.type file); [|done].
  destruct (find _ _) as [existing|] eqn:Hfind; [done|].
  apply find_None_inv in Hfind. rewrite Forall_forall in Hfind.
  destruct net as [|[] [c|]]; try done. simpl.
  rewrite !fmap_app, fmap_id_with_isActive, fmap_fileId_with_isActive. simpl.
  split_and!.
  - apply NoDup_app. split_and!; [done| |apply NoDup_singleton].
    intros x Hx ->%list_elem_of_singleton. done.
  - apply NoDup_app. split_and!; [done| |apply NoDup_singleton].
    intros x [t [-> Ht]]%list_elem_of_fmap Heq%list_elem_of_singleton.
    by apply (Hfind t).
  - intros t [[t0 [-> Ht0]]%list_elem_of_fmap| ->%list_elem_of_singleton]%elem_of_app;
      simpl; intros Hdirty.
    + rewrite lookup_insert_ne by (intros Heq; by apply (Hfind t0)).
      by apply Hclean.
    + by rewrite lookup_insert_eq.
Qed.

Lemma world_invariant_closeTab (w : World) (tabId : string) :
  world_invariant w → world_invariant (wstep w (CloseTab tabId)).
Proof.
  intros (Hids & Hfiles & Hclean). unfold wstep, step.
  destruct (closeTab (session w) tabId) as [s'|e] eqn:Hclose; [|done].
  assert (tabs s' = filter (λ x, EditorTab.id x ≠ tabId) (tabs (session w))) as Htabs.
  { unfold closeTab in Hclose.
    destruct (decide _); [destruct (index _ _)|destruct (decide _)]; by simplify_eq. }
  unfold world_invariant, clean_reconciled. simpl. rewrite Htabs. split_and!.
  - eapply sublist_NoDup; [exact Hids|]. apply fmap_sublist, sublist_filter.
  - eapply sublist_NoDup; [exact Hfiles|]. apply fmap_sublist, sublist_filter.
  - intros t [_ Ht]%list_elem_of_filter. by apply Hclean.
Qed.

Lemma world_invariant_setActiveTab (w : World) (tabId : string) :
  world_invariant w → world_invariant (wstep w (SetActiveTab tabId)).
Proof.
  intros (Hids & Hfiles & Hclean).
  unfold world_invariant, clean_reconciled, wstep, step, setActiveTab. simpl.
  rewrite <- !list_fmap_compose. split_and!; [done|done|].
  intros t' [t [-> Ht]]%list_elem_of_fmap. simpl. by apply Hclean.
Qed.

Lemma world_invariant_updateTabContent (w : World) (tabId content : string) :
  world_invariant w → world_invariant (wstep w (UpdateTabContent tabId content)).
Proof.
  intros (Hids & Hfiles & Hclean).
  unfold world_invariant, clean_reconciled, wstep, step, updateTabContent. simpl.
  rewrite <- !list_fmap_compose. split_and!.
  - erewrite list_fmap_ext; [exact Hids|]. intros _ x _. simpl. by case_decide.
  - erewrite list_fmap_ext; [exact Hfiles|]. intros _ x _. simpl. by case_decide.
  - intros t' [t [-> Ht]]%list_elem_of_fmap. case_decide; [done|]. by apply Hclean.
Qed.

Lemma world_invariant_saveFile (w : World) (tabId : string) (net : FetchOutcome) :
  world_invariant w → world_invariant (wstep w (SaveFile tabId net)).
Proof.
  intros (Hids & Hfiles & Hclean).
  unfold wstep, saveFile.
  destruct (find _ _) as [tab|] eqn:Hfind; [|done].
  apply find_Some_inv in Hfind as (i & _ & Hi & Hid).
  destruct (EditorTab.isDirty tab) eqn:Hdirty; [|done].
  destruct net as [|[] body]; [done| |done].
  unfold world_invariant, clean_reconciled. simpl.
  rewrite <- !list_fmap_compose. split_and!.
  - erewrite list_fmap_ext; [exact Hids|]. intros _ x _. simpl. by case_decide.
  - erewrite list_fmap_ext; [exact Hfiles|]. intros _ x _. simpl. by case_decide.
  - intros t' [t [-> Ht]]%list_elem_of_fmap.
    apply list_elem_of_lookup_1 in Ht as [j Hj].
    case_decide as Heq; simpl.
    + intros _.
      assert (i = j) as <-.
      { apply (NoDup_lookup (EditorTab.id <$> tabs (session w)) i j tabId); [done| |].
        - by rewrite list_lookup_fmap, Hi, <- Hid.
        - by rewrite list_lookup_fmap, Hj, <- Heq. }
      rewrite Hi in Hj. injection Hj as <-. by rewrite lookup_insert_eq.
    + intros Hcl. rewrite lookup_insert_ne.
      * apply Hclean; [by eapply list_elem_of_lookup_2|done].
      * intros Hsame. apply Heq. rewrite <- Hid. f_equal.
        assert (i = j) as <-; [|congruence].
        apply (NoDup_lookup (EditorTab.fileId <$> tabs (session w)) i j (EditorTab.fileId tab));
          [done| |].
        -- by rewrite list_lookup_fmap, Hi.
        -- by rewrite list_lookup_fmap, Hj, Hsame.
Qed.

Lemma reachable_world_invariant (w : World) : reachable w → world_invariant w.
Proof.
  induction 1 as [|w op _ IH Hfresh].
  - unfold world_invariant, clean_reconciled. simpl.
    split_and!; [apply NoDup_nil_2|apply NoDup_nil_2|]. by intros t ?%elem_of_nil.
  - destruct op.
    + by apply world_invariant_openFile.
    + by apply world_invariant_closeTab.
    + by apply world_invariant_setActiveTab.
    + by apply world_invariant_updateTabContent.
    + by apply world_invariant_saveFile.
Qed.



(** ** What holds of [activeTabId] *)

Lemma filter_fmap {A} (f : A → A) (P Q : A → Prop)
    `{∀ x, Decision (P x), ∀ x, Decision (Q x)} (l : list A) :
  (∀ x, P (f x) ↔ Q x) → filter P (f <$> l) = f <$> filter Q l.
Proof.
  intros Hiff. induction l as [|x l IH]; [done|].
  rewrite fmap_cons, !filter_cons. rewrite IH.
  destruct (decide (P (f x))) as [HP|HP], (decide (Q x)) as [HQ|HQ]; try done.
  - by apply Hiff in HP.
  - by apply Hiff in HQ.
Qed.

(** The operations that rewrite tabs in place, keeping their ids. *)
Lemma active_tab_invariant_fmap (s : Session) (f : EditorTab.t → EditorTab.t)
    (sel : option FileNode.t) :
  (∀ x, EditorTab.id (f x) = EditorTab.id x) →
  active_tab_invariant s →
  active_tab_invariant (mkSession (f <$> tabs s) (activeTabId s) sel).
Proof.
  intros Hid Hact. unfold active_tab_invariant in *. simpl.
  destruct (tabs s) as [|y l] eqn:E; [done|]. rewrite <- E in *.
  destruct (f <$> tabs s) as [|z l0] eqn:E'; [by rewrite E in E'|]. rewrite <- E'.
  destruct Hact as (t & Hin & Hactive). exists (f t).
  split; [by apply list_elem_of_fmap_2|]. by rewrite Hid.
Qed.

(** While [activeTabId] names an open tab, [closeTab] returns, whatever
    the id it is given and whether or not tab ids are distinct, and
    [activeTabId] names an open tab afterwards. *)
Lemma closeTab_returns (s : Session) (tabId : string) :
  active_tab_invariant s →
  ∃ s', closeTab s tabId = Ok s' ∧ active_tab_invariant s'.
Proof.
  intros Hact. unfold closeTab.
  remember (filter (λ t, EditorTab.id t ≠ tabId) (tabs s)) as newTabs eqn:Hnew.
  assert (∀ t, t ∈ tabs s → EditorTab.id t ≠ tabId → t ∈ newTabs) as Hkept
    by (intros t Hin Hne; rewrite Hnew; by apply list_elem_of_filter).
  assert (newTabs ≠ [] → ∃ t, t ∈ tabs s ∧ activeTabId s = Some (EditorTab.id t))
    as Hnamed.
  { intros Hne. unfold active_tab_invariant in Hact.
    destruct (tabs s) as [|y l]; [by rewrite Hnew in Hne|done]. }
  destruct (decide (activeTabId s = Some tabId ∧ (0 < length newTabs)%nat))
    as [[Heq Hpos]|Hno].
  - destruct Hnamed as (t & Hin & Hactive);
      [intros Hnil; rewrite Hnil in Hpos; simpl in Hpos; lia|].
    assert (EditorTab.id t = tabId) as Hid by congruence.
    unfold findIndex.
    destruct (list_find (λ x, EditorTab.id x = tabId) (tabs s)) as [[i x]|] eqn:Hfind.
    2:{ apply list_find_None in Hfind. rewrite Forall_forall in Hfind.
        by destruct (Hfind t Hin). }
    unfold index. rewrite decide_True by lia.
    destruct (lookup_lt_is_Some_2 newTabs
                (Z.to_nat (Z.of_nat i `min` (Z.of_nat (length newTabs) - 1))))
      as [t' Ht']; [lia|].
    rewrite Ht'. eexists. split; [done|]. unfold active_tab_invariant. simpl.
    destruct newTabs as [|z l'] eqn:E'; [simpl in Hpos; lia|]. rewrite <- E' in *.
    exists t'. split; [by eapply list_elem_of_lookup_2|done].
  - destruct (decide (length newTabs = 0%nat)) as [Hz|Hnz].
    + eexists. split; [done|]. apply length_zero_iff_nil in Hz.
      unfold active_tab_invariant. simpl. by rewrite Hz.
    + eexists. split; [done|]. unfold active_tab_invariant. simpl.
      destruct newTabs as [|z l'] eqn:E'; [done|]. rewrite <- E' in *.
      destruct Hnamed as (t & Hin & Hactive); [by rewrite E'|].
      exists t. split; [|done]. apply Hkept; [done|]. intros Hid. apply Hno.
      split; [congruence|rewrite E'; simpl; lia].
Qed.

(** Every operation the user interface issues returns and keeps
    [activeTabId] on an open tab. *)
Lemma active_tab_invariant_step (s : Session) (op : Op) :
  active_tab_invariant s → targets_open_tab s op →
  ∃ s', perform s op = Ok s' ∧ active_tab_invariant s'.
Proof.
  intros Hact Hop. destruct op as [file net now|tabId|tabId|tabId content|tabId net];
    simpl in *.
  - eexists. split; [done|]. unfold openFile. destruct (FileNode.type file); [|done].
    destruct (find _ _) as [existing|] eqn:Hfind; simpl.
    + apply find_Some_inv in Hfind as (j & _ & Hj & _).
      unfold active_tab_invariant. simpl.
      destruct (tabs s) as [|z l0] eqn:E; [done|]. rewrite <- E in *. exists existing.
      split; [by eapply list_elem_of_lookup_2|done].
    + destruct net as [|[] [c|]]; try done. simpl. unfold active_tab_invariant. simpl.
      match goal with
      | |- match ?l with _ => _ end => destruct l as [|z l0] eqn:E
      end; [by destruct (tabs s)|]. rewrite <- E. clear E.
      eexists. split; [apply elem_of_app; right; by left|done].
  - by apply closeTab_returns.
  - eexists. split; [done|].
    apply list_elem_of_fmap in Hop as (t & -> & Hin).
    unfold setActiveTab, active_tab_invariant. simpl.
    match goal with
    | |- match ?l with _ => _ end => destruct l as [|z l0] eqn:E
    end; [destruct (tabs s); [by apply elem_of_nil in Hin|done]|]. rewrite <- E. clear E.
    eexists. split; [by apply list_elem_of_fmap_2|done].
  - eexists. split; [done|]. apply (active_tab_invariant_fmap s); [|done].
    intros x. by case_decide.
  - eexists. split; [done|]. unfold saveFile. destruct (find _ _) as [tab|]; [|done].
    destruct (EditorTab.isDirty tab); [|done].
    destruct net as [|[] body]; [done| |done].
    apply (active_tab_invariant_fmap s); [|done]. intros x. by case_decide.
Qed.

(** As long as [setActiveTab] is given ids of open tabs, [activeTabId]
    is the id of an open tab, or is null when no tab is open.  The
    [isActive] flags are not part of this. *)
Lemma ui_reachable_active_tab (s : Session) :
  ui_reachable s → active_tab_invariant s.
Proof.
  induction 1 as [|s op s' _ IH Hop Hperform]; [done|].
  destruct (active_tab_invariant_step s op IH Hop) as (s'' & Hsame & Hact). congruence.
Qed.

(** * Properties of the tree builder *)

(** ** Sorting *)

Section js_sort_facts.
Context {A : Type} (cmp : A → A → Z).

Lemma insert_sorted_perm (x : A) (l : list A) : insert_sorted cmp x l ≡ₚ x :: l.
Proof.
  induction l as [|y l IH]; simpl; [done|].
  case_decide; [|done]. rewrite IH. apply perm_swap.
Qed.

Lemma js_sort_perm (l : list A) : js_sort cmp l ≡ₚ l.
Proof.
  induction l as [|x l IH]; simpl; [done|].
  rewrite insert_sorted_perm. by rewrite IH.
Qed.

Lemma js_sort_length (l : list A) : length (js_sort cmp l) = length l.
Proof. by rewrite js_sort_perm. Qed.

(** A consistent comparator: a total preorder given by signs. *)
Hypothesis cmp_total : ∀ x y, 0 < cmp x y → cmp y x ≤ 0.
Hypothesis cmp_trans : ∀ x y z, cmp x y ≤ 0 → cmp y z ≤ 0 → cmp x z ≤ 0.

Lemma insert_sorted_sorted (x : A) (l : list A) :
  StronglySorted (λ a b, cmp a b ≤ 0) l →
  StronglySorted (λ a b, cmp a b ≤ 0) (insert_sorted cmp x l).
Proof.
  induction 1 as [|y l Hsorted IH Hall]; simpl.
  - repeat constructor.
  - case_decide as Hgt.
    + constructor; [done|].
      rewrite insert_sorted_perm. constructor; [by apply cmp_total|done].
    + constructor; [by constructor|].
      constructor; [lia|].
      eapply Forall_impl; [exact Hall|]. intros z Hz. simpl in Hz.
      apply (cmp_trans x y z); [lia|done].
Qed.

Lemma js_sort_sorted (l : list A) :
  StronglySorted (λ a b, cmp a b ≤ 0) (js_sort cmp l).
Proof.
  induction l as [|x l IH]; simpl; [constructor|].
  by apply insert_sorted_sorted.
Qed.
End js_sort_facts.

Lemma StronglySorted_fmap_impl {A B} (R : relation A) (S : relation B) (f : A → B)
    (l : list A) :
  StronglySorted R l → (∀ x y, R x y → S (f x) (f y)) → StronglySorted S (f <$> l).
Proof.
  intros Hsorted Himpl. induction Hsorted as [|x l _ IH Hall]; [constructor|].
  rewrite fmap_cons. constructor; [done|].
  apply Forall_fmap. eapply Forall_impl; [exact Hall|]. intros y. apply Himpl.
Qed.

(** The comparator of [sortNodes] decides the sibling order, and is
    consistent whenever the host collation is. *)
Section comparator.
Context (localeCompare : string → string → Z).

Lemma compareNodes_sibling_le (a b : FileNode.t) :
  compareNodes localeCompare a b ≤ 0 ↔ sibling_le (collation_le localeCompare) a b.
Proof.
  unfold compareNodes, sibling_le, collation_le. case_decide as Hne.
  - case_decide as Hfolder.
    + split; [|lia]. intros _. left. split; [done|].
      destruct (FileNode.type b); congruence.
    + split; [lia|]. intros [[? ?]|[? ?]]; congruence.
  - split.
    + intros Hle. by right.
    + intros [[? ?]|[_ ?]]; [congruence|done].
Qed.

Hypothesis localeCompare_total : ∀ a b, 0 < localeCompare a b → localeCompare b a ≤ 0.
Hypothesis localeCompare_trans :
  ∀ a b c, localeCompare a b ≤ 0 → localeCompare b c ≤ 0 → localeCompare a c ≤ 0.

Lemma compareNodes_total (a b : FileNode.t) :
  0 < compareNodes localeCompare a b → compareNodes localeCompare b a ≤ 0.
Proof.
  unfold compareNodes.
  destruct (FileNode.type a), (FileNode.type b);
    repeat case_decide; try done; try lia; apply localeCompare_total.
Qed.

Lemma compareNodes_trans (a b c : FileNode.t) :
  compareNodes localeCompare a b ≤ 0 → compareNodes localeCompare b c ≤ 0 →
  compareNodes localeCompare a c ≤ 0.
Proof.
  unfold compareNodes.
  destruct (FileNode.type a), (FileNode.type b), (FileNode.type c);
    repeat case_decide; try done; try lia; apply localeCompare_trans.
Qed.
End comparator.

(** ** Stores *)

#[local] Instance obj_equiv_refl : Reflexive obj_equiv.
Proof. intros o. split; [done|]. destruct (children o); by constructor. Qed.

#[local] Instance obj_equiv_trans : Transitive obj_equiv.
Proof.
  intros o1 o2 o3 [Hf12 Hc12] [Hf23 Hc23]. split; [congruence|].
  destruct Hc12; inversion Hc23; simplify_eq; constructor. by etrans.
Qed.

#[local] Instance evolves_refl : Reflexive evolves.
Proof. intros st. split; [done|]. by apply Forall_Forall2_diag, Forall_true. Qed.

#[local] Instance evolves_trans : Transitive evolves.
Proof.
  intros st1 st2 st3 [Hi12 Ha12] [Hi23 Ha23]. split; [congruence|].
  revert Ha23. generalize (arena st3).
  induction Ha12 as [|o1 o2 l1 l2 Ho _ IH]; intros l3 Ha23; inversion Ha23; simplify_eq.
  - constructor.
  - constructor; [by etrans|by apply IH].
Qed.

Lemma evolves_length (st st' : Store) :
  evolves st st' → length (arena st') = length (arena st).
Proof. intros [_ Ha]. symmetry. by eapply Forall2_length. Qed.

Lemma evolves_is_fresh (st st' : Store) (r : ref) :
  evolves st st' → is_fresh st r → is_fresh st' r.
Proof.
  intros Hev (k & -> & Hk). exists k. split; [done|]. by rewrite (evolves_length st st').
Qed.

Lemma evolves_lookup (st st' : Store) (k : nat) (o : Obj) :
  evolves st st' → arena st !! k = Some o →
  ∃ o', arena st' !! k = Some o' ∧ obj_equiv o o'.
Proof. intros [_ Ha] Hk. by eapply Forall2_lookup_l. Qed.

Lemma evolves_lookup_r (st st' : Store) (k : nat) (o' : Obj) :
  evolves st st' → arena st' !! k = Some o' →
  ∃ o, arena st !! k = Some o ∧ obj_equiv o o'.
Proof. intros [_ Ha] Hk. by eapply Forall2_lookup_r. Qed.

Lemma obj_equiv_children_r (o o' : Obj) (cs' : list ref) :
  obj_equiv o o' → children o' = Some cs' →
  ∃ cs, children o = Some cs ∧ cs ≡ₚ cs'.
Proof.
  intros [_ Hc] Hcs. rewrite Hcs in Hc. inversion Hc; simplify_eq. by eexists.
Qed.

Lemma obj_equiv_children_l (o o' : Obj) (cs : list ref) :
  obj_equiv o o' → children o = Some cs →
  ∃ cs', children o' = Some cs' ∧ cs ≡ₚ cs'.
Proof.
  intros [_ Hc] Hcs. rewrite Hcs in Hc. inversion Hc; simplify_eq. by eexists.
Qed.

Lemma evolves_closed (st st' : Store) :
  evolves st st' → closed st → closed st'.
Proof.
  intros Hev Hclosed k o' cs' Hk Hcs'.
  destruct (evolves_lookup_r _ _ _ _ Hev Hk) as (o & Ho & Heq).
  destruct (obj_equiv_children_r _ _ _ Heq Hcs') as (cs & Hcs & Hperm).
  rewrite <- Hperm. eapply Forall_impl; [by eapply Hclosed|].
  intros r. by apply evolves_is_fresh.
Qed.

(** An in-place sort of the children of a created object. *)
Lemma set_children_evolves (st : Store) (k : nat) (o : Obj) (cs cs' : list ref) :
  arena st !! k = Some o → children o = Some cs → cs ≡ₚ cs' →
  evolves st (update (set_children cs') (Fresh k) st).
Proof.
  intros Hk Hcs Hperm. split; [done|]. simpl.
  apply Forall2_alter_r; [by apply Forall_Forall2_diag, Forall_true|].
  intros x y Hx Hy _. simplify_eq. split; [done|]. simpl. rewrite Hcs. by constructor.
Qed.

(** ** The traversal, one array at a time *)

Section map_nodes_facts.
Context (R : relation Store) `{!Reflexive R, !Transitive R}.
Context (visit : Store → ref → option (Store * Node)).

Lemma map_nodes_inv (st : Store) (nodes : list ref) (st' : Store) (out : list Node) :
  (∀ st_a r st_b n, R st st_a → r ∈ nodes → visit st_a r = Some (st_b, n) → R st_a st_b) →
  map_nodes visit st nodes = Some (st', out) →
  R st st'
  ∧ Forall2 (λ r n, ∃ st_a st_b, R st st_a ∧ visit st_a r = Some (st_b, n)) nodes out.
Proof.
  revert st out. induction nodes as [|r rest IH]; intros st out Hvisit Hmap; simpl in Hmap.
  - simplify_eq. split; [done|constructor].
  - destruct (visit st r) as [[st1 n]|] eqn:Hr; [|done]. simpl in Hmap.
    destruct (map_nodes visit st1 rest) as [[st2 ns]|] eqn:Hrest; [|done].
    simpl in Hmap. simplify_eq.
    assert (R st st1) as H01 by (eapply Hvisit; [done|by left|done]).
    destruct (IH st1 ns) as [H12 Hall]; [|done|].
    { intros st_a r' st_b n' Ha Hin. apply Hvisit; [by etrans|by right]. }
    split; [by etrans|]. constructor; [by exists st, st1|].
    eapply Forall2_impl; [exact Hall|].
    intros r' n' (st_a & st_b & Ha & Hv). exists st_a, st_b. split; [by etrans|done].
Qed.

Lemma map_nodes_total (st : Store) (nodes : list ref) :
  (∀ st_a r, R st st_a → r ∈ nodes →
     ∃ st_b n, visit st_a r = Some (st_b, n) ∧ R st_a st_b) →
  is_Some (map_nodes visit st nodes).
Proof.
  revert st. induction nodes as [|r rest IH]; intros st Hvisit; simpl; [by eexists|].
  destruct (Hvisit st r) as (st1 & n & -> & H01); [done|by left|]. simpl.
  destruct (IH st1) as [[st2 ns] ->]; [|by eexists].
  intros st_a r' Ha Hin. apply Hvisit; [by etrans|by right].
Qed.
End map_nodes_facts.

Section traversal.
Context (localeCompare : string → string → Z).

Lemma sorted_refs_perm (nodes : list ref) (objs : list Obj) :
  length nodes = length objs → sorted_refs localeCompare nodes objs ≡ₚ nodes.
Proof.
  intros Hlen. unfold sorted_refs. rewrite js_sort_perm. by rewrite fst_zip by lia.
Qed.

(** [sortNodes] changes nothing but the order of children. *)
Lemma sortNodes_evolves (fuel : nat) (st : Store) (owner : option ref) (nodes : list ref)
    (st' : Store) (out : list Node) :
  call_ok st owner nodes →
  sortNodes localeCompare fuel st owner nodes = Some (st', out) →
  evolves st st'.
Proof.
  revert st owner nodes st' out.
  induction fuel as [|fuel IH]; intros st owner nodes st' out (Hclosed & Hnodes & Howner) Hrun;
    [done|].
  simpl in Hrun. destruct (mapM (deref st) nodes) as [objs|] eqn:Hobjs; [|done].
  simpl in Hrun.
  pose proof (sorted_refs_perm nodes objs (length_mapM _ _ _ Hobjs)) as Hperm.
  set (sorted := sorted_refs localeCompare nodes objs) in *.
  set (st1 := from_option (λ r, update (set_children sorted) r st) st owner) in *.
  assert (evolves st st1) as H01.
  { unfold st1. destruct owner as [r|]; [|done]. simpl.
    destruct (Howner r eq_refl) as ((k & -> & _) & o & Hk & Hcs).
    by eapply set_children_evolves. }
  etrans; [exact H01|].
  eapply (map_nodes_inv evolves); [|exact Hrun].
  intros st_a r st_b n H1a Hin Hvisit. simpl in Hvisit.
  destruct (deref st_a r) as [o|] eqn:Hr; [|done]. simpl in Hvisit.
  destruct (children o) as [cs|] eqn:Hcs; [|by simplify_eq].
  destruct (sortNodes localeCompare fuel st_a (Some r) cs) as [[st2 ns]|] eqn:Hrec; [|done].
  simpl in Hvisit. simplify_eq.
  assert (evolves st st_a) as H0a by by etrans.
  assert (is_fresh st_a r) as Hfresh.
  { apply (evolves_is_fresh st); [done|].
    rewrite Forall_forall in Hnodes. apply Hnodes. by rewrite <- Hperm. }
  eapply IH; [|exact Hrec]. split_and!.
  - by eapply evolves_closed.
  - destruct Hfresh as (k & -> & _). eapply (evolves_closed st st_a); done.
  - intros r' [= <-]. split; [done|by exists o].
Qed.
(** One level of [sortNodes]: the output lists, in sorted order, a copy
    of each object of [nodes]; a copy has kids exactly when the object has
    a [children] array, and the kids are what [sortNodes] returns on it. *)
Lemma sortNodes_unfold (fuel : nat) (st : Store) (owner : option ref) (nodes : list ref)
    (st' : Store) (out : list Node) :
  call_ok st owner nodes →
  sortNodes localeCompare (S fuel) st owner nodes = Some (st', out) →
  ∃ objs, mapM (deref st) nodes = Some objs ∧
    Forall2
      (λ p n, ∃ st_a o,
         evolves st st_a ∧ deref st_a p.1 = Some o
         ∧ deref st p.1 = Some p.2 ∧ fields o = fields p.2 ∧ record_of n = fields p.2
         ∧ match children o with
           | None => kids_of n = None
           | Some cs =>
               ∃ st_b ks, kids_of n = Some ks
                 ∧ call_ok st_a (Some p.1) cs
                 ∧ sortNodes localeCompare fuel st_a (Some p.1) cs = Some (st_b, ks)
           end)
      (js_sort (comparePairs localeCompare) (zip nodes objs)) out.
Proof.
  intros (Hclosed & Hnodes & Howner) Hrun.
  simpl in Hrun. destruct (mapM (deref st) nodes) as [objs|] eqn:Hobjs; [|done].
  simpl in Hrun. exists objs. split; [done|].
  pose proof (length_mapM _ _ _ Hobjs) as Hlen.
  pose proof (sorted_refs_perm nodes objs Hlen) as Hperm.
  unfold sorted_refs in Hrun, Hperm.
  set (ps := js_sort (comparePairs localeCompare) (zip nodes objs)) in *.
  set (st1 := from_option (λ r, update (set_children ps.*1) r st) st owner) in *.
  assert (evolves st st1) as H01.
  { unfold st1. destruct owner as [r|]; [|done]. simpl.
    destruct (Howner r eq_refl) as ((k & -> & _) & o & Hk & Hcs).
    by eapply set_children_evolves. }
  assert (∀ p, p ∈ ps → deref st p.1 = Some p.2 ∧ is_fresh st p.1) as Hps.
  { intros p Hp. unfold ps in Hp. rewrite js_sort_perm in Hp.
    apply list_elem_of_lookup_1 in Hp as [i Hi].
    apply lookup_zip_with_Some in Hi as (r & o & -> & Hr & Ho). simpl.
    apply mapM_Some_1 in Hobjs. split.
    - exact (Forall2_lookup_lr (λ x y, deref st x = Some y) nodes objs i r o Hobjs Hr Ho).
    - rewrite Forall_forall in Hnodes. apply Hnodes. by eapply list_elem_of_lookup_2. }
  assert (∀ st_a r st_b n, evolves st1 st_a → r ∈ ps.*1 →
            (o ← deref st_a r;
             match children o with
             | Some cs =>
                 '(st2, ns) ← sortNodes localeCompare fuel st_a (Some r) cs;
                 Some (st2, mkNode (fields o) (Some ns))
             | None => Some (st_a, mkNode (fields o) None)
             end) = Some (st_b, n) →
            ∃ o, deref st_a r = Some o ∧ record_of n = fields o
              ∧ match children o with
                | None => kids_of n = None ∧ st_b = st_a
                | Some cs =>
                    ∃ ks, kids_of n = Some ks
                      ∧ call_ok st_a (Some r) cs
                      ∧ sortNodes localeCompare fuel st_a (Some r) cs = Some (st_b, ks)
                end) as Hvisit.
  { intros st_a r st_b n H1a Hin Hv.
    destruct (deref st_a r) as [o|] eqn:Hr; [|done]. simpl in Hv.
    exists o. split; [done|].
    destruct (children o) as [cs|] eqn:Hcs; [|by simplify_eq].
    destruct (sortNodes localeCompare fuel st_a (Some r) cs) as [[st2 ns]|] eqn:Hrec; [|done].
    simpl in Hv. simplify_eq. split; [done|]. exists ns. split; [done|]. split; [|done].
    assert (evolves st st_a) as H0a by by etrans.
    assert (is_fresh st_a r) as Hfresh.
    { apply (evolves_is_fresh st); [done|].
      rewrite Forall_forall in Hnodes. apply Hnodes. by rewrite <- Hperm. }
    split_and!.
    - by eapply evolves_closed.
    - destruct Hfresh as (k & -> & _). eapply (evolves_closed st st_a); done.
    - intros r' [= <-]. split; [done|by exists o]. }
  assert (evolves st1 st' ∧
          Forall2 (λ r n, ∃ st_a st_b, evolves st1 st_a ∧
                     (o ← deref st_a r;
                      match children o with
                      | Some cs =>
                          '(st2, ns) ← sortNodes localeCompare fuel st_a (Some r) cs;
                          Some (st2, mkNode (fields o) (Some ns))
                      | None => Some (st_a, mkNode (fields o) None)
                      end) = Some (st_b, n)) ps.*1 out) as [_ Hall].
  { eapply (map_nodes_inv evolves); [|exact Hrun].
    intros st_a r st_b n H1a Hin Hv.
    destruct (Hvisit st_a r st_b n H1a Hin Hv) as (o & _ & _ & Hk).
    destruct (children o) as [cs|].
    - destruct Hk as (ks & _ & Hok & Hrec). by eapply sortNodes_evolves.
    - by destruct Hk as [_ ->]. }
  apply Forall2_fmap_l in Hall.
  apply Forall2_same_length_lookup. apply Forall2_same_length_lookup in Hall as [Hlen' Hall].
  split; [done|]. intros i p n Hp Hn.
  destruct (Hall i p n Hp Hn) as (st_a & st_b & H1a & Hv).
  destruct (Hps p) as [Hderef Hfresh]; [by eapply list_elem_of_lookup_2|].
  destruct (Hvisit st_a p.1 st_b n H1a) as (o & Ho & Hrec & Hkids); [|done|].
  { apply list_elem_of_fmap. exists p. split; [done|]. by eapply list_elem_of_lookup_2. }
  assert (evolves st st_a) as H0a by by etrans.
  exists st_a, o. split_and!; try done.
  - destruct Hfresh as (k & Hk & _). rewrite Hk in Hderef, Ho. simpl in Hderef, Ho.
    destruct (evolves_lookup _ _ _ _ H0a Hderef) as (o' & Ho' & [Hf _]). congruence.
  - destruct Hfresh as (k & Hk & _). rewrite Hk in Hderef, Ho. simpl in Hderef, Ho.
    destruct (evolves_lookup _ _ _ _ H0a Hderef) as (o' & Ho' & [Hf _]). congruence.
  - destruct (children o) as [cs|].
    + destruct Hkids as (ks & ? & ? & ?). by exists st_b, ks.
    + by destruct Hkids.
Qed.
(** The records of the output are those of the sorted objects. *)
Lemma sortNodes_records (fuel : nat) (st : Store) (owner : option ref) (nodes : list ref)
    (st' : Store) (out : list Node) :
  call_ok st owner nodes →
  sortNodes localeCompare fuel st owner nodes = Some (st', out) →
  ∃ objs, mapM (deref st) nodes = Some objs
    ∧ record_of <$> out
      = (λ p, fields p.2) <$> js_sort (comparePairs localeCompare) (zip nodes objs).
Proof.
  intros Hok Hrun. destruct fuel as [|fuel]; [done|].
  destruct (sortNodes_unfold fuel st owner nodes st' out Hok Hrun) as (objs & Hobjs & Hall).
  exists objs. split; [done|].
  apply list_eq_Forall2, Forall2_fmap, Forall2_flip.
  eapply Forall2_impl; [exact Hall|].
  intros p n (st_a & o & _ & _ & _ & _ & Hrec & _). done.
Qed.

(** The roots of the output are copies of the objects of [nodes], each
    once, in some order. *)
Lemma sortNodes_roots_perm (fuel : nat) (st : Store) (owner : option ref) (nodes : list ref)
    (st' : Store) (out : list Node) :
  call_ok st owner nodes →
  sortNodes localeCompare fuel st owner nodes = Some (st', out) →
  ∃ objs, mapM (deref st) nodes = Some objs ∧ record_of <$> out ≡ₚ fields <$> objs.
Proof.
  intros Hok Hrun.
  destruct (sortNodes_records fuel st owner nodes st' out Hok Hrun) as (objs & Hobjs & ->).
  exists objs. split; [done|].
  rewrite js_sort_perm.
  transitivity (fields <$> (zip nodes objs).*2); [by rewrite <- list_fmap_compose|].
  by rewrite snd_zip by (rewrite (length_mapM _ _ _ Hobjs); lia).
Qed.

Section sortedness.
Context (name_le : relation string).
Hypothesis localeCompare_total : ∀ a b, 0 < localeCompare a b → localeCompare b a ≤ 0.
Hypothesis localeCompare_trans :
  ∀ a b c, localeCompare a b ≤ 0 → localeCompare b c ≤ 0 → localeCompare a c ≤ 0.
Hypothesis localeCompare_refines : ∀ a b, localeCompare a b ≤ 0 → name_le a b.

Lemma sortNodes_level_sorted (fuel : nat) (st : Store) (owner : option ref)
    (nodes : list ref) (st' : Store) (out : list Node) :
  call_ok st owner nodes →
  sortNodes localeCompare fuel st owner nodes = Some (st', out) →
  siblings_sorted name_le out.
Proof.
  intros Hok Hrun.
  destruct (sortNodes_records fuel st owner nodes st' out Hok Hrun) as (objs & _ & Hrec).
  unfold siblings_sorted. rewrite Hrec.
  pose proof (js_sort_sorted (comparePairs localeCompare)
                (λ x y, compareNodes_total localeCompare localeCompare_total _ _)
                (λ x y z, compareNodes_trans localeCompare localeCompare_trans _ _ _)
                (zip nodes objs)) as Hsorted.
  eapply StronglySorted_fmap_impl; [exact Hsorted|].
  intros x y Hxy. apply compareNodes_sibling_le in Hxy.
  destruct Hxy as [?|[? Hle]]; [by left|right]. split; [done|].
  by apply localeCompare_refines.
Qed.

(** Every sibling set of the output is in sibling order. *)
Lemma sortNodes_sorted (fuel : nat) (st : Store) (owner : option ref)
    (nodes : list ref) (st' : Store) (out : list Node) :
  call_ok st owner nodes →
  sortNodes localeCompare fuel st owner nodes = Some (st', out) →
  every_sibling_set (siblings_sorted name_le) out.
Proof.
  revert st owner nodes st' out.
  induction fuel as [|fuel IH]; intros st owner nodes st' out Hok Hrun; [done|].
  constructor; [by eapply sortNodes_level_sorted|].
  destruct (sortNodes_unfold fuel st owner nodes st' out Hok Hrun) as (objs & _ & Hall).
  apply Forall_forall. intros n [i Hi]%list_elem_of_lookup_1 ks Hks.
  destruct (Forall2_lookup_r _ _ _ _ _ Hall Hi)
    as (p & _ & st_a & o & _ & _ & _ & _ & _ & Hkids).
  destruct (children o) as [cs|]; [|congruence].
  destruct Hkids as (st_b & ks' & Hks' & Hok' & Hrec). simplify_eq. by eapply IH.
Qed.
End sortedness.
End traversal.

(** ** The two loops *)

(** The first loop creates one object per record, in order, and maps every
    id of [files] to the object created for a record with that id. *)
Lemma index_files_spec (st0 : Store) (m0 : gmap string ref) (files : list FileNode.t) :
  let acc := foldl index_file (st0, m0) files in
  input acc.1 = input st0
  ∧ arena acc.1 = arena st0 ++ (create_node <$> files)
  ∧ (∀ key r, acc.2 !! key = Some r →
       m0 !! key = Some r
       ∨ ∃ i f, files !! i = Some f ∧ FileNode.id f = key
                ∧ r = Fresh (length (arena st0) + i))
  ∧ (∀ f, f ∈ files → is_Some (acc.2 !! FileNode.id f)).
Proof.
  induction files as [|x fs IH] using rev_ind; simpl.
  - split_and!; [done|by rewrite app_nil_r|by left|by intros f ?%elem_of_nil].
  - rewrite foldl_snoc. destruct IH as (Hin & Har & Hmap & Hall).
    set (acc := foldl index_file (st0, m0) fs) in *. simpl. split_and!.
    + done.
    + by rewrite Har, fmap_app, app_assoc.
    + intros key r Hkey.
      destruct (decide (FileNode.id x = key)) as [<-|Hne].
      * rewrite lookup_insert_eq in Hkey. injection Hkey as <-. right.
        exists (length fs), x. split_and!; [|done|].
        -- by rewrite lookup_app_r, Nat.sub_diag by lia.
        -- by rewrite Har, length_app, length_fmap.
      * rewrite lookup_insert_ne in Hkey by done.
        destruct (Hmap key r Hkey) as [?|(i & f & Hi & Hid & ->)]; [by left|right].
        exists i, f. split_and!; [|done|done].
        by apply lookup_app_l_Some.
    + intros f [Hf| ->%list_elem_of_singleton]%elem_of_app.
      * destruct (decide (FileNode.id x = FileNode.id f)) as [->|Hne].
        -- rewrite lookup_insert_eq. by eexists.
        -- rewrite lookup_insert_ne by done. by apply Hall.
      * rewrite lookup_insert_eq. by eexists.
Qed.

Lemma index_of_Some (files : list FileNode.t) (key : string) (i : nat) :
  index_of files key = Some i →
  ∃ f, files !! i = Some f ∧ FileNode.id f = key.
Proof.
  unfold index_of. destruct (list_find _ _) as [[j f]|] eqn:Hfind; [|done].
  intros [= <-]. exists f. apply list_find_Some in Hfind. tauto.
Qed.

Lemma index_of_unique (files : list FileNode.t) (i : nat) (f : FileNode.t) :
  NoDup (FileNode.id <$> files) → files !! i = Some f →
  index_of files (FileNode.id f) = Some i.
Proof.
  intros Hnd Hi. unfold index_of.
  by rewrite (list_find_key FileNode.id _ _ _ Hnd Hi).
Qed.

(** With distinct ids, [nodeMap] sends an id to the object created for
    the one record that has it. *)
Lemma index_files_unique (inp : list Obj) (files : list FileNode.t) (key : string) :
  NoDup (FileNode.id <$> files) →
  (foldl index_file (mkStore inp [], ∅) files).2 !! key = Fresh <$> index_of files key.
Proof.
  intros Hnd.
  destruct (index_files_spec (mkStore inp []) ∅ files) as (_ & _ & Hmap & Hall).
  simpl in *.
  destruct (_ !! key) as [r|] eqn:Hkey.
  - destruct (Hmap key r Hkey) as [Hempty|(i & f & Hi & <- & ->)]; [by simplify_map_eq|].
    by rewrite (index_of_unique files i f).
  - destruct (index_of files key) as [i|] eqn:Hidx; [|done].
    apply index_of_Some in Hidx as (f & Hi & <-).
    destruct (Hall f) as [r Hr]; [by eapply list_elem_of_lookup_2|]. congruence.
Qed.

Lemma is_fresh_length (st st' : Store) (r : ref) :
  length (arena st') = length (arena st) → is_fresh st r → is_fresh st' r.
Proof. intros Hlen (k & -> & Hk). exists k. split; [done|lia]. Qed.

(** Pushing a created object into the children of a created object keeps
    the store closed. *)
Lemma push_child_closed (st : Store) (node parent : ref) :
  closed st → is_fresh st node → is_fresh st parent →
  let st' := update (push_child node) parent st in
  input st' = input st
  ∧ length (arena st') = length (arena st)
  ∧ fields <$> arena st' = fields <$> arena st
  ∧ closed st'.
Proof.
  intros Hclosed Hnode (j & -> & Hj). simpl.
  assert (length (alter (push_child node) j (arena st)) = length (arena st)) as Hlen
    by apply length_alter.
  split_and!; [done|done| |].
  - apply list_eq. intros i. rewrite !list_lookup_fmap.
    destruct (decide (j = i)) as [<-|Hne].
    + rewrite list_lookup_alter_eq. destruct (arena st !! j) as [o|]; [|done].
      simpl. unfold push_child. by destruct (children o).
    + by rewrite list_lookup_alter_ne.
  - intros i o cs Hi Hcs. simpl in Hi.
    assert (Forall (is_fresh st) cs) as Hall.
    { destruct (decide (j = i)) as [<-|Hne].
      - rewrite list_lookup_alter_eq in Hi.
        destruct (arena st !! j) as [o0|] eqn:Hj0; [|done]. simpl in Hi. simplify_eq.
        unfold push_child in Hcs. destruct (children o0) as [cs0|] eqn:Hcs0; [|congruence].
        simpl in Hcs. simplify_eq. apply Forall_app. split; [by eapply Hclosed|].
        by apply Forall_singleton.
      - rewrite list_lookup_alter_ne in Hi by done. by eapply Hclosed. }
    eapply Forall_impl; [exact Hall|]. intros r. by apply is_fresh_length.
Qed.

(** The second loop, for any [files]: it touches created objects only and
    leaves a closed store and an array of created objects. *)
Lemma attach_files_closed (nodeMap : gmap string ref) (files : list FileNode.t)
    (st0 : Store) (roots0 : list ref) :
  (∀ key r, nodeMap !! key = Some r → is_fresh st0 r) →
  closed st0 → Forall (is_fresh st0) roots0 →
  let acc := foldl (attach nodeMap) (st0, roots0) files in
  input acc.1 = input st0
  ∧ length (arena acc.1) = length (arena st0)
  ∧ fields <$> arena acc.1 = fields <$> arena st0
  ∧ closed acc.1
  ∧ Forall (is_fresh acc.1) acc.2.
Proof.
  intros Hmap Hclosed Hroots.
  induction files as [|x fs IH] using rev_ind; simpl; [done|].
  rewrite foldl_snoc. destruct IH as (Hin & Hlen & Hfields & Hcl & Hrs).
  set (acc := foldl (attach nodeMap) (st0, roots0) fs) in *.
  unfold attach. destruct (nodeMap !! FileNode.id x) as [node|] eqn:Hnode; [|done].
  assert (is_fresh acc.1 node) as Hfresh
    by (apply (is_fresh_length st0); [done|by eapply Hmap]).
  destruct (truthy (FileNode.parentId x) ≫= (nodeMap !!.)) as [parent|] eqn:Hparent; simpl.
  - assert (is_fresh acc.1 parent) as Hpfresh.
    { apply (is_fresh_length st0); [done|].
      destruct (truthy (FileNode.parentId x)) as [pid|]; [|done]. by eapply Hmap. }
    destruct (push_child_closed acc.1 node parent Hcl Hfresh Hpfresh)
      as (Hin' & Hlen' & Hfields' & Hcl').
    split_and!; [congruence|congruence|congruence|done|].
    eapply Forall_impl; [exact Hrs|]. intros r. by apply is_fresh_length.
  - split_and!; [done|done|done|done|].
    apply Forall_app. split; [done|by apply Forall_singleton].
Qed.

Lemma create_node_closed (inp : list Obj) (files : list FileNode.t) :
  closed (mkStore inp (create_node <$> files)).
Proof.
  intros k o cs Hk Hcs. simpl in Hk. rewrite list_lookup_fmap in Hk.
  destruct (files !! k) as [f|]; [|done]. simpl in Hk. simplify_eq.
  unfold create_node in Hcs. simpl in Hcs. destruct (FileNode.type f); [done|].
  simplify_eq. constructor.
Qed.

(** What [buildTree] hands to [sortNodes]. *)
Lemma prepared_call_ok (files : list Obj) :
  input (prepared files).1 = files
  ∧ fields <$> arena (prepared files).1 = fields <$> files
  ∧ call_ok (prepared files).1 None (prepared files).2.
Proof.
  unfold prepared. simpl.
  destruct (index_files_spec (mkStore files []) ∅ (fields <$> files))
    as (Hin & Har & Hmap & _).
  simpl in *.
  set (indexed := foldl index_file (mkStore files [], ∅) (fields <$> files)) in *.
  assert (indexed.1 = mkStore files (create_node <$> (fields <$> files))) as Hst
    by (destruct indexed as [[i a] m]; simpl in *; congruence).
  destruct (attach_files_closed indexed.2 (fields <$> files) indexed.1 [])
    as (Hin' & Hlen' & Hfields' & Hcl & Hrs).
  - intros key r Hkey. destruct (Hmap key r Hkey) as [?|(i & f & Hi & _ & ->)];
      [by simplify_map_eq|].
    exists i. split; [done|]. rewrite Har, length_fmap. by eapply lookup_lt_Some.
  - rewrite Hst. apply create_node_closed.
  - constructor.
  - split_and!.
    + congruence.
    + rewrite Hfields', Har. rewrite <- list_fmap_compose. by apply list_fmap_id.
    + split_and!; [done|done|]. by intros r [=].
Qed.

(** ** The second loop on records with distinct ids *)

Lemma placed_below_S (files : list FileNode.t) (k : nat) (x : FileNode.t) (p : Placement) :
  files !! k = Some x →
  placed_below files (S k) p
  = placed_below files k p ++ (if decide (placement files x = p) then [k] else []).
Proof.
  intros Hk. unfold placed_below. rewrite seq_S, filter_app. f_equal. simpl.
  rewrite filter_singleton by exact []. rewrite Hk. simpl.
  repeat case_decide; simplify_eq; done.
Qed.

Lemma attach_files_unique (inp : list Obj) (files : list FileNode.t) (k : nat) :
  NoDup (FileNode.id <$> files) → (k ≤ length files)%nat →
  let nodeMap := (foldl index_file (mkStore inp [], ∅) files).2 in
  let acc := foldl (attach nodeMap) (mkStore inp (create_node <$> files), []) (take k files) in
  input acc.1 = inp
  ∧ length (arena acc.1) = length files
  ∧ (∀ j f, files !! j = Some f → arena acc.1 !! j = Some (attached_below files k j f))
  ∧ acc.2 = Fresh <$> placed_below files k Root.
Proof.
  intros Hnd. simpl. induction k as [|k IH]; intros Hk.
  - simpl. split_and!; [done|by rewrite length_fmap| |done].
    intros j f Hj. rewrite list_lookup_fmap, Hj. simpl.
    unfold create_node, attached_below. by destruct (FileNode.type f).
  - destruct (lookup_lt_is_Some_2 files k) as [x Hx]; [lia|].
    rewrite (take_S_r _ _ _ Hx), foldl_snoc.
    destruct IH as (Hin & Hlen & Har & Hroots); [lia|].
    set (nodeMap := (foldl index_file (mkStore inp [], ∅) files).2) in *.
    set (acc := foldl (attach nodeMap) _ (take k files)) in *.
    assert (∀ key, nodeMap !! key = Fresh <$> index_of files key) as Hmap
      by (intros key; by apply index_files_unique).
    unfold attach. rewrite Hmap, (index_of_unique files k x Hnd Hx). simpl.
    assert (truthy (FileNode.parentId x) ≫= (nodeMap !!.)
            = Fresh <$> (truthy (FileNode.parentId x) ≫= index_of files)) as ->.
    { destruct (truthy (FileNode.parentId x)); simpl; [apply Hmap|done]. }
    pose proof (λ p, placed_below_S files k x p Hx) as Hstep.
    unfold placement in Hstep.
    destruct (truthy (FileNode.parentId x) ≫= index_of files) as [j|] eqn:Hparent; simpl.
    + assert (∃ key, index_of files key = Some j) as [key Hkey].
      { destruct (truthy (FileNode.parentId x)) as [pid|]; [by exists pid|done]. }
      destruct (index_of_Some files key j Hkey) as (g & Hg & _).
      rewrite Hg in Hstep. simpl in Hstep.
      split_and!; [done|by rewrite length_alter| |].
      * intros j' f Hj'.
        destruct (decide (j = j')) as [<-|Hne].
        -- assert (f = g) as -> by congruence.
           rewrite list_lookup_alter_eq, (Har j g Hg). simpl.
           unfold push_child, attached_below. simpl.
           destruct (FileNode.type g) eqn:Hty; simpl; [done|].
           rewrite (Hstep (Under j)), decide_True by done. by rewrite fmap_app.
        -- rewrite list_lookup_alter_ne by done. rewrite (Har j' f Hj').
           unfold attached_below. destruct (FileNode.type f); [done|].
           rewrite (Hstep (Under j')).
           destruct (FileNode.type g); rewrite decide_False by congruence;
             by rewrite app_nil_r.
      * rewrite Hroots, (Hstep Root).
        destruct (FileNode.type g); rewrite decide_False by congruence; by rewrite app_nil_r.
    + split_and!; [done|done| |].
      * intros j f Hj. rewrite (Har j f Hj). unfold attached_below.
        destruct (FileNode.type f); [done|].
        by rewrite (Hstep (Under j)), decide_False, app_nil_r by congruence.
      * by rewrite Hroots, (Hstep Root), decide_True, fmap_app by done.
Qed.

(** The store and the roots that reach [sortNodes], for distinct ids. *)
Lemma prepared_tidy (inp : list Obj) :
  NoDup (FileNode.id <$> (fields <$> inp)) →
  tidy (fields <$> inp) (prepared inp).1
  ∧ (prepared inp).2 = Fresh <$> placed (fields <$> inp) Root.
Proof.
  unfold prepared. simpl. intros Hnd.
  destruct (index_files_spec (mkStore inp []) ∅ (fields <$> inp)) as (Hin & Har & _).
  simpl in *.
  set (indexed := foldl index_file (mkStore inp [], ∅) (fields <$> inp)) in *.
  assert (indexed.1 = mkStore inp (create_node <$> (fields <$> inp))) as ->
    by (destruct indexed as [[i a] m]; simpl in *; congruence).
  pose proof (attach_files_unique inp (fields <$> inp) (length (fields <$> inp)) Hnd
                ltac:(done)) as (_ & Hlen & Hobj & Hroots).
  simpl in *. rewrite take_ge in Hlen, Hobj, Hroots by done.
  fold indexed in Hlen, Hobj, Hroots.
  split; [|done]. split.
  - apply list_eq. intros j. rewrite list_lookup_fmap.
    destruct ((fields <$> inp) !! j) as [f|] eqn:Hj.
    + by rewrite (Hobj j f Hj).
    + rewrite (lookup_ge_None_2 (arena _) j); [done|].
      rewrite Hlen. by apply lookup_ge_None.
  - intros j o Hj.
    destruct ((fields <$> inp) !! j) as [f|] eqn:Hf.
    + rewrite (Hobj j f Hf) in Hj. simplify_eq. unfold attached_below. simpl.
      destruct (FileNode.type f); [done|]. by eexists.
    + apply lookup_lt_Some in Hj. apply lookup_ge_None in Hf. lia.
Qed.

(** ** The forest of placements *)

#[local] Instance Fresh_inj : Inj (=) (=) Fresh.
Proof. by intros k k' [=]. Qed.

Section forest.
Context (files : list FileNode.t).

Lemma elem_of_placed (p : Placement) (i : nat) :
  i ∈ placed files p ↔ ∃ f, files !! i = Some f ∧ placement files f = p.
Proof.
  unfold placed, placed_below. rewrite list_elem_of_filter, elem_of_seq. split.
  - intros [Hp _]. destruct (files !! i) as [f|]; [|done].
    simpl in Hp. exists f. split; [done|congruence].
  - intros (f & Hi & <-). rewrite Hi. split; [done|].
    apply lookup_lt_Some in Hi. lia.
Qed.

Lemma NoDup_placed (p : Placement) : NoDup (Fresh <$> placed files p).
Proof.
  apply (NoDup_fmap_2 Fresh). apply NoDup_filter, NoDup_seq.
Qed.

Lemma at_depth_lt (d i : nat) : at_depth files d i → (i < length files)%nat.
Proof. intros Hd. inversion Hd; simplify_eq; by eapply lookup_lt_Some. Qed.

(** A record has one depth. *)
Lemma at_depth_unique (d d' i : nat) :
  at_depth files d i → at_depth files d' i → d = d'.
Proof.
  intros Hd. revert d'. induction Hd as [i f Hi Hroot|i f j d Hi Hunder Hj IH];
    intros d' Hd'; inversion Hd'; simplify_eq; try congruence.
  f_equal. apply IH. congruence.
Qed.

(** The chain of ancestors of a record at depth [d]: one record per depth
    up to [d]. *)
Lemma at_depth_chain (d i : nat) :
  at_depth files d i →
  ∃ l, length l = S d ∧ ∀ e y, l !! e = Some y → at_depth files e y.
Proof.
  induction 1 as [i f Hi Hroot|i f j d Hi Hunder Hj (l & Hlen & Hl)].
  - exists [i]. split; [done|]. intros e y He.
    apply list_lookup_singleton_Some in He as [-> <-]. by econstructor.
  - exists (l ++ [i]). split; [rewrite length_app; simpl; lia|].
    intros e y [[_ He]|[He Heq]]%lookup_snoc_Some; [by apply Hl|].
    simplify_eq. rewrite Hlen. by econstructor.
Qed.

(** Depths stay below the number of records. *)
Lemma at_depth_bound (d i : nat) : at_depth files d i → (d < length files)%nat.
Proof.
  intros (l & Hlen & Hl)%at_depth_chain.
  assert (length l ≤ length (seq 0 (length files)))%nat as Hle.
  { apply submseteq_length, NoDup_submseteq.
    - apply NoDup_alt. intros e e' y He He'.
      eapply at_depth_unique; by eapply Hl.
    - intros y [e He]%list_elem_of_lookup_1. apply elem_of_seq.
      pose proof (at_depth_lt e y (Hl e y He)). lia. }
  rewrite length_seq in Hle. lia.
Qed.

Lemma below_at_depth (a x d : nat) :
  at_depth files d a → below files a x → ∃ e, at_depth files (d + e) x.
Proof.
  intros Ha. induction 1 as [|x f p Hx Hunder _ [e He]].
  - exists 0%nat. by rewrite Nat.add_0_r.
  - exists (S e). rewrite Nat.add_succ_r. by econstructor.
Qed.

Lemma below_trans (a b x : nat) : below files a b → below files b x → below files a x.
Proof.
  intros Hab. induction 1 as [|x f p Hx Hunder _ IH]; [done|]. by econstructor.
Qed.

(** A record lies under at most one record of a given depth. *)
Lemma below_unique (d a a' x : nat) :
  at_depth files d a → at_depth files d a' →
  below files a x → below files a' x → a = a'.
Proof.
  intros Ha Ha' Hax. revert a' Ha'.
  induction Hax as [|x f p Hx Hunder Hap IH]; intros a' Ha' Ha'x.
  - inversion Ha'x as [|? f p Hf Hunder Hp]; simplify_eq; [done|].
    destruct (below_at_depth a' p d Ha' Hp) as [e He].
    assert (at_depth files (S (d + e)) a) as Hdeep by by econstructor.
    pose proof (at_depth_unique _ _ _ Ha Hdeep). lia.
  - inversion Ha'x as [|? f' p' Hf' Hunder' Hp']; simplify_eq.
    + destruct (below_at_depth a p d Ha Hap) as [e He].
      assert (at_depth files (S (d + e)) x) as Hdeep by by econstructor.
      pose proof (at_depth_unique _ _ _ Ha' Hdeep). lia.
    + apply IH; [done|]. replace p with p' by congruence. done.
Qed.

(** *** Tidy stores *)

Lemma tidy_length (st : Store) : tidy files st → length (arena st) = length files.
Proof. intros [<- _]. by rewrite length_fmap. Qed.

Lemma tidy_lookup (st : Store) (i : nat) (o : Obj) :
  tidy files st → arena st !! i = Some o → files !! i = Some (fields o).
Proof. intros [<- _] Hi. by rewrite list_lookup_fmap, Hi. Qed.

Lemma tidy_evolves (st st' : Store) : tidy files st → evolves st st' → tidy files st'.
Proof.
  intros [Hfields Hkids] Hev. split.
  - rewrite <- Hfields. destruct Hev as [_ Hall]. symmetry.
    apply list_eq_Forall2, Forall2_fmap.
    eapply Forall2_impl; [exact Hall|]. by intros o o' [? _].
  - intros j o' Hj.
    destruct (evolves_lookup_r _ _ _ _ Hev Hj) as (o & Ho & Hf & Hc).
    specialize (Hkids j o Ho). rewrite <- Hf.
    destruct (FileNode.type (fields o)).
    + rewrite Hkids in Hc. by inversion Hc.
    + destruct Hkids as (cs & Hcs & Hperm). rewrite Hcs in Hc.
      inversion Hc as [? cs' Hperm'|]; simplify_eq. exists cs'. split; [done|].
      by rewrite <- Hperm'.
Qed.

(** The children of a created object in a tidy store are the objects of
    the records placed under it. *)
Lemma tidy_children (st : Store) (i : nat) (o : Obj) (cs : list ref) :
  tidy files st → arena st !! i = Some o → children o = Some cs →
  cs ≡ₚ Fresh <$> placed files (Under i).
Proof.
  intros [_ Hkids] Hi Hcs. specialize (Hkids i o Hi).
  destruct (FileNode.type (fields o)); [congruence|].
  destruct Hkids as (cs' & Hcs' & Hperm). congruence.
Qed.

Lemma tidy_closed (st : Store) : tidy files st → closed st.
Proof.
  intros Htidy i o cs Hi Hcs.
  rewrite (tidy_children st i o cs Htidy Hi Hcs).
  apply Forall_fmap, Forall_forall. intros c (f & Hc & _)%elem_of_placed.
  exists c. split; [done|]. rewrite (tidy_length st Htidy). by eapply lookup_lt_Some.
Qed.
End forest.

Lemma child_call_ok (st : Store) (r : ref) (o : Obj) (cs : list ref) :
  closed st → is_fresh st r → deref st r = Some o → children o = Some cs →
  call_ok st (Some r) cs.
Proof.
  intros Hclosed Hfresh Hr Hcs. split_and!; [done| |].
  - destruct Hfresh as (k & -> & _). by eapply Hclosed.
  - intros r' [= <-]. split; [done|by exists o].
Qed.

Lemma owner_sorted_evolves (st : Store) (owner : option ref) (nodes sorted : list ref) :
  call_ok st owner nodes → sorted ≡ₚ nodes →
  evolves st (from_option (λ r, update (set_children sorted) r st) st owner).
Proof.
  intros (_ & _ & Howner) Hperm. destruct owner as [r|]; [|done]. simpl.
  destruct (Howner r eq_refl) as ((k & -> & _) & o & Hk & Hcs).
  by eapply set_children_evolves.
Qed.

Lemma records_of_node_eq (n : Node) :
  records_of_node n = record_of n :: from_option all_records [] (kids_of n).
Proof.
  destruct n as [r [ks|]]; simpl; [|done]. f_equal.
  unfold all_records. induction ks as [|k ks IH]; [done|]. simpl. by rewrite IH.
Qed.

(** ** The traversal of a tidy store *)

Section forest_traversal.
Context (localeCompare : string → string → Z) (files : list FileNode.t).

Lemma tidy_children_level (st : Store) (i d : nat) (o : Obj) (cs : list ref) :
  tidy files st → arena st !! i = Some o → children o = Some cs →
  at_depth files d i →
  on_level files (S d) cs ∧ NoDup cs
  ∧ ∀ c, Fresh c ∈ cs → below files i c.
Proof.
  intros Htidy Hi Hcs Hd.
  pose proof (tidy_children files st i o cs Htidy Hi Hcs) as Hperm.
  split_and!.
  - unfold on_level. rewrite Hperm. apply Forall_fmap, Forall_forall.
    intros c (f & Hc & Hunder)%elem_of_placed. exists c. split; [done|]. by econstructor.
  - rewrite Hperm. apply NoDup_placed.
  - intros c Hc. rewrite Hperm in Hc.
    apply (list_elem_of_fmap_inj Fresh) in Hc.
    apply elem_of_placed in Hc as (f & Hc & Hunder).
    econstructor; [done|done|constructor].
Qed.

(** With distinct ids the recursion is no deeper than the number of
    records: [sortNodes] returns. *)
Lemma sortNodes_total (fuel d : nat) (st : Store) (owner : option ref) (nodes : list ref) :
  tidy files st → call_ok st owner nodes → on_level files d nodes →
  (length files < fuel + d)%nat → (1 ≤ fuel)%nat →
  is_Some (sortNodes localeCompare fuel st owner nodes).
Proof.
  revert d st owner nodes.
  induction fuel as [|fuel IH]; intros d st owner nodes Htidy Hok Hlevel Hfuel Hpos; [lia|].
  simpl. destruct Hok as (Hclosed & Hnodes & Howner).
  destruct (mapM_is_Some_2 (deref st) nodes) as [objs Hobjs].
  { eapply Forall_impl; [exact Hnodes|]. intros r (k & -> & Hk). simpl.
    by apply lookup_lt_is_Some_2. }
  rewrite Hobjs. simpl.
  pose proof (sorted_refs_perm localeCompare nodes objs (length_mapM _ _ _ Hobjs)) as Hperm.
  set (sorted := sorted_refs localeCompare nodes objs) in *.
  pose proof (owner_sorted_evolves st owner nodes sorted
                (conj Hclosed (conj Hnodes Howner)) Hperm) as H01.
  apply (map_nodes_total evolves). intros st_a r H1a Hin.
  assert (evolves st st_a) as H0a by by etrans.
  pose proof (tidy_evolves files st st_a Htidy H0a) as Htidy_a.
  rewrite Hperm in Hin.
  rewrite Forall_forall in Hnodes. pose proof (Hnodes r Hin) as Hfresh.
  unfold on_level in Hlevel. rewrite Forall_forall in Hlevel.
  destruct (Hlevel r Hin) as (i & -> & Hd).
  destruct (lookup_lt_is_Some_2 (arena st_a) i) as [o Ho].
  { rewrite (tidy_length files st_a Htidy_a). by eapply at_depth_lt. }
  simpl. rewrite Ho. simpl.
  destruct (children o) as [cs|] eqn:Hcs; [|by eexists _, _].
  pose proof (at_depth_bound files d i Hd) as Hbound.
  destruct (tidy_children_level st_a i d o cs Htidy_a Ho Hcs Hd) as (Hlevel' & _ & _).
  assert (call_ok st_a (Some (Fresh i)) cs) as Hok'.
  { apply (child_call_ok st_a (Fresh i) o cs); [by eapply tidy_closed| |done|done].
    by eapply evolves_is_fresh. }
  destruct (IH (S d) st_a (Some (Fresh i)) cs) as [[st_b ks] Hrec]; [done|done|done|lia|lia|].
  rewrite Hrec. simpl. eexists _, _. split; [done|].
  by eapply sortNodes_evolves.
Qed.

(** The records of one output node and all below it, by index. *)
Lemma blocks_assemble (d : nat) (ps : list (ref * Obj)) (out : list Node) :
  Forall2
    (λ p n, ∃ a blk, p.1 = Fresh a ∧ at_depth files d a
       ∧ Forall2 (λ rec i, files !! i = Some rec) (records_of_node n) blk
       ∧ NoDup blk ∧ ∀ x, x ∈ blk → below files a x)
    ps out →
  NoDup ps.*1 →
  ∃ idxs, Forall2 (λ rec i, files !! i = Some rec) (all_records out) idxs
    ∧ NoDup idxs
    ∧ ∀ x, x ∈ idxs → ∃ a, Fresh a ∈ ps.*1 ∧ at_depth files d a ∧ below files a x.
Proof.
  induction 1 as [|p n ps out (a & blk & Hp & Ha & Hrec & Hnd & Hblk) _ IH]; intros Hnodup.
  - exists []. split_and!; [constructor|constructor|by intros x ?%elem_of_nil].
  - rewrite fmap_cons in Hnodup. apply NoDup_cons in Hnodup as [Hhead Htail].
    destruct (IH Htail) as (idxs & Hrecs & Hnd' & Hidxs).
    exists (blk ++ idxs). split_and!.
    + unfold all_records. rewrite fmap_cons. simpl. by apply Forall2_app.
    + apply NoDup_app. split_and!; [done| |done].
      intros x Hx Hx'. destruct (Hidxs x Hx') as (a' & Ha'in & Ha' & Hbelow').
      assert (a = a') as <- by (eapply below_unique; eauto).
      apply Hhead. by rewrite Hp.
    + intros x [Hx|Hx]%elem_of_app.
      * exists a. split_and!; [rewrite fmap_cons, <- Hp; by left|done|by apply Hblk].
      * destruct (Hidxs x Hx) as (a' & Ha'in & Ha' & Hbelow').
        exists a'. split_and!; [rewrite fmap_cons; by right|done|done].
Qed.

(** Every node of the output is the copy of a record reachable from
    [nodes], and no record is copied twice. *)
Lemma sortNodes_flatten (fuel d : nat) (st : Store) (owner : option ref)
    (nodes : list ref) (st' : Store) (out : list Node) :
  tidy files st → call_ok st owner nodes → on_level files d nodes → NoDup nodes →
  sortNodes localeCompare fuel st owner nodes = Some (st', out) →
  ∃ idxs, Forall2 (λ rec i, files !! i = Some rec) (all_records out) idxs
    ∧ NoDup idxs
    ∧ ∀ x, x ∈ idxs → ∃ a, Fresh a ∈ nodes ∧ at_depth files d a ∧ below files a x.
Proof.
  revert d st owner nodes st' out.
  induction fuel as [|fuel IH]; intros d st owner nodes st' out Htidy Hok Hlevel Hnodup Hrun;
    [done|].
  destruct (sortNodes_unfold localeCompare fuel st owner nodes st' out Hok Hrun)
    as (objs & Hobjs & Hall).
  pose proof (sorted_refs_perm localeCompare nodes objs (length_mapM _ _ _ Hobjs)) as Hperm.
  unfold sorted_refs in Hperm.
  set (ps := js_sort (comparePairs localeCompare) (zip nodes objs)) in *.
  destruct (blocks_assemble d ps out) as (idxs & Hrecs & Hnd & Hidxs).
  - apply Forall2_same_length_lookup. apply Forall2_same_length_lookup in Hall as [Hlen Hall].
    split; [done|]. intros e p n Hp Hn.
    destruct (Hall e p n Hp Hn) as (st_a & o & H0a & Ho & Hderef & Hf & Hrec & Hkids).
    assert (p.1 ∈ nodes) as Hin.
    { rewrite <- Hperm. apply list_elem_of_fmap. exists p. split; [done|].
      by eapply list_elem_of_lookup_2. }
    unfold on_level in Hlevel. rewrite Forall_forall in Hlevel.
    destruct (Hlevel _ Hin) as (a & Ha & Hd). rewrite Ha in Ho, Hderef. simpl in Ho, Hderef.
    pose proof (tidy_lookup files st a p.2 Htidy Hderef) as Hfile.
    pose proof (tidy_evolves files st st_a Htidy H0a) as Htidy_a.
    rewrite records_of_node_eq, Hrec.
    destruct (children o) as [cs|] eqn:Hcs.
    + destruct Hkids as (st_b & ks & Hks & Hok' & Hrun').
      destruct (tidy_children_level st_a a d o cs Htidy_a Ho Hcs Hd)
        as (Hlevel' & Hnd' & Hbelow).
      destruct (IH (S d) st_a (Some p.1) cs st_b ks Htidy_a Hok' Hlevel' Hnd' Hrun')
        as (blk & Hblk & Hblknd & Hblkin).
      rewrite Hks. simpl. exists a, (a :: blk). split_and!; [done|done| | |].
      * by constructor.
      * apply NoDup_cons. split; [|done]. intros Hx.
        destruct (Hblkin a Hx) as (c & _ & Hc & Hca).
        destruct (below_at_depth files c a (S d) Hc Hca) as [e' He'].
        pose proof (at_depth_unique files _ _ _ Hd He'). lia.
      * intros x [->|Hx]%elem_of_cons; [constructor|].
        destruct (Hblkin x Hx) as (c & Hcin & _ & Hcx).
        eapply below_trans; [by apply Hbelow|done].
    + rewrite Hkids. simpl. exists a, [a]. split_and!; [done|done| | |].
      * by repeat constructor.
      * apply NoDup_singleton.
      * intros x ->%list_elem_of_singleton. constructor.
  - rewrite Hperm. done.
  - exists idxs. split_and!; [done|done|].
    intros x Hx. destruct (Hidxs x Hx) as (a & Ha & Hd & Hax).
    exists a. split_and!; [by rewrite <- Hperm|done|done].
Qed.
End forest_traversal.

(** ** The sample collation is consistent *)

Lemma N_compare_trans (x y z : N) (c : comparison) :
  (x ?= y)%N = c → (y ?= z)%N = c → (x ?= z)%N = c.
Proof.
  destruct c; intros Hxy Hyz.
  - apply N.compare_eq_iff in Hxy. apply N.compare_eq_iff in Hyz.
    apply N.compare_eq_iff. congruence.
  - apply N.compare_lt_iff in Hxy. apply N.compare_lt_iff in Hyz.
    apply N.compare_lt_iff. by etrans.
  - apply N.compare_gt_iff in Hxy. apply N.compare_gt_iff in Hyz.
    apply N.compare_gt_iff. by etrans.
Qed.

Lemma key_compare_eq (x y : list N) : list_compare N.compare x y = Eq ↔ x = y.
Proof. apply list_compare_refl, N.compare_eq_iff. Qed.

Lemma key_compare_antisym (x y : list N) :
  list_compare N.compare y x = CompOpp (list_compare N.compare x y).
Proof.
  apply list_compare_antisym; [apply N.compare_eq_iff|].
  intros a b. apply N.compare_antisym.
Qed.

Lemma key_compare_trans (x y z : list N) (c : comparison) :
  list_compare N.compare x y = c → list_compare N.compare y z = c →
  list_compare N.compare x z = c.
Proof.
  apply list_compare_trans; [apply N.compare_eq_iff|apply N_compare_trans|].
  intros a b. apply N.compare_antisym.
Qed.

Lemma key_le_trans (x y z : list N) :
  list_compare N.compare x y ≠ Gt → list_compare N.compare y z ≠ Gt →
  list_compare N.compare x z ≠ Gt.
Proof.
  intros Hxy Hyz.
  destruct (list_compare N.compare x y) eqn:Exy; [| |done].
  - apply key_compare_eq in Exy as ->. done.
  - destruct (list_compare N.compare y z) eqn:Eyz; [| |done].
    + apply key_compare_eq in Eyz as <-. by rewrite Exy.
    + by rewrite (key_compare_trans x y z Lt).
Qed.

Lemma sampleCollation_le (a b : string) :
  sampleCollation a b ≤ 0 ↔
  list_compare N.compare (caseless_key a) (caseless_key b) = Lt
  ∨ (caseless_key a = caseless_key b
     ∧ list_compare N.compare (raw_key b) (raw_key a) ≠ Gt).
Proof.
  unfold sampleCollation.
  destruct (list_compare N.compare (caseless_key a) (caseless_key b)) eqn:E; simpl.
  - apply key_compare_eq in E. split.
    + intros Hle. right. split; [done|]. intros Hgt. rewrite Hgt in Hle. simpl in Hle. lia.
    + intros [?|[_ Hne]]; [done|].
      destruct (list_compare N.compare (raw_key b) (raw_key a)); simpl; done || lia.
  - split; [by left|lia].
  - split; [lia|]. intros [?|[Heq _]]; [done|].
    apply key_compare_eq in Heq. congruence.
Qed.

Lemma sampleCollation_total (a b : string) :
  0 < sampleCollation a b → sampleCollation b a ≤ 0.
Proof.
  unfold sampleCollation.
  rewrite (key_compare_antisym (caseless_key a) (caseless_key b)).
  rewrite (key_compare_antisym (raw_key b) (raw_key a)).
  destruct (list_compare N.compare (caseless_key a) (caseless_key b)); simpl; try lia.
  destruct (list_compare N.compare (raw_key b) (raw_key a)); simpl; lia.
Qed.

Lemma sampleCollation_trans (a b c : string) :
  sampleCollation a b ≤ 0 → sampleCollation b c ≤ 0 → sampleCollation a c ≤ 0.
Proof.
  rewrite !sampleCollation_le.
  intros [Hab|[Hab Hab']] [Hbc|[Hbc Hbc']].
  - left. by apply (key_compare_trans _ (caseless_key b)).
  - left. by rewrite <- Hbc.
  - left. by rewrite Hab.
  - right. split; [congruence|]. by apply (key_le_trans _ (raw_key b)).
Qed.

Lemma sampleCollation_caseless (a b : string) :
  sampleCollation a b ≤ 0 → caseless_le a b.
Proof.
  rewrite sampleCollation_le. unfold caseless_le.
  intros [->|[-> _]]; [done|]. by rewrite (proj2 (key_compare_eq _ _) eq_refl).
Qed.

(** ** Fuel *)

Lemma map_nodes_mono (visit visit' : Store → ref → option (Store * Node))
    (st : Store) (nodes : list ref) (res : Store * list Node) :
  (∀ st r y, visit st r = Some y → visit' st r = Some y) →
  map_nodes visit st nodes = Some res → map_nodes visit' st nodes = Some res.
Proof.
  intros Hext. revert st res. induction nodes as [|r rest IH]; intros st res; simpl; [done|].
  destruct (visit st r) as [[st1 n]|] eqn:Hr; [|done].
  rewrite (Hext _ _ _ Hr). simpl.
  destruct (map_nodes visit st1 rest) as [[st2 ns]|] eqn:Hrest; [|done].
  by rewrite (IH _ _ Hrest).
Qed.

(** More fuel does not change a result. *)
Lemma sortNodes_fuel_mono (localeCompare : string → string → Z) (fuel fuel' : nat)
    (st : Store) (owner : option ref) (nodes : list ref) (res : Store * list Node) :
  (fuel ≤ fuel')%nat →
  sortNodes localeCompare fuel st owner nodes = Some res →
  sortNodes localeCompare fuel' st owner nodes = Some res.
Proof.
  revert fuel' st owner nodes res.
  induction fuel as [|fuel IH]; intros fuel' st owner nodes res Hle Hrun; [done|].
  destruct fuel' as [|fuel']; [lia|]. simpl in *.
  destruct (mapM (deref st) nodes) as [objs|]; [|done]. simpl in *.
  eapply map_nodes_mono; [|exact Hrun].
  intros st_a r y Hv. simpl in *.
  destruct (deref st_a r) as [o|]; [|done]. simpl in *.
  destruct (children o) as [cs|]; [|done].
  destruct (sortNodes localeCompare fuel st_a (Some r) cs) as [res'|] eqn:Hrec; [|done].
  by rewrite (IH fuel' _ _ _ _ ltac:(lia) Hrec).
Qed.

(** ** [buildTree] *)

Section buildTree_facts.
Context (localeCompare : string → string → Z).

Lemma buildTree_eq (fuel : nat) (files : list Obj) :
  buildTree localeCompare fuel files
  = '(st, roots) ← sortNodes localeCompare fuel (prepared files).1 None (prepared files).2;
    Some (input st, roots).
Proof. reflexivity. Qed.

Lemma buildTree_inv (fuel : nat) (files files' : list Obj) (out : list Node) :
  buildTree localeCompare fuel files = Some (files', out) →
  ∃ st', sortNodes localeCompare fuel (prepared files).1 None (prepared files).2
         = Some (st', out)
    ∧ files' = files.
Proof.
  rewrite buildTree_eq. intros Hrun.
  destruct (sortNodes _ _ _ _ _) as [[st' roots]|] eqn:Hsort; [|done].
  simpl in Hrun. simplify_eq. exists st'. split; [done|].
  destruct (prepared_call_ok files) as (Hin & _ & Hok).
  destruct (sortNodes_evolves localeCompare _ _ _ _ _ _ Hok Hsort) as [<- _]. done.
Qed.

(** The objects passed in are left as they were. *)
Lemma buildTree_frame (fuel : nat) (files files' : list Obj) (out : list Node) :
  buildTree localeCompare fuel files = Some (files', out) → files' = files.
Proof. by intros (_ & _ & ->)%buildTree_inv. Qed.

Lemma buildTree_fuel_mono (fuel fuel' : nat) (files files' : list Obj) (out : list Node) :
  (fuel ≤ fuel')%nat →
  buildTree localeCompare fuel files = Some (files', out) →
  buildTree localeCompare fuel' files = Some (files', out).
Proof.
  intros Hle. rewrite !buildTree_eq. intros Hrun.
  destruct (sortNodes localeCompare fuel _ _ _) as [res|] eqn:Hsort; [|done].
  by rewrite (sortNodes_fuel_mono localeCompare fuel fuel' _ _ _ _ Hle Hsort).
Qed.

Lemma placed_root_level (files : list FileNode.t) :
  on_level files 0 (Fresh <$> placed files Root).
Proof.
  apply Forall_fmap, Forall_forall. intros i (f & Hi & Hroot)%elem_of_placed.
  exists i. split; [done|]. by econstructor.
Qed.

(** On records with distinct ids [buildTree] returns, whatever the depth
    budget above the number of records. *)
Lemma buildTree_returns (fuel : nat) (files : list Obj) :
  NoDup (FileNode.id <$> (fields <$> files)) → (length files < fuel)%nat →
  ∃ out, buildTree localeCompare fuel files = Some (files, out).
Proof.
  intros Hnd Hfuel.
  destruct (prepared_tidy files Hnd) as [Htidy Hroots].
  destruct (prepared_call_ok files) as (_ & _ & Hok).
  destruct (sortNodes_total localeCompare (fields <$> files) fuel 0
              (prepared files).1 None (prepared files).2) as [[st' out] Hsort];
    [done|done| | |lia|].
  - rewrite Hroots. apply placed_root_level.
  - rewrite length_fmap. lia.
  - exists out.
    assert (buildTree localeCompare fuel files = Some (input st', out)) as Hrun
      by (by rewrite buildTree_eq, Hsort).
    by rewrite <- (buildTree_frame _ _ _ _ Hrun) at 2.
Qed.

Lemma placement_orphan (files : list FileNode.t) (r : FileNode.t) :
  (FileNode.parentId r = None
   ∨ ∃ pid, FileNode.parentId r = Some pid ∧ pid ∉ FileNode.id <$> files) →
  placement files r = Root.
Proof.
  unfold placement. intros [->|(pid & -> & Hmissing)]; [done|].
  assert (index_of files pid = None) as Hnone.
  { destruct (index_of files pid) as [j|] eqn:Hj; [|done].
    apply index_of_Some in Hj as (f & Hf & <-). destruct Hmissing.
    apply list_elem_of_fmap_2. by eapply list_elem_of_lookup_2. }
  destruct pid as [|c pid]; simpl; [done|]. by rewrite Hnone.
Qed.

Lemma placement_under_file (files : list FileNode.t) (r g : FileNode.t) (j : nat) :
  NoDup (FileNode.id <$> files) →
  files !! j = Some g → FileNode.type g = FILE →
  FileNode.parentId r = Some (FileNode.id g) → FileNode.id g ≠ "" →
  placement files r = Dropped.
Proof.
  intros Hnd Hj Hty Hparent Hne. unfold placement. rewrite Hparent.
  assert (truthy (Some (FileNode.id g)) = Some (FileNode.id g)) as ->
    by (by destruct (FileNode.id g)).
  simpl. rewrite (index_of_unique files j g Hnd Hj), Hj. simpl. by rewrite Hty.
Qed.

Lemma at_depth_not_dropped (files : list FileNode.t) (d i : nat) (f : FileNode.t) :
  at_depth files d i → files !! i = Some f → placement files f ≠ Dropped.
Proof. intros Hd Hi. inversion Hd; simplify_eq; congruence. Qed.
End buildTree_facts.

(** In a sorted sibling set no file comes before a folder. *)
Lemma siblings_sorted_folders_first (name_le : relation string) (ns : list Node)
    (i j : nat) (a b : Node) :
  siblings_sorted name_le ns → (i < j)%nat →
  ns !! i = Some a → ns !! j = Some b →
  FileNode.type (record_of b) = FOLDER → FileNode.type (record_of a) = FOLDER.
Proof.
  unfold siblings_sorted. revert i j.
  induction ns as [|n ns IH]; intros i j Hsorted Hlt Hi Hj Hb; [done|].
  rewrite fmap_cons in Hsorted. apply StronglySorted_inv in Hsorted as [Hsorted Hall].
  destruct j as [|j]; [lia|]. destruct i as [|i]; simpl in *.
  - simplify_eq. rewrite Forall_forall in Hall.
    destruct (Hall (record_of b)) as [[? _]|[? _]]; [|done|congruence].
    apply list_elem_of_fmap_2. by eapply list_elem_of_lookup_2.
  - eapply (IH i j); eauto with lia.
Qed.

(** C6.  Let the host collation be consistent (a total preorder given by
    signs).  Then in whatever [buildTree] returns, on any input, every
    sibling set (the roots and the children of every node) has its folders
    before its files and, within one type, its names in collation order;
    and in every name order the collation refines, the order of names
    without regard to case being the one the specification names.  On
    records with distinct ids [buildTree] does return. *)
Theorem buildTree_siblings_sorted (localeCompare : string → string → Z)
    (caseless : relation string) :
  (∀ a b, 0 < localeCompare a b → localeCompare b a ≤ 0) →
  (∀ a b c, localeCompare a b ≤ 0 → localeCompare b c ≤ 0 → localeCompare a c ≤ 0) →
  (∀ a b, localeCompare a b ≤ 0 → caseless a b) →
  ∀ (files : list Obj) (fuel : nat),
    (∀ files' out, buildTree localeCompare fuel files = Some (files', out) →
       every_sibling_set (siblings_sorted (collation_le localeCompare)) out
       ∧ every_sibling_set (siblings_sorted caseless) out)
    ∧ (NoDup (FileNode.id <$> (fields <$> files)) → (length files < fuel)%nat →
       ∃ out, buildTree localeCompare fuel files = Some (files, out)).
Proof.
  intros Htotal Htrans Hrefines files fuel. split.
  - intros files' out (st' & Hsort & _)%buildTree_inv.
    destruct (prepared_call_ok files) as (_ & _ & Hok). split.
    + by eapply (sortNodes_sorted localeCompare (collation_le localeCompare)).
    + by eapply (sortNodes_sorted localeCompare caseless).
  - apply buildTree_returns.
Qed.

Lemma stray_files_distinct : NoDup (FileNode.id <$> (fields <$> stray_files)).
Proof. apply (bool_decide_unpack _). vm_compute. exact I. Qed.

Lemma buildTree_siblings_sorted_witness :
  ∃ out, buildTree sampleCollation 8 stray_files = Some (stray_files, out)
    ∧ every_sibling_set (siblings_sorted (collation_le sampleCollation)) out
    ∧ every_sibling_set (siblings_sorted caseless_le) out.
Proof.
  destruct (buildTree_siblings_sorted sampleCollation caseless_le
              sampleCollation_total sampleCollation_trans sampleCollation_caseless
              stray_files 8) as [Hsorted Hreturns].
  destruct (Hreturns stray_files_distinct ltac:(simpl; lia)) as [out Hout].
  exists out. split; [exact Hout|]. exact (Hsorted stray_files out Hout).
Defined.

(** The first scenario of the specification, and a larger one. *)
Example buildTree_scenario :
  (λ r : list Obj * list Node, outline <$> r.2)
    <$> buildTree sampleCollation 4 scenario_files
  = Some ["src{a.js;}"; "b.js"]
  ∧ (λ r : list Obj * list Node, outline <$> r.2)
      <$> buildTree sampleCollation 8 stray_files
    = Some ["src{lib{};a.js;B.js;}"; "b.js"; "orphan.js"].
Proof. split; vm_compute; reflexivity. Qed.

(** C7.  On records with distinct ids, a record whose [parentId] is null,
    or is the id of no record of the input, is the record of a root of the
    output; [buildTree] returns, no error is raised. *)
Theorem buildTree_orphans_are_roots (localeCompare : string → string → Z)
    (files : list Obj) (fuel i : nat) (r : FileNode.t) :
  NoDup (FileNode.id <$> (fields <$> files)) → (length files < fuel)%nat →
  (fields <$> files) !! i = Some r →
  (FileNode.parentId r = None
   ∨ ∃ pid, FileNode.parentId r = Some pid ∧ pid ∉ FileNode.id <$> (fields <$> files)) →
  ∃ out, buildTree localeCompare fuel files = Some (files, out)
    ∧ ∃ n, n ∈ out ∧ record_of n = r.
Proof.
  intros Hnd Hfuel Hi Horphan.
  destruct (buildTree_returns localeCompare fuel files Hnd Hfuel) as [out Hrun].
  exists out. split; [done|].
  destruct (buildTree_inv localeCompare _ _ _ _ Hrun) as (st' & Hsort & _).
  destruct (prepared_tidy files Hnd) as [Htidy Hroots].
  destruct (prepared_call_ok files) as (_ & _ & Hok).
  destruct (sortNodes_roots_perm localeCompare _ _ _ _ _ _ Hok Hsort)
    as (objs & Hobjs & Hperm).
  assert (r ∈ record_of <$> out) as (n & -> & Hn)%list_elem_of_fmap; [|by exists n].
  rewrite Hperm.
  assert (Fresh i ∈ (prepared files).2) as [e He]%list_elem_of_lookup_1.
  { rewrite Hroots. apply list_elem_of_fmap_2, elem_of_placed.
    exists r. split; [done|]. by apply placement_orphan. }
  apply mapM_Some_1 in Hobjs.
  destruct (Forall2_lookup_l _ _ _ _ _ Hobjs He) as (o & Ho & Hderef). simpl in Hderef.
  pose proof (tidy_lookup _ _ _ _ Htidy Hderef) as Hfile.
  assert (r = fields o) as -> by congruence.
  apply list_elem_of_fmap_2. by eapply list_elem_of_lookup_2.
Qed.

Lemma buildTree_orphans_are_roots_witness :
  ∃ out, buildTree sampleCollation 8 stray_files = Some (stray_files, out)
    ∧ ∃ n, n ∈ out ∧ record_of n = sampleFile "4" "orphan.js" (Some "99").
Proof.
  apply (buildTree_orphans_are_roots sampleCollation stray_files 8 5).
  - exact stray_files_distinct.
  - simpl. lia.
  - reflexivity.
  - right. exists "99". split; [reflexivity|].
    apply (bool_decide_unpack _). vm_compute. exact I.
Defined.

(** C8.  [buildTree] leaves the objects it is given as they were, and a
    second run on them returns the same forest (with any depth budget at
    least as large) and leaves them unchanged again.  On records with
    distinct ids there is one forest that every run returns. *)
Theorem buildTree_pure (localeCompare : string → string → Z) (files : list Obj) :
  (∀ fuel files1 out1,
     buildTree localeCompare fuel files = Some (files1, out1) →
     files1 = files
     ∧ ∀ fuel', (fuel ≤ fuel')%nat →
         buildTree localeCompare fuel' files1 = Some (files1, out1))
  ∧ (NoDup (FileNode.id <$> (fields <$> files)) →
     ∃ out, ∀ fuel, (length files < fuel)%nat →
       buildTree localeCompare fuel files = Some (files, out)).
Proof.
  split.
  - intros fuel files1 out1 Hrun.
    pose proof (buildTree_frame localeCompare _ _ _ _ Hrun) as ->.
    split; [done|]. intros fuel' Hle. by eapply buildTree_fuel_mono.
  - intros Hnd.
    destruct (buildTree_returns localeCompare (S (length files)) files Hnd ltac:(lia))
      as [out Hrun].
    exists out. intros fuel Hfuel. eapply buildTree_fuel_mono; [|exact Hrun]. lia.
Qed.

Lemma buildTree_pure_witness :
  ∃ out, ∀ fuel, (length stray_files < fuel)%nat →
    buildTree sampleCollation fuel stray_files = Some (stray_files, out).
Proof.
  exact (proj2 (buildTree_pure sampleCollation stray_files) stray_files_distinct).
Defined.

(** C10, as stated, fails when the id in question is the empty string:
    the guard [file.parentId && ...] reads an empty [parentId] as no
    parent, so a record whose [parentId] is the empty id of a FILE record
    becomes a root, and the output has as many nodes as the input has
    records. *)
Lemma empty_parent_id_is_promoted :
  NoDup (FileNode.id <$> (fields <$> empty_id_files))
  ∧ (∃ r g, (fields <$> empty_id_files) !! 1%nat = Some r
       ∧ (fields <$> empty_id_files) !! 0%nat = Some g
       ∧ FileNode.type g = FILE
       ∧ FileNode.parentId r = Some (FileNode.id g)
       ∧ buildTree sampleCollation 3 empty_id_files
         = Some (empty_id_files, [mkNode g None; mkNode r None]))
  ∧ ¬ (∀ (files : list Obj) (i j : nat) (r g : FileNode.t) (out : list Node),
         NoDup (FileNode.id <$> (fields <$> files)) →
         (fields <$> files) !! i = Some r →
         (fields <$> files) !! j = Some g →
         FileNode.type g = FILE →
         FileNode.parentId r = Some (FileNode.id g) →
         buildTree sampleCollation (S (length files)) files = Some (files, out) →
         (r ∉ all_records out) ∧ (length (all_records out) < length files)%nat).
Proof.
  assert (NoDup (FileNode.id <$> (fields <$> empty_id_files))) as Hnd
    by (apply (bool_decide_unpack _); vm_compute; exact I).
  split_and!; [exact Hnd| |].
  - eexists _, _. split_and!; vm_compute; reflexivity.
  - intros Hclaim.
    destruct (Hclaim empty_id_files 1%nat 0%nat
                (sampleFile "x" "b.js" (Some "")) (sampleFile "" "a.js" None)
                [mkNode (sampleFile "" "a.js" None) None;
                 mkNode (sampleFile "x" "b.js" (Some "")) None])
      as [_ Hfewer]; [exact Hnd|reflexivity|reflexivity|reflexivity|reflexivity| |].
    + vm_compute. reflexivity.
    + vm_compute in Hfewer. lia.
Qed.

(** C10 (amended).  On records with distinct ids, a record whose
    [parentId] is a non-empty string, the id of a FILE record of the
    input, is the record of no node of the output, root or not, so the
    output has fewer nodes than the input has records. *)
Theorem buildTree_drops_children_of_files (localeCompare : string → string → Z)
    (files : list Obj) (fuel i j : nat) (r g : FileNode.t) :
  NoDup (FileNode.id <$> (fields <$> files)) → (length files < fuel)%nat →
  (fields <$> files) !! i = Some r →
  (fields <$> files) !! j = Some g →
  FileNode.type g = FILE →
  FileNode.parentId r = Some (FileNode.id g) → FileNode.id g ≠ "" →
  ∃ out, buildTree localeCompare fuel files = Some (files, out)
    ∧ (∀ x, x ∈ all_records out → FileNode.id x ≠ FileNode.id r)
    ∧ (length (all_records out) < length files)%nat.
Proof.
  intros Hnd Hfuel Hi Hj Hty Hparent Hne.
  destruct (buildTree_returns localeCompare fuel files Hnd Hfuel) as [out Hrun].
  exists out. split; [done|].
  destruct (buildTree_inv localeCompare _ _ _ _ Hrun) as (st' & Hsort & _).
  destruct (prepared_tidy files Hnd) as [Htidy Hroots].
  destruct (prepared_call_ok files) as (_ & _ & Hok).
  set (records := fields <$> files) in *.
  destruct (sortNodes_flatten localeCompare records fuel 0 _ None _ st' out Htidy Hok)
    as (idxs & Hrecs & Hnodup & Hidxs); [| |done|].
  { rewrite Hroots. apply placed_root_level. }
  { rewrite Hroots. apply NoDup_placed. }
  pose proof (placement_under_file records r g j Hnd Hj Hty Hparent Hne) as Hdropped.
  assert (i ∉ idxs) as Hi_out.
  { intros Hin. destruct (Hidxs i Hin) as (a & _ & Ha & Hbelow).
    destruct (below_at_depth records a i 0 Ha Hbelow) as [e He].
    by apply (at_depth_not_dropped records _ _ r He Hi). }
  split.
  - intros x [e He]%list_elem_of_lookup_1 Hid.
    destruct (Forall2_lookup_l _ _ _ _ _ Hrecs He) as (k & Hk & Hx).
    assert (k = i) as ->.
    { apply (NoDup_lookup (FileNode.id <$> records) k i (FileNode.id x)); [done| |].
      - by rewrite list_lookup_fmap, Hx.
      - by rewrite list_lookup_fmap, Hi, Hid. }
    apply Hi_out. by eapply list_elem_of_lookup_2.
  - rewrite (Forall2_length _ _ _ Hrecs).
    assert (length (i :: idxs) ≤ length (seq 0 (length records)))%nat as Hle.
    { apply submseteq_length, NoDup_submseteq; [by apply NoDup_cons|].
      intros x Hx. apply elem_of_seq. split; [lia|]. simpl.
      apply elem_of_cons in Hx as [->|[e He]%list_elem_of_lookup_1].
      - by eapply lookup_lt_Some.
      - destruct (Forall2_lookup_r _ _ _ _ _ Hrecs He) as (rec & _ & Hrec).
        by eapply lookup_lt_Some. }
    rewrite length_seq in Hle. unfold records in Hle. rewrite length_fmap in Hle.
    simpl in Hle. lia.
Qed.

Lemma buildTree_drops_children_of_files_witness :
  ∃ out, buildTree sampleCollation 8 stray_files = Some (stray_files, out)
    ∧ (∀ x, x ∈ all_records out → FileNode.id x ≠ "5")
    ∧ (length (all_records out) < 7)%nat.
Proof.
  apply (buildTree_drops_children_of_files sampleCollation stray_files 8 6 1
           (sampleFile "5" "lost.js" (Some "2")) (sampleFile "2" "a.js" (Some "1"))).
  - exact stray_files_distinct.
  - simpl. lia.
  - reflexivity.
  - reflexivity.
  - reflexivity.
  - reflexivity.
  - discriminate.
Defined.

(** * Further properties of the session store *)

(** ** Operations on an id no tab carries *)

(** X1.  Whatever the id, [updateTabContent] and [saveFile] given an id that no
    open tab carries change nothing and send nothing; [closeTab] given
    such an id changes nothing either unless that id is the [activeTabId]:
    then, with tabs open, it throws.  On the empty session [closeTab]
    returns the empty session. *)
Theorem missing_tab_left_alone (s : Session) (tabId : string) :
  (∀ t, t ∈ tabs s → EditorTab.id t ≠ tabId) →
  (∀ content, updateTabContent s tabId content = s)
  ∧ (∀ net, saveFile s tabId net = mkOutcome s [] None)
  ∧ (tabs s ≠ [] → activeTabId s ≠ Some tabId → closeTab s tabId = Ok s)
  ∧ (tabs s ≠ [] → activeTabId s = Some tabId → closeTab s tabId = Throw TypeError)
  ∧ (tabs s = [] → closeTab s tabId = Ok emptySession).
Proof.
  intros Hmissing.
  assert (Forall (λ t, EditorTab.id t ≠ tabId) (tabs s)) as Hall
    by (by apply Forall_forall).
  assert (list_find (λ t, EditorTab.id t = tabId) (tabs s) = None) as Hfind.
  { apply list_find_None. eapply Forall_impl; [exact Hall|]. by intros t Ht. }
  split_and!.
  - intros content. destruct s as [l a f]. unfold updateTabContent. simpl in *. f_equal.
    clear Hall Hfind. induction l as [|x l IH]; [done|]. rewrite fmap_cons.
    rewrite IH by (intros t Ht; apply Hmissing; by right). f_equal.
    rewrite decide_False; [done|]. apply Hmissing. by left.
  - intros net. unfold saveFile, find. by rewrite Hfind.
  - intros Hne Hother. unfold closeTab. rewrite (filter_all _ _ Hall).
    rewrite decide_False by (by intros [? _]).
    rewrite decide_False by (by intros ?%length_zero_iff_nil). by destruct s.
  - intros Hne Hactive. unfold closeTab, findIndex. rewrite (filter_all _ _ Hall), Hfind.
    rewrite decide_True by (split; [done|]; destruct (tabs s); [done|simpl; lia]).
    unfold index. rewrite decide_False; [done|]. lia.
  - intros Hnil. unfold closeTab. rewrite Hnil. simpl. by rewrite decide_False by lia.
Qed.

Lemma missing_tab_left_alone_witness :
  let s := run (take 2 close_active_trace) in
  updateTabContent s "tab-7" "z" = s
  ∧ saveFile s "tab-7" Rejected = mkOutcome s [] None
  ∧ closeTab s "tab-7" = Ok s.
Proof.
  simpl.
  destruct (missing_tab_left_alone (run (take 2 close_active_trace)) "tab-7")
    as (Hupdate & Hsave & Hclose & _).
  - intros t Ht. vm_compute in Ht.
    apply elem_of_cons in Ht as [->|Ht]; [discriminate|].
    apply list_elem_of_singleton in Ht as ->. discriminate.
  - split; [exact (Hupdate "z")|]. split; [exact (Hsave Rejected)|].
    apply Hclose; vm_compute; discriminate.
Defined.

(** ** What an operation leaves alone *)

Lemma same_document_with_isActive (b : bool) (t : EditorTab.t) :
  same_document (EditorTab.with_isActive b t) t.
Proof. by destruct t. Qed.

(** X2.  Whatever the session and the operation, if the operation
    returns (only [closeTab] can fail to), a tab it is not aimed at is
    still open afterwards, with its id, file, name, path, content,
    extension and dirty flag; only its [isActive] flag may have changed.
    In particular [openFile] and [setActiveTab] never close a tab and never
    touch content, and an edit, a save or a close of one tab leaves the
    others with their contents. *)
Theorem operation_frames_other_tabs (s : Session) (op : Op) (s' : Session)
    (t : EditorTab.t) :
  perform s op = Ok s' → t ∈ tabs s → ¬ aims_at op (EditorTab.id t) →
  ∃ t', t' ∈ tabs s' ∧ same_document t' t.
Proof.
  intros Hperform Ht Haim.
  destruct op as [file net now|tabId|tabId|tabId content|tabId net]; simpl in *.
  - injection Hperform as <-. unfold openFile.
    destruct (FileNode.type file); [|by exists t].
    destruct (find _ _) as [existing|]; [by exists t|].
    destruct net as [|[] [c|]]; try (by exists t). simpl.
    exists (EditorTab.with_isActive false t). split.
    + apply elem_of_app. left. by apply list_elem_of_fmap_2.
    + apply same_document_with_isActive.
  - exists t. split; [|done].
    assert (tabs s' = filter (λ x, EditorTab.id x ≠ tabId) (tabs s)) as ->.
    { unfold closeTab in Hperform.
      destruct (decide _); [destruct (index _ _)|destruct (decide _)]; by simplify_eq. }
    apply list_elem_of_filter. split; [congruence|done].
  - injection Hperform as <-. eexists.
    split; [by apply list_elem_of_fmap_2|]. apply same_document_with_isActive.
  - injection Hperform as <-. exists t. split; [|done].
    apply list_elem_of_fmap. exists t. split; [|done].
    by rewrite decide_False by congruence.
  - injection Hperform as <-. unfold saveFile.
    destruct (find _ _) as [tab|]; [|by exists t].
    destruct (EditorTab.isDirty tab); [|by exists t].
    destruct net as [|[] body]; try (by exists t). simpl.
    exists t. split; [|done]. apply list_elem_of_fmap. exists t. split; [|done].
    by rewrite decide_False by congruence.
Qed.

Lemma operation_frames_other_tabs_witness :
  ∃ t', t' ∈ [EditorTab.mk "tab-1000" "f1" "a.js" "/a.js" "x" (Some ".js") false false]
    ∧ same_document t'
        (EditorTab.mk "tab-1000" "f1" "a.js" "/a.js" "x" (Some ".js") false false).
Proof.
  apply (operation_frames_other_tabs (run (take 2 close_active_trace))
           (CloseTab "tab-2000")
           (mkSession
              [EditorTab.mk "tab-1000" "f1" "a.js" "/a.js" "x" (Some ".js") false false]
              (Some "tab-1000") (Some (sampleFile "f2" "b.js" None)))).
  - vm_compute. reflexivity.
  - vm_compute. by left.
  - simpl. discriminate.
Defined.

(** ** [openFile] when the content cannot be fetched *)

(** X3.  For a FILE record that has no tab yet, whenever the content request
    does not deliver (the promise is rejected, the response is not [ok],
    or the body cannot be read), [openFile] leaves the whole session as it
    was: no tab is added, [activeTabId] and [selectedFile] keep their
    values.  It has sent the one GET request and logged the error; nothing
    is thrown to the caller.  For a FOLDER record nothing is sent at
    all. *)
Theorem openFile_failed_fetch (s : Session) (file : FileNode.t)
    (net : FetchOutcome) (now : Z) :
  (FileNode.type file = FOLDER → openFile s file net now = (s, []))
  ∧ (FileNode.type file = FILE →
     (∀ t, t ∈ tabs s → EditorTab.fileId t ≠ FileNode.id file) →
     (∀ c, net ≠ Resolved true (Some c)) →
     openFile s file net now
     = (s, [FetchGET (FileNode.id file); ConsoleError "Error opening file:"])).
Proof.
  unfold openFile. split; intros ->; [done|]. intros Hnew Hfail.
  assert (find (λ t, EditorTab.fileId t = FileNode.id file) (tabs s) = None) as ->.
  { unfold find. destruct (list_find _ _) as [[i t]|] eqn:Hfind; [|done].
    apply list_find_Some in Hfind as (Hi & Hid & _).
    destruct (Hnew t); [by eapply list_elem_of_lookup_2|done]. }
  destruct net as [|[] [c|]]; try done. by destruct (Hfail c).
Qed.

Lemma openFile_failed_fetch_witness :
  openFile (run (take 1 close_active_trace)) (sampleFile "f2" "b.js" None)
    (Resolved false None) 2000
  = (run (take 1 close_active_trace),
     [FetchGET "f2"; ConsoleError "Error opening file:"]).
Proof.
  apply (openFile_failed_fetch (run (take 1 close_active_trace))
           (sampleFile "f2" "b.js" None) (Resolved false None) 2000).
  - reflexivity.
  - intros t Ht. vm_compute in Ht. apply list_elem_of_singleton in Ht as ->. discriminate.
  - discriminate.
Defined.

(** ** When [closeTab] throws *)

(** X4.  [closeTab] throws in exactly one situation: tabs are open, the id it
    is given is the [activeTabId], and no open tab carries it.  No
    sequence of operations in which [setActiveTab] is given ids of open
    tabs leads there, whatever ids [openFile] mints: in every such
    session [closeTab] returns, whatever the id. *)
Theorem closeTab_throws_iff (s : Session) (tabId : string) :
  (closeTab s tabId = Throw TypeError
   ↔ tabs s ≠ [] ∧ activeTabId s = Some tabId ∧ tabId ∉ EditorTab.id <$> tabs s)
  ∧ (∀ e, closeTab s tabId = Throw e → e = TypeError)
  ∧ (ui_reachable s → ∃ s', closeTab s tabId = Ok s').
Proof.
  assert (tabs s ≠ [] ∧ activeTabId s = Some tabId ∧ tabId ∉ EditorTab.id <$> tabs s
          → closeTab s tabId = Throw TypeError) as Hthrows.
  { intros (Hne & Hactive & Hmissing).
    assert (Forall (λ t, EditorTab.id t ≠ tabId) (tabs s)) as Hall.
    { apply Forall_forall. intros t Ht Hid. apply Hmissing. rewrite <- Hid.
      by apply list_elem_of_fmap_2. }
    assert (list_find (λ t, EditorTab.id t = tabId) (tabs s) = None) as Hfind.
    { apply list_find_None. eapply Forall_impl; [exact Hall|]. by intros t Ht. }
    unfold closeTab, findIndex. rewrite (filter_all _ _ Hall), Hfind.
    rewrite decide_True by (split; [done|]; destruct (tabs s); [done|simpl; lia]).
    unfold index. rewrite decide_False; [done|]. lia. }
  assert (∀ e, closeTab s tabId = Throw e →
            e = TypeError
            ∧ tabs s ≠ [] ∧ activeTabId s = Some tabId
            ∧ tabId ∉ EditorTab.id <$> tabs s) as Hinv.
  { intros e Hclose. unfold closeTab in Hclose.
    destruct (decide _) as [[Hactive Hpos]|_]; [|by destruct (decide _)].
    destruct (index _ _) as [t|] eqn:Hindex; [done|]. simplify_eq.
    split; [done|]. split; [by intros Hnil; rewrite Hnil in Hpos; simpl in Hpos; lia|].
    split; [done|]. intros (t & -> & [i Hi]%list_elem_of_lookup_1)%list_elem_of_fmap.
    unfold index, findIndex in Hindex.
    destruct (list_find _ _) as [[j x]|] eqn:Hfind.
    - rewrite decide_True in Hindex by lia.
      apply lookup_ge_None in Hindex. lia.
    - apply list_find_None in Hfind. rewrite Forall_forall in Hfind.
      destruct (Hfind t); [by eapply list_elem_of_lookup_2|done]. }
  split_and!.
  - split; [|done]. by intros (_ & ?)%Hinv.
  - by intros e (? & _)%Hinv.
  - intros Hact%ui_reachable_active_tab.
    destruct (closeTab s tabId) as [s'|e] eqn:Hclose; [by exists s'|].
    destruct (Hinv e eq_refl) as (_ & Hne & Hactive & Hmissing).
    unfold active_tab_invariant in Hact.
    destruct (tabs s) as [|z l] eqn:E; [done|]. rewrite <- E in *.
    destruct Hact as (t & Hin & Hid).
    destruct Hmissing. assert (tabId = EditorTab.id t) as -> by congruence.
    by apply list_elem_of_fmap_2.
Qed.

Lemma close_active_prefix_ui_reachable : ui_reachable (run (take 2 close_active_trace)).
Proof.
  apply (ui_reachable_step
           (run (take 1 close_active_trace))
           (OpenFile (sampleFile "f2" "b.js" None) (fetched "y") 2000));
    [|exact I|reflexivity].
  apply (ui_reachable_step emptySession
           (OpenFile (sampleFile "f1" "a.js" None) (fetched "x") 1000));
    [apply ui_reachable_init|exact I|reflexivity].
Qed.

Lemma closeTab_throws_iff_witness :
  ∃ s', closeTab (run (take 2 close_active_trace)) "tab-9" = Ok s'.
Proof.
  exact (proj2 (proj2 (closeTab_throws_iff (run (take 2 close_active_trace)) "tab-9"))
           close_active_prefix_ui_reachable).
Defined.

(** ** Opening a file and closing its tab again *)

(** X5.  Opening a FILE record that has no tab (the fetch succeeding, the new
    id fresh) and then closing the new tab gives back the tabs there were,
    in their order, every one with its [isActive] flag cleared.  The tab
    that was active before is not made active again: [activeTabId] becomes
    the id of the last tab of the list, or null if there is none; and
    [selectedFile] stays on the file whose tab has just been closed unless
    no tab is left. *)
Theorem open_then_close (s : Session) (file : FileNode.t) (c : option string) (now : Z) :
  FileNode.type file = FILE →
  (∀ t, t ∈ tabs s → EditorTab.fileId t ≠ FileNode.id file) →
  newTabId now ∉ EditorTab.id <$> tabs s →
  ∃ s2, closeTab (openFile s file (Resolved true (Some c)) now).1 (newTabId now) = Ok s2
    ∧ tabs s2 = EditorTab.with_isActive false <$> tabs s
    ∧ activeTabId s2 = EditorTab.id <$> last (tabs s)
    ∧ selectedFile s2 = (if decide (tabs s = []) then None else Some file).
Proof.
  intros Hty Hnew Hfresh. unfold openFile. rewrite Hty.
  assert (find (λ t, EditorTab.fileId t = FileNode.id file) (tabs s) = None) as ->.
  { unfold find. destruct (list_find _ _) as [[i t]|] eqn:Hfind; [|done].
    apply list_find_Some in Hfind as (Hi & Hid & _).
    destruct (Hnew t); [by eapply list_elem_of_lookup_2|done]. }
  simpl. unfold closeTab. simpl.
  set (l := EditorTab.with_isActive false <$> tabs s).
  assert (Forall (λ t, EditorTab.id t ≠ newTabId now) l) as Hall.
  { apply Forall_fmap, Forall_forall. intros t Ht Hid. apply Hfresh.
    simpl in Hid. rewrite <- Hid. by apply list_elem_of_fmap_2. }
  assert (list_find (λ t, EditorTab.id t = newTabId now) l = None) as Hnone.
  { apply list_find_None. eapply Forall_impl; [exact Hall|]. by intros t Ht. }
  rewrite filter_app, (filter_all _ _ Hall), filter_cons_False by (simpl; tauto).
  rewrite filter_nil, app_nil_r.
  unfold findIndex. rewrite (list_find_app_r _ _ _ Hnone). simpl.
  rewrite (decide_True (P := newTabId now = newTabId now)) by done. simpl.
  assert (length l = length (tabs s)) as Hlen by apply length_fmap.
  destruct (decide (tabs s = [])) as [Hnil|Hne].
  - assert (l = []) as -> by (unfold l; by rewrite Hnil).
    simpl. rewrite decide_False by (simpl; lia).
    exists (mkSession [] None None). by rewrite Hnil.
  - assert (0 < length l)%nat as Hpos by (rewrite Hlen; destruct (tabs s); [done|simpl; lia]).
    rewrite decide_True by done.
    destruct (last l) as [t|] eqn:Hlast.
    2:{ apply last_None in Hlast. rewrite Hlast in Hpos. simpl in Hpos. lia. }
    unfold index. rewrite decide_True by lia.
    replace (Z.to_nat (Z.min (Z.of_nat (length l)) (Z.of_nat (length l) - 1)))
      with (Init.Nat.pred (length l)) by lia.
    rewrite <- last_lookup, Hlast.
    eexists. split; [done|]. simpl. split; [done|]. split; [|done].
    unfold l in Hlast. rewrite fmap_last in Hlast.
    destruct (last (tabs s)) as [t0|]; [|done]. simpl in *. by simplify_eq.
Qed.

Lemma open_then_close_witness :
  ∃ s2, closeTab (openFile (run (take 2 close_active_trace))
                    (sampleFile "f3" "c.js" None) (Resolved true (Some None)) 3000).1
          "tab-3000" = Ok s2
    ∧ tabs s2 = EditorTab.with_isActive false <$> tabs (run (take 2 close_active_trace))
    ∧ activeTabId s2 = Some "tab-2000"
    ∧ selectedFile s2 = Some (sampleFile "f3" "c.js" None).
Proof.
  apply (open_then_close (run (take 2 close_active_trace))
           (sampleFile "f3" "c.js" None) None 3000).
  - reflexivity.
  - intros t Ht. vm_compute in Ht.
    apply elem_of_cons in Ht as [->|Ht]; [discriminate|].
    apply list_elem_of_singleton in Ht as ->. discriminate.
  - apply (bool_decide_unpack _). vm_compute. exact I.
Defined.

(** ** One tab per file *)

Lemma unique_key_filter_length {A} (f : A → string) (k : string) (l : list A) :
  NoDup (f <$> l) → (length (filter (λ x, f x = k) l) ≤ 1)%nat.
Proof.
  induction l as [|x l IH]; [simpl; lia|].
  rewrite fmap_cons, NoDup_cons. intros [Hx Hnd]. rewrite filter_cons.
  destruct (decide (f x = k)) as [Hk|Hk]; [|by apply IH].
  rewrite filter_none; [simpl; lia|].
  apply Forall_forall. intros y Hy Hyk. apply Hx. rewrite Hk, <- Hyk.
  by apply list_elem_of_fmap_2.
Qed.

(** X6.  After any sequence of session operations issued one at a time from
    the empty session (the clock giving each new tab an id no open tab
    carries), no file has more than one tab and no id is carried by more
    than one tab, so there are never more tabs than files that were
    opened. *)
Theorem one_tab_per_file (w : World) :
  reachable w →
  (∀ fileId, (tabsOn fileId (session w) ≤ 1)%nat)
  ∧ (∀ tabId,
       (length (filter (λ t, EditorTab.id t = tabId) (tabs (session w))) ≤ 1)%nat).
Proof.
  intros (Hids & Hfiles & _)%reachable_world_invariant. split.
  - intros fileId. unfold tabsOn. by apply unique_key_filter_length.
  - intros tabId. by apply unique_key_filter_length.
Qed.

Lemma one_tab_per_file_witness :
  reachable (wrun restore_trace)
  ∧ (tabsOn "f1" (session (wrun restore_trace)) ≤ 1)%nat.
Proof.
  split; [exact restore_trace_reachable|].
  exact (proj1 (one_tab_per_file (wrun restore_trace) restore_trace_reachable) "f1").
Defined.

(** ** Editing and saving *)




(** * The callers of the session store *)

(** ** [handleClose] of the tab bar *)

Lemma find_key (s : Session) (i : nat) (tab : EditorTab.t) :
  NoDup (EditorTab.id <$> tabs s) → tabs s !! i = Some tab →
  find (λ t, EditorTab.id t = EditorTab.id tab) (tabs s) = Some tab.
Proof.
  intros Hnd Hi. unfold find. by rewrite (list_find_key EditorTab.id _ _ _ Hnd Hi).
Qed.

Lemma fmap_fixed {A} (f : A → A) (l : list A) :
  Forall (λ x, f x = x) l → f <$> l = l.
Proof. induction 1 as [|x l Hx _ IH]; [done|]. rewrite fmap_cons. by rewrite Hx, IH. Qed.

(** X8.  Closing a dirty tab whose save was asked for and has failed: the
    handler ends with the error of [saveFile] before [closeTab] is
    reached, so the session is as it was; the tab is still open, dirty,
    with its edited content.  The dialog was shown and the one PATCH
    request sent. *)
Theorem handleClose_failed_save (s : Session) (tabId : string) (tab : EditorTab.t)
    (net : FetchOutcome) :
  find (λ t, EditorTab.id t = tabId) (tabs s) = Some tab →
  EditorTab.isDirty tab = true → saved net = false →
  let o := handleClose s tabId true net in
  ui_next o = s
  ∧ is_Some (ui_thrown o)
  ∧ ui_log o
    = [ConfirmDialog "Save changes before closing?";
       Issued (FetchPATCH (EditorTab.fileId tab) (EditorTab.content tab));
       Issued (ConsoleError "Error saving file:")].
Proof.
  intros Hfind Hdirty Hfail. unfold handleClose, saveFile. rewrite Hfind, Hdirty.
  destruct net as [|[] body]; try done; simpl; by split_and!.
Qed.

Lemma handleClose_failed_save_witness :
  ui_next (handleClose (session (wrun restore_trace)) "tab-1000" true Rejected)
  = session (wrun restore_trace).
Proof.
  apply (handleClose_failed_save (session (wrun restore_trace)) "tab-1000"
           (EditorTab.mk "tab-1000" "f1" "a.js" "/a.js" "x" (Some ".js") true true)
           Rejected); reflexivity.
Defined.

(** X9.  In a session whose tab ids are distinct, [handleClose] on an open
    tab throws only when the tab is dirty, the user asks for the save and
    the save fails.  Otherwise exactly that tab is removed, and a dirty
    tab is removed only after the user has declined the save or its
    content has been sent and accepted.  No request is sent for a clean
    tab or after a declined dialog, and no dialog is shown for a clean
    tab. *)
Theorem handleClose_closes (s : Session) (i : nat) (tab : EditorTab.t)
    (confirmed : bool) (net : FetchOutcome) :
  NoDup (EditorTab.id <$> tabs s) → tabs s !! i = Some tab →
  let o := handleClose s (EditorTab.id tab) confirmed net in
  (ui_thrown o = None
   ↔ ¬ (EditorTab.isDirty tab = true ∧ confirmed = true ∧ saved net = false))
  ∧ (ui_thrown o = None →
       tabs (ui_next o) = delete i (tabs s)
       ∧ (EditorTab.isDirty tab = true → confirmed = true →
            saved net = true
            ∧ Issued (FetchPATCH (EditorTab.fileId tab) (EditorTab.content tab))
              ∈ ui_log o))
  ∧ (EditorTab.isDirty tab = false ∨ confirmed = false → ∀ e, Issued e ∉ ui_log o)
  ∧ (EditorTab.isDirty tab = false → ui_log o = []).
Proof.
  intros Hnd Hi. simpl.
  destruct (closeTab_present s i tab Hnd Hi) as (s' & Hclose & Htabs & _).
  unfold handleClose. rewrite (find_key s i tab Hnd Hi).
  destruct (EditorTab.isDirty tab) eqn:Hdirty.
  2:{ unfold finish_close. rewrite Hclose. simpl.
      split_and!; [intuition congruence|done|by intros _ e ?%elem_of_nil|done]. }
  destruct confirmed.
  2:{ unfold finish_close. rewrite Hclose. simpl. split_and!; [intuition congruence|done| |done].
      intros _ e Hin. apply list_elem_of_singleton in Hin. discriminate. }
  unfold saveFile. rewrite (find_key s i tab Hnd Hi), Hdirty.
  destruct net as [|[] body]; simpl; try (split_and!; intuition congruence).
  set (clean := λ t : EditorTab.t,
         if decide (EditorTab.id t = EditorTab.id tab) then EditorTab.with_clean t else t).
  set (s1 := mkSession (clean <$> tabs s) (activeTabId s) (selectedFile s)).
  assert (∀ t, EditorTab.id (clean t) = EditorTab.id t) as Hclean
    by (intros t; unfold clean; by case_decide).
  assert (NoDup (EditorTab.id <$> tabs s1)) as Hnd1.
  { simpl. rewrite <- list_fmap_compose. erewrite list_fmap_ext; [exact Hnd|].
    intros _ x _. apply Hclean. }
  assert (tabs s1 !! i = Some (clean tab)) as Hi1
    by (simpl; by rewrite list_lookup_fmap, Hi).
  destruct (closeTab_present s1 i (clean tab) Hnd1 Hi1) as (s2 & Hclose2 & Htabs2 & _).
  rewrite Hclean in Hclose2. unfold finish_close. rewrite Hclose2. simpl.
  split_and!; [intuition congruence| |intuition congruence|done].
  intros _. split; [|split; [done|set_solver]].
  rewrite Htabs2. simpl. rewrite <- list_fmap_delete. apply fmap_fixed.
  rewrite <- (filter_key_delete EditorTab.id _ _ _ Hnd Hi).
  apply Forall_forall. intros t [Hne _]%list_elem_of_filter. unfold clean.
  by rewrite decide_False.
Qed.

Lemma handleClose_closes_witness :
  let o := handleClose (session (wrun restore_trace)) "tab-1000" true (Resolved true None) in
  ui_thrown o = None ∧ tabs (ui_next o) = []
  ∧ Issued (FetchPATCH "f1" "x") ∈ ui_log o.
Proof.
  destruct (handleClose_closes (session (wrun restore_trace)) 0
              (EditorTab.mk "tab-1000" "f1" "a.js" "/a.js" "x" (Some ".js") true true)
              true (Resolved true None)) as (Hiff & Hclosed & _).
  - apply (bool_decide_unpack _). vm_compute. exact I.
  - reflexivity.
  - assert (ui_thrown (handleClose (session (wrun restore_trace)) "tab-1000" true
                         (Resolved true None)) = None) as Hnone
      by (apply Hiff; intros (_ & _ & Hfail); discriminate Hfail).
    destruct (Hclosed Hnone) as (Htabs & Hsent).
    split; [exact Hnone|]. split; [exact Htabs|].
    exact (proj2 (Hsent eq_refl eq_refl)).
Defined.

(** ** [handleSave] of the editor page *)



(** * [debounce] *)

Section debounce_facts.
Context {A : Type} (wait : Z).

Lemma clearTimeout_own (tm : @Debounce.Timer A) :
  Debounce.clearTimeout (Debounce.handle tm) [tm] = [].
Proof.
  unfold Debounce.clearTimeout. by rewrite filter_cons_False by (intros Hne; by apply Hne).
Qed.

(** X11.  However calls and timer runs are interleaved, the function returned
    by [debounce] has at most one timer pending, and every application of
    [func] has the arguments of the last call before it, a call made at
    least [wait] earlier with no other call in between. *)
Theorem debounce_delivers_last_call (evs : list (@Debounce.Event A)) :
  (length (Debounce.timers (Debounce.run wait evs).1) ≤ 1)%nat
  ∧ ∀ t a, (t, a) ∈ (Debounce.run wait evs).2 →
      ∃ pre t0 mid post,
        evs = pre ++ Debounce.Call t0 a :: mid ++ Debounce.Elapse t :: post
        ∧ Forall (λ e, ¬ Debounce.is_call e) mid
        ∧ t0 + wait ≤ t.
Proof.
  assert ((Debounce.timers (Debounce.run wait evs).1 = []
           ∨ ∃ tm pre t0 mid,
               Debounce.timers (Debounce.run wait evs).1 = [tm]
               ∧ Debounce.timeout (Debounce.run wait evs).1 = Some (Debounce.handle tm)
               ∧ evs = pre ++ Debounce.Call t0 (Debounce.args tm) :: mid
               ∧ Forall (λ e, ¬ Debounce.is_call e) mid
               ∧ Debounce.due tm = t0 + wait)
          ∧ ∀ t a, (t, a) ∈ (Debounce.run wait evs).2 →
              ∃ pre t0 mid post,
                evs = pre ++ Debounce.Call t0 a :: mid ++ Debounce.Elapse t :: post
                ∧ Forall (λ e, ¬ Debounce.is_call e) mid
                ∧ t0 + wait ≤ t) as [Hpending Hdelivered].
  2:{ split; [|done].
      destruct Hpending as [->|(tm & _ & _ & _ & -> & _)]; simpl; lia. }
  induction evs as [|ev evs IH] using rev_ind.
  { split; [by left|]. by intros t a ?%elem_of_nil. }
  destruct IH as [Hpending Hdelivered].
  unfold Debounce.run in *. rewrite foldl_snoc.
  set (r := foldl (Debounce.step wait) (Debounce.init, []) evs) in *.
  assert (∀ t a, (t, a) ∈ r.2 →
            ∃ pre t0 mid post,
              evs ++ [ev] = pre ++ Debounce.Call t0 a :: mid ++ Debounce.Elapse t :: post
              ∧ Forall (λ e, ¬ Debounce.is_call e) mid
              ∧ t0 + wait ≤ t) as Hold.
  { intros t a (pre & t0 & mid & post & -> & Hmid & Hwait)%Hdelivered.
    exists pre, t0, mid, (post ++ [ev]). split; [|done].
    by rewrite <- !app_assoc, <- !app_comm_cons, <- app_assoc. }
  destruct ev as [now a|now]; simpl.
  - split; [|done]. right.
    exists (Debounce.mkTimer (Debounce.unused r.1) (now + wait) a), evs, now, [].
    split_and!; [|done|done|done|done].
    unfold Debounce.call. simpl.
    destruct Hpending as [Hnone|(tm & _ & _ & _ & Hone & Htimeout & _)].
    + rewrite Hnone. by destruct (Debounce.timeout r.1).
    + by rewrite Hone, Htimeout, clearTimeout_own.
  - destruct Hpending as [Hnone|(tm & pre & t0 & mid & Hone & Htimeout & Hevs & Hmid & Hdue)].
    + rewrite Hnone. simpl. split; [by left|]. by rewrite app_nil_r.
    + rewrite Hone. destruct (decide (Debounce.due tm ≤ now)) as [Hle|Hgt].
      * rewrite filter_cons_False by tauto. rewrite filter_cons_True by done.
        simpl. split; [by left|].
        intros t b [Hin|Hin%list_elem_of_singleton]%elem_of_app; [by apply Hold|].
        injection Hin as -> ->. exists pre, t0, mid, []. split; [|split; [done|lia]].
        by rewrite Hevs, <- app_assoc, <- app_comm_cons.
      * rewrite filter_cons_True by done. rewrite filter_cons_False by done.
        simpl. rewrite app_nil_r. split; [|done]. right.
        exists tm, pre, t0, (mid ++ [Debounce.Elapse now]).
        split_and!; [done|done| | |done].
        -- by rewrite Hevs, <- app_assoc, <- app_comm_cons.
        -- apply Forall_app. split; [done|]. apply Forall_singleton. simpl. tauto.
Qed.


(** The pending timer as the last call has left it. *)
Lemma burst_fold (evs : list (@Debounce.Event A)) :
  ∀ (d : Debounce.t) (out : list (Z * A)) (pending : option (Z * A)),
    match pending with
    | None => Debounce.timers d = []
    | Some (t0, a) =>
        ∃ h, Debounce.timers d = [Debounce.mkTimer h (t0 + wait) a]
             ∧ Debounce.timeout d = Some h
    end →
    Debounce.burst wait ((λ p, p.1 + wait) <$> pending) evs →
    ∃ d', foldl (Debounce.step wait) (d, out) evs = (d', out)
      ∧ match foldl (λ acc ev, match ev with
                               | Debounce.Call now a => Some (now, a)
                               | Debounce.Elapse _ => acc
                               end) pending evs with
        | None => Debounce.timers d' = []
        | Some (t0, a) =>
            ∃ h, Debounce.timers d' = [Debounce.mkTimer h (t0 + wait) a]
                 ∧ Debounce.timeout d' = Some h
        end.
Proof.
  induction evs as [|ev evs IH]; intros d out pending Hstate Hburst; [by exists d|].
  destruct ev as [now a|now]; simpl in Hburst; destruct Hburst as [Hearly Hrest]; simpl.
  - apply (IH _ out (Some (now, a))); [|done]. exists (Debounce.unused d).
    split; [|done]. unfold Debounce.call. simpl.
    destruct pending as [[t0 b]|]; simpl in Hstate.
    + destruct Hstate as (h & -> & ->).
      pose proof (clearTimeout_own (Debounce.mkTimer h (t0 + wait) b)) as Hcleared.
      simpl in Hcleared. by rewrite Hcleared.
    + rewrite Hstate. by destruct (Debounce.timeout d).
  - destruct pending as [[t0 b]|]; simpl in *.
    + destruct Hstate as (h & Htimers & Htimeout).
      pose proof (Hearly _ eq_refl) as Hlt.
      rewrite Htimers. rewrite filter_cons_True by (simpl; lia).
      rewrite filter_cons_False by (simpl; lia). simpl. rewrite app_nil_r.
      apply (IH _ out (Some (t0, b))); [|done]. by exists h.
    + rewrite Hstate. simpl. rewrite app_nil_r. by apply (IH _ out None).
Qed.

(** X12.  A burst of calls, each event coming less than [wait] after the call
    before it, applies [func] to nothing while it lasts.  The first time
    the host runs timers [wait] or more after the last call of the burst,
    [func] is applied once, to the arguments of that last call, and no
    timer is left pending. *)
Theorem debounce_burst (evs : list (@Debounce.Event A)) (t0 t : Z) (a : A) :
  Debounce.burst wait None evs →
  Debounce.last_call evs = Some (t0, a) →
  t0 + wait ≤ t →
  (Debounce.run wait evs).2 = []
  ∧ (Debounce.run wait (evs ++ [Debounce.Elapse t])).2 = [(t, a)]
  ∧ Debounce.timers (Debounce.run wait (evs ++ [Debounce.Elapse t])).1 = [].
Proof.
  intros Hburst Hlast Hwait.
  destruct (burst_fold evs Debounce.init [] None) as (d & Hrun & Hstate); [done|done|].
  unfold Debounce.last_call in Hlast. rewrite Hlast in Hstate.
  destruct Hstate as (h & Htimers & _).
  unfold Debounce.run. rewrite foldl_snoc, Hrun. simpl. rewrite Htimers.
  rewrite filter_cons_True by (simpl; lia). rewrite filter_cons_False by (simpl; lia).
  done.
Qed.
End debounce_facts.

Lemma debounce_delivers_last_call_witness :
  ∃ pre t0 mid post,
    [Debounce.Call 0 "a"; Debounce.Call 100 "ab"; Debounce.Elapse 150;
     Debounce.Elapse 450; Debounce.Elapse 900]
    = pre ++ Debounce.Call t0 "ab" :: mid ++ Debounce.Elapse 450 :: post
    ∧ Forall (λ e, ¬ Debounce.is_call e) mid
    ∧ t0 + 300 ≤ 450.
Proof.
  apply (proj2 (debounce_delivers_last_call (A := string) 300
                  [Debounce.Call 0 "a"; Debounce.Call 100 "ab"; Debounce.Elapse 150;
                   Debounce.Elapse 450; Debounce.Elapse 900])).
  vm_compute. by left.
Defined.

Lemma debounce_burst_witness :
  (Debounce.run 300 [Debounce.Call 0 "a"; Debounce.Elapse 200; Debounce.Call 250 "ab";
                     Debounce.Call 500 "abc"; Debounce.Elapse 800]).2
  = [(800, "abc")].
Proof.
  apply (debounce_burst (A := string) 300
           [Debounce.Call 0 "a"; Debounce.Elapse 200; Debounce.Call 250 "ab";
            Debounce.Call 500 "abc"] 500 800 "abc").
  - simpl. split_and!; try done; intros d [= <-]; lia.
  - reflexivity.
  - lia.
Defined.

(** * Further properties of the tree builder *)

Section placements.
Context (files : list FileNode.t).

Lemma index_of_None (key : string) :
  index_of files key = None ↔ key ∉ FileNode.id <$> files.
Proof.
  unfold index_of. split.
  - intros Hnone (f & -> & [i Hi]%list_elem_of_lookup_1)%list_elem_of_fmap.
    destruct (list_find _ _) as [[j g]|] eqn:Hfind; [done|].
    apply list_find_None in Hfind. rewrite Forall_forall in Hfind.
    destruct (Hfind f); [by eapply list_elem_of_lookup_2|done].
  - intros Hmissing. destruct (list_find _ _) as [[j g]|] eqn:Hfind; [|done].
    apply list_find_Some in Hfind as (Hj & <- & _). destruct Hmissing.
    apply list_elem_of_fmap_2. by eapply list_elem_of_lookup_2.
Qed.

(** The records the second loop pushes to [rootNodes]. *)
Lemma placement_root_iff (f : FileNode.t) :
  placement files f = Root ↔ parentless files f.
Proof.
  unfold placement, parentless. destruct (truthy (FileNode.parentId f)) as [pid|]; simpl.
  - destruct (index_of files pid) as [j|] eqn:Hj.
    + split.
      * destruct (files !! j) as [g|]; simpl; [by destruct (FileNode.type g)|done].
      * intros Hmissing. apply index_of_Some in Hj as (g & Hg & <-).
        destruct (Hmissing _ eq_refl). apply list_elem_of_fmap_2.
        by eapply list_elem_of_lookup_2.
    + split; [|done]. intros _ pid' [= <-]. by apply index_of_None.
  - split; [by intros _ pid ?|done].
Qed.

(** The records the second loop pushes to the children of a folder. *)
Lemma placement_under_iff (j : nat) (r f : FileNode.t) :
  NoDup (FileNode.id <$> files) → files !! j = Some r → FileNode.type r = FOLDER →
  placement files f = Under j ↔ child_of r f.
Proof.
  intros Hnd Hj Hty. unfold placement, child_of.
  destruct (truthy (FileNode.parentId f)) as [pid|]; simpl; [|done].
  split.
  - destruct (index_of files pid) as [k|] eqn:Hk; [|done].
    destruct (files !! k) as [g|] eqn:Hg; simpl; [|done].
    destruct (FileNode.type g); [done|]. intros [= ->].
    apply index_of_Some in Hk as (g' & Hg' & <-). congruence.
  - intros [= ->]. rewrite (index_of_unique files j r Hnd Hj), Hj. simpl. by rewrite Hty.
Qed.

(** The records behind an array that holds the objects placed at [p]. *)
Lemma level_records (st : Store) (p : Placement) (cs : list ref) (objs : list Obj) :
  tidy files st → mapM (deref st) cs = Some objs → cs ≡ₚ Fresh <$> placed files p →
  ∀ f, f ∈ fields <$> objs ↔ f ∈ files ∧ placement files f = p.
Proof.
  intros Htidy Hobjs%mapM_Some_1 Hperm f. split.
  - intros (o & -> & [k Hk]%list_elem_of_lookup_1)%list_elem_of_fmap.
    destruct (Forall2_lookup_r _ _ _ _ _ Hobjs Hk) as (c & Hc & Hderef).
    assert (c ∈ Fresh <$> placed files p) as (i & -> & Hi)%list_elem_of_fmap
      by (rewrite <- Hperm; by eapply list_elem_of_lookup_2).
    apply elem_of_placed in Hi as (g & Hg & Hplace). simpl in Hderef.
    pose proof (tidy_lookup files st i o Htidy Hderef) as Hfile.
    assert (g = fields o) as -> by congruence.
    split; [by eapply list_elem_of_lookup_2|done].
  - intros [[i Hi]%list_elem_of_lookup_1 Hplace].
    assert (Fresh i ∈ cs) as [k Hk]%list_elem_of_lookup_1.
    { rewrite Hperm. apply list_elem_of_fmap_2, elem_of_placed. by exists f. }
    destruct (Forall2_lookup_l _ _ _ _ _ Hobjs Hk) as (o & Ho & Hderef). simpl in Hderef.
    pose proof (tidy_lookup files st i o Htidy Hderef) as Hfile.
    assert (f = fields o) as -> by congruence.
    apply list_elem_of_fmap_2. by eapply list_elem_of_lookup_2.
Qed.
End placements.

Section parents_and_children.
Context (localeCompare : string → string → Z) (files : list FileNode.t).
Hypothesis distinct_ids : NoDup (FileNode.id <$> files).

(** In a tidy store [sortNodes] hangs under every folder the records that
    name it as their parent, and only those. *)
Lemma sortNodes_kids (fuel : nat) (st : Store) (owner : option ref) (nodes : list ref)
    (st' : Store) (out : list Node) :
  tidy files st → call_ok st owner nodes →
  sortNodes localeCompare fuel st owner nodes = Some (st', out) →
  every_node (kids_are_children files) out.
Proof.
  revert st owner nodes st' out.
  induction fuel as [|fuel IH]; intros st owner nodes st' out Htidy Hok Hrun; [done|].
  destruct (sortNodes_unfold localeCompare fuel st owner nodes st' out Hok Hrun)
    as (objs & Hobjs & Hall).
  constructor. apply Forall_forall. intros n [e He]%list_elem_of_lookup_1.
  destruct (Forall2_lookup_r _ _ _ _ _ Hall He)
    as (p & Hp & st_a & o & H0a & Ho & Hderef & Hf & Hrec & Hkids).
  assert (is_fresh st p.1) as (a & Ha & _).
  { destruct Hok as (_ & Hnodes & _). rewrite Forall_forall in Hnodes. apply Hnodes.
    rewrite <- (sorted_refs_perm localeCompare nodes objs (length_mapM _ _ _ Hobjs)).
    apply list_elem_of_fmap. exists p. split; [done|]. by eapply list_elem_of_lookup_2. }
  rewrite Ha in Ho, Hkids. simpl in Ho.
  pose proof (tidy_evolves files st st_a Htidy H0a) as Htidy_a.
  pose proof (tidy_lookup files st_a a o Htidy_a Ho) as Hfile.
  pose proof (proj2 Htidy_a a o Ho) as Hshape.
  unfold kids_are_children. rewrite Hrec, <- Hf.
  destruct (FileNode.type (fields o)) eqn:Hty.
  - rewrite Hshape in Hkids. split; [done|]. intros ks Hks. congruence.
  - destruct Hshape as (cs & Hcs & Hperm). rewrite Hcs in Hkids.
    destruct Hkids as (st_b & ks & Hks & Hok' & Hrun'). split.
    + exists ks. split; [done|]. intros f.
      destruct (sortNodes_roots_perm localeCompare _ _ _ _ _ _ Hok' Hrun')
        as (kobjs & Hkobjs & ->).
      rewrite (level_records files st_a (Under a) cs kobjs Htidy_a Hkobjs Hperm f).
      by rewrite (placement_under_iff files a (fields o) f distinct_ids Hfile Hty).
    + intros ks' Hks'. assert (ks' = ks) as -> by congruence.
      by eapply IH.
Qed.
End parents_and_children.

(** X13.  On records with distinct ids [buildTree] returns a forest in which
    every node of a FOLDER record, at any depth, has as kids copies of
    exactly the input records whose [parentId] is its id, and every node of
    a FILE record has no [children] array. *)
Theorem buildTree_kids_are_children (localeCompare : string → string → Z)
    (files : list Obj) (fuel : nat) :
  NoDup (FileNode.id <$> (fields <$> files)) → (length files < fuel)%nat →
  ∃ out, buildTree localeCompare fuel files = Some (files, out)
    ∧ every_node (kids_are_children (fields <$> files)) out.
Proof.
  intros Hnd Hfuel.
  destruct (buildTree_returns localeCompare fuel files Hnd Hfuel) as [out Hrun].
  exists out. split; [done|].
  destruct (buildTree_inv localeCompare _ _ _ _ Hrun) as (st' & Hsort & _).
  destruct (prepared_tidy files Hnd) as [Htidy _].
  destruct (prepared_call_ok files) as (_ & _ & Hok).
  by eapply sortNodes_kids.
Qed.

Lemma buildTree_kids_are_children_witness :
  ∃ out, buildTree sampleCollation 8 stray_files = Some (stray_files, out)
    ∧ every_node (kids_are_children (fields <$> stray_files)) out.
Proof.
  apply (buildTree_kids_are_children sampleCollation stray_files 8).
  - exact stray_files_distinct.
  - simpl. lia.
Defined.

(** X14.  On records with distinct ids the roots of the forest are copies of
    exactly the input records that name no input record as their parent:
    [parentId] is null, empty, or the id of no record of the input. *)
Theorem buildTree_roots_are_parentless (localeCompare : string → string → Z)
    (files : list Obj) (fuel : nat) :
  NoDup (FileNode.id <$> (fields <$> files)) → (length files < fuel)%nat →
  ∃ out, buildTree localeCompare fuel files = Some (files, out)
    ∧ ∀ r, r ∈ record_of <$> out
           ↔ r ∈ fields <$> files ∧ parentless (fields <$> files) r.
Proof.
  intros Hnd Hfuel.
  destruct (buildTree_returns localeCompare fuel files Hnd Hfuel) as [out Hrun].
  exists out. split; [done|]. intros r.
  destruct (buildTree_inv localeCompare _ _ _ _ Hrun) as (st' & Hsort & _).
  destruct (prepared_tidy files Hnd) as [Htidy Hroots].
  destruct (prepared_call_ok files) as (_ & _ & Hok).
  destruct (sortNodes_roots_perm localeCompare _ _ _ _ _ _ Hok Hsort)
    as (objs & Hobjs & ->).
  rewrite (level_records (fields <$> files) _ Root _ objs Htidy Hobjs)
    by (by rewrite Hroots).
  by rewrite placement_root_iff.
Qed.

Lemma buildTree_roots_are_parentless_witness :
  ∃ out, buildTree sampleCollation 8 stray_files = Some (stray_files, out)
    ∧ ∀ r, r ∈ record_of <$> out
           ↔ r ∈ fields <$> stray_files ∧ parentless (fields <$> stray_files) r.
Proof.
  apply (buildTree_roots_are_parentless sampleCollation stray_files 8).
  - exact stray_files_distinct.
  - simpl. lia.
Defined.

Lemma NoDup_key_lookups {A} (key : A → string) (l xs : list A) (idxs : list nat) :
  NoDup (key <$> l) → Forall2 (λ x i, l !! i = Some x) xs idxs → NoDup idxs →
  NoDup (key <$> xs).
Proof.
  intros Hnd Hall. induction Hall as [|x i xs idxs Hx Hall IH]; [constructor|].
  rewrite NoDup_cons. intros [Hi Hidxs]. rewrite fmap_cons. apply NoDup_cons.
  split; [|by apply IH].
  intros (y & Hkey & [e He]%list_elem_of_lookup_1)%list_elem_of_fmap.
  destruct (Forall2_lookup_l _ _ _ _ _ Hall He) as (j & Hj & Hy).
  assert (i = j) as ->.
  { apply (NoDup_lookup (key <$> l) i j (key x)); [done| |].
    - by rewrite list_lookup_fmap, Hx.
    - by rewrite list_lookup_fmap, Hy, Hkey. }
  apply Hi. by eapply list_elem_of_lookup_2.
Qed.

(** X15.  On records with distinct ids the forest, all depths taken together,
    holds copies of input records only and no record twice: the ids of its
    nodes are distinct, so it has at most as many nodes as the input has
    records. *)
Theorem buildTree_no_duplicates (localeCompare : string → string → Z)
    (files : list Obj) (fuel : nat) :
  NoDup (FileNode.id <$> (fields <$> files)) → (length files < fuel)%nat →
  ∃ out, buildTree localeCompare fuel files = Some (files, out)
    ∧ NoDup (FileNode.id <$> all_records out)
    ∧ (∀ x, x ∈ all_records out → x ∈ fields <$> files)
    ∧ (length (all_records out) ≤ length files)%nat.
Proof.
  intros Hnd Hfuel.
  destruct (buildTree_returns localeCompare fuel files Hnd Hfuel) as [out Hrun].
  exists out. split; [done|].
  destruct (buildTree_inv localeCompare _ _ _ _ Hrun) as (st' & Hsort & _).
  destruct (prepared_tidy files Hnd) as [Htidy Hroots].
  destruct (prepared_call_ok files) as (_ & _ & Hok).
  set (records := fields <$> files) in *.
  destruct (sortNodes_flatten localeCompare records fuel 0 _ None _ st' out Htidy Hok)
    as (idxs & Hrecs & Hnodup & _); [| |done|].
  { rewrite Hroots. apply placed_root_level. }
  { rewrite Hroots. apply NoDup_placed. }
  assert (NoDup (FileNode.id <$> all_records out)) as Hids
    by (by eapply NoDup_key_lookups).
  split_and!; [done| |].
  - intros x [e He]%list_elem_of_lookup_1.
    destruct (Forall2_lookup_l _ _ _ _ _ Hrecs He) as (k & _ & Hx).
    by eapply list_elem_of_lookup_2.
  - rewrite <- (length_fmap FileNode.id (all_records out)).
    replace (length files) with (length (FileNode.id <$> records))
      by (unfold records; by rewrite !length_fmap).
    apply submseteq_length, NoDup_submseteq; [done|].
    intros key (x & -> & [e He]%list_elem_of_lookup_1)%list_elem_of_fmap.
    destruct (Forall2_lookup_l _ _ _ _ _ Hrecs He) as (k & _ & Hx).
    apply list_elem_of_fmap_2. by eapply list_elem_of_lookup_2.
Qed.

Lemma buildTree_no_duplicates_witness :
  ∃ out, buildTree sampleCollation 8 stray_files = Some (stray_files, out)
    ∧ NoDup (FileNode.id <$> all_records out)
    ∧ (∀ x, x ∈ all_records out → x ∈ fields <$> stray_files)
    ∧ (length (all_records out) ≤ 7)%nat.
Proof.
  apply (buildTree_no_duplicates sampleCollation stray_files 8).
  - exact stray_files_distinct.
  - simpl. lia.
Defined.

(** No record at any depth is its own parent. *)
Lemma at_depth_not_self_parent (files : list FileNode.t) (d i : nat) (r : FileNode.t) :
  NoDup (FileNode.id <$> files) →
  files !! i = Some r → FileNode.parentId r = Some (FileNode.id r) → FileNode.id r ≠ "" →
  ¬ at_depth files d i.
Proof.
  intros Hnd Hi Hparent Hne Hd.
  assert (placement files r = Under i ∨ placement files r = Dropped) as Hplace.
  { unfold placement. rewrite Hparent.
    assert (truthy (Some (FileNode.id r)) = Some (FileNode.id r)) as ->
      by (by destruct (FileNode.id r)).
    simpl. rewrite (index_of_unique files i r Hnd Hi), Hi. simpl.
    destruct (FileNode.type r); [by right|by left]. }
  inversion Hd as [? f Hf Hroot|? f j e Hf Hunder He]; simplify_eq.
  - destruct Hplace; congruence.
  - destruct Hplace as [Hp|Hp]; [|congruence].
    assert (j = i) as -> by congruence.
    pose proof (at_depth_unique files _ _ _ Hd He). lia.
Qed.

(** X16.  On records with distinct ids, a record whose [parentId] is its own
    (non-empty) id is in no sibling set of the output, at any depth, and
    neither is any record that names it as its parent: they disappear
    from the explorer without an error. *)
Theorem buildTree_drops_self_parented (localeCompare : string → string → Z)
    (files : list Obj) (fuel i : nat) (r : FileNode.t) :
  NoDup (FileNode.id <$> (fields <$> files)) → (length files < fuel)%nat →
  (fields <$> files) !! i = Some r →
  FileNode.parentId r = Some (FileNode.id r) → FileNode.id r ≠ "" →
  ∃ out, buildTree localeCompare fuel files = Some (files, out)
    ∧ ∀ x, x ∈ all_records out → FileNode.id x ≠ FileNode.id r ∧ ¬ child_of r x.
Proof.
  intros Hnd Hfuel Hi Hparent Hne.
  destruct (buildTree_returns localeCompare fuel files Hnd Hfuel) as [out Hrun].
  exists out. split; [done|].
  destruct (buildTree_inv localeCompare _ _ _ _ Hrun) as (st' & Hsort & _).
  destruct (prepared_tidy files Hnd) as [Htidy Hroots].
  destruct (prepared_call_ok files) as (_ & _ & Hok).
  set (records := fields <$> files) in *.
  destruct (sortNodes_flatten localeCompare records fuel 0 _ None _ st' out Htidy Hok)
    as (idxs & Hrecs & _ & Hidxs); [| |done|].
  { rewrite Hroots. apply placed_root_level. }
  { rewrite Hroots. apply NoDup_placed. }
  assert (∀ x, x ∈ all_records out →
            ∃ k d, records !! k = Some x ∧ at_depth records d k) as Hdepth.
  { intros x [e He]%list_elem_of_lookup_1.
    destruct (Forall2_lookup_l _ _ _ _ _ Hrecs He) as (k & Hk & Hx).
    destruct (Hidxs k) as (a & _ & Ha & Hbelow); [by eapply list_elem_of_lookup_2|].
    destruct (below_at_depth records a k 0 Ha Hbelow) as [d Hd]. by exists k, d. }
  intros x (k & d & Hk & Hd)%Hdepth. split.
  - intros Hid. assert (k = i) as ->.
    { apply (NoDup_lookup (FileNode.id <$> records) k i (FileNode.id x)); [done| |].
      - by rewrite list_lookup_fmap, Hk.
      - by rewrite list_lookup_fmap, Hi, Hid. }
    by apply (at_depth_not_self_parent records d i r).
  - intros Hchild. unfold child_of in Hchild.
    inversion Hd as [? f Hf Hroot|? f j e Hf Hunder He]; simplify_eq.
    + apply placement_root_iff in Hroot. destruct (Hroot _ Hchild).
      apply list_elem_of_fmap_2. by eapply list_elem_of_lookup_2.
    + assert (j = i) as ->.
      { unfold placement in Hunder. rewrite Hchild in Hunder. simpl in Hunder.
        rewrite (index_of_unique records i r Hnd Hi), Hi in Hunder. simpl in Hunder.
        destruct (FileNode.type r); congruence. }
      by apply (at_depth_not_self_parent records e i r).
Qed.

Lemma buildTree_drops_self_parented_witness :
  ∃ out, buildTree sampleCollation 4 looped_files = Some (looped_files, out)
    ∧ ∀ x, x ∈ all_records out →
        FileNode.id x ≠ "1" ∧ ¬ child_of (sampleFolder "1" "src" (Some "1")) x.
Proof.
  apply (buildTree_drops_self_parented sampleCollation looped_files 4 1
           (sampleFolder "1" "src" (Some "1"))).
  - apply (bool_decide_unpack _). vm_compute. exact I.
  - simpl. lia.
  - reflexivity.
  - reflexivity.
  - discriminate.
Defined.

(** ** Records that share an id *)

(** X17.  Without distinct ids [buildTree] need not return.  Take two records
    with the same non-empty id, the first without a parent of that id, the
    second a FOLDER that names the id as its parent.  [nodeMap] keeps the
    object of the second record only; the second loop makes that object a
    root and pushes it to its own [children], and the recursion of
    [sortNodes] never ends: no depth budget suffices. *)
Theorem buildTree_diverges_on_shared_id (localeCompare : string → string → Z)
    (a b : FileNode.t) (ca cb : option (list ref)) (fuel : nat) :
  FileNode.id a = FileNode.id b → FileNode.id b ≠ "" →
  truthy (FileNode.parentId a) ≠ Some (FileNode.id b) →
  FileNode.type b = FOLDER → FileNode.parentId b = Some (FileNode.id b) →
  buildTree localeCompare fuel [mkObj a ca; mkObj b cb] = None.
Proof.
  intros Hshared Hne Hparent Hty Hself.
  set (files := [mkObj a ca; mkObj b cb]).
  set (looped := mkStore files [create_node a; mkObj b (Some [Fresh 1%nat])]).
  assert (prepared files = (looped, [Fresh 1%nat])) as Hprepared.
  { unfold prepared. simpl. unfold attach at 2. simpl.
    rewrite Hshared, lookup_insert_eq.
    assert (truthy (FileNode.parentId a)
              ≫= (λ key, (<[FileNode.id b := Fresh 1%nat]>
                            (<[FileNode.id b := Fresh 0%nat]> (∅ : gmap string ref)))
                         !! key) = None) as ->.
    { destruct (truthy (FileNode.parentId a)) as [p|]; [|done]. simpl.
      rewrite !lookup_insert_ne by congruence. apply lookup_empty. }
    unfold attach. simpl. rewrite lookup_insert_eq, Hself.
    assert (truthy (Some (FileNode.id b)) = Some (FileNode.id b)) as ->
      by (by destruct (FileNode.id b)).
    simpl. rewrite lookup_insert_eq. simpl. unfold looped, create_node at 2, push_child.
    by rewrite Hty. }
  assert (∀ owner, owner = None ∨ owner = Some (Fresh 1%nat) →
            sortNodes localeCompare fuel looped owner [Fresh 1%nat] = None) as Hloop.
  { induction fuel as [|fuel IH]; intros owner Howner; [done|]. simpl.
    assert (from_option
              (λ r, update (set_children (sorted_refs localeCompare [Fresh 1%nat]
                                            [mkObj b (Some [Fresh 1%nat])])) r looped)
              looped owner = looped) as ->
      by (by destruct Howner as [->| ->]).
    simpl. rewrite IH; [done|by right]. }
  rewrite buildTree_eq, Hprepared. simpl. rewrite Hloop; [done|by left].
Qed.

Lemma buildTree_diverges_on_shared_id_witness :
  buildTree sampleCollation 100
    [mkObj (sampleFolder "1" "src" None) None;
     mkObj (sampleFolder "1" "lib" (Some "1")) None] = None.
Proof.
  apply (buildTree_diverges_on_shared_id sampleCollation
           (sampleFolder "1" "src" None) (sampleFolder "1" "lib" (Some "1"))
           None None 100); try reflexivity; discriminate.
Defined.

(** ** The order of the input *)

(** A list sorted by a relation that is antisymmetric on its elements is
    the only sorted arrangement of those elements. *)
Lemma StronglySorted_unique_on {A} (R : relation A) (l1 l2 : list A) :
  (∀ x y, x ∈ l1 → y ∈ l1 → R x y → R y x → x = y) →
  StronglySorted R l1 → StronglySorted R l2 → l1 ≡ₚ l2 → l1 = l2.
Proof.
  revert l2. induction l1 as [|x l1 IH]; intros l2 Hanti Hs1 Hs2 Hperm.
  - by apply Permutation_nil in Hperm.
  - destruct l2 as [|y l2]; [by apply Permutation_nil_r in Hperm|].
    apply StronglySorted_inv in Hs1 as [Hs1 Hx]. apply StronglySorted_inv in Hs2 as [Hs2 Hy].
    rewrite Forall_forall in Hx, Hy.
    assert (x = y) as <-.
    { assert (x ∈ y :: l2) as [->|Hx2]%elem_of_cons by (rewrite <- Hperm; by left); [done|].
      assert (y ∈ x :: l1) as [->|Hy1]%elem_of_cons by (rewrite Hperm; by left); [done|].
      apply Hanti; [by left|by right|by apply Hx|by apply Hy]. }
    f_equal. apply IH; [|done|done|by eapply Permutation_cons_inv].
    intros a b Ha Hb. apply Hanti; by right.
Qed.

Lemma level_records_NoDup (files : list FileNode.t) (st : Store) (p : Placement)
    (cs : list ref) (objs : list Obj) :
  NoDup (FileNode.id <$> files) →
  tidy files st → mapM (deref st) cs = Some objs → cs ≡ₚ Fresh <$> placed files p →
  NoDup (fields <$> objs).
Proof.
  intros Hnd Htidy Hobjs%mapM_Some_1 Hperm.
  assert (NoDup cs) as Hcs by (rewrite Hperm; apply NoDup_placed).
  assert (∀ j x, (fields <$> objs) !! j = Some x →
            ∃ i, cs !! j = Some (Fresh i) ∧ files !! i = Some x) as Hsource.
  { intros j x Hj. rewrite list_lookup_fmap in Hj.
    destruct (objs !! j) as [o|] eqn:Ho; [|done]. simpl in Hj. simplify_eq.
    destruct (Forall2_lookup_r _ _ _ _ _ Hobjs Ho) as (c & Hc & Hderef).
    assert (c ∈ Fresh <$> placed files p) as (i & -> & _)%list_elem_of_fmap
      by (rewrite <- Hperm; by eapply list_elem_of_lookup_2).
    exists i. split; [done|]. by eapply tidy_lookup. }
  apply NoDup_alt. intros j k x (ij & Hcj & Hfj)%Hsource (ik & Hck & Hfk)%Hsource.
  assert (ij = ik) as ->.
  { apply (NoDup_lookup (FileNode.id <$> files) ij ik (FileNode.id x)); [done| |].
    - by rewrite list_lookup_fmap, Hfj.
    - by rewrite list_lookup_fmap, Hfk. }
  by eapply NoDup_lookup.
Qed.

Lemma node_eq (n1 n2 : Node) :
  record_of n1 = record_of n2 → kids_of n1 = kids_of n2 → n1 = n2.
Proof. destruct n1, n2. simpl. by intros -> ->. Qed.

(** One level of the output: the records of the objects of [nodes], in
    comparator order. *)
Lemma sortNodes_level (localeCompare : string → string → Z) (fuel : nat) (st : Store)
    (owner : option ref) (nodes : list ref) (st' : Store) (out : list Node) :
  (∀ a b, 0 < localeCompare a b → localeCompare b a ≤ 0) →
  (∀ a b c, localeCompare a b ≤ 0 → localeCompare b c ≤ 0 → localeCompare a c ≤ 0) →
  call_ok st owner nodes →
  sortNodes localeCompare fuel st owner nodes = Some (st', out) →
  ∃ objs, mapM (deref st) nodes = Some objs
    ∧ StronglySorted (λ a b, compareNodes localeCompare a b ≤ 0) (record_of <$> out)
    ∧ record_of <$> out ≡ₚ fields <$> objs.
Proof.
  intros Htotal Htrans Hok Hrun.
  destruct (sortNodes_records localeCompare fuel st owner nodes st' out Hok Hrun)
    as (objs & Hobjs & Hrec).
  destruct (sortNodes_roots_perm localeCompare fuel st owner nodes st' out Hok Hrun)
    as (objs' & Hobjs' & Hperm).
  assert (objs' = objs) as -> by congruence.
  exists objs. split; [done|]. split; [|done]. rewrite Hrec.
  pose proof (js_sort_sorted (comparePairs localeCompare)
                (λ x y, compareNodes_total localeCompare Htotal _ _)
                (λ x y z, compareNodes_trans localeCompare Htrans _ _ _)
                (zip nodes objs)) as Hsorted.
  eapply StronglySorted_fmap_impl; [exact Hsorted|]. by intros x y Hxy.
Qed.

Section input_order.
Context (localeCompare : string → string → Z) (files1 files2 : list FileNode.t).
Hypothesis localeCompare_total : ∀ a b, 0 < localeCompare a b → localeCompare b a ≤ 0.
Hypothesis localeCompare_trans :
  ∀ a b c, localeCompare a b ≤ 0 → localeCompare b c ≤ 0 → localeCompare a c ≤ 0.
Hypothesis distinct1 : NoDup (FileNode.id <$> files1).
Hypothesis distinct2 : NoDup (FileNode.id <$> files2).
Hypothesis same_records : ∀ f, f ∈ files1 ↔ f ∈ files2.
Hypothesis separated :
  ∀ f g, f ∈ files1 → g ∈ files1 →
    compareNodes localeCompare f g ≤ 0 → compareNodes localeCompare g f ≤ 0 → f = g.

(** Two runs of [sortNodes] on arrays that hold the same records, in
    stores built from the same records, return the same forest. *)
Lemma sortNodes_same (fuel1 : nat) :
  ∀ (fuel2 : nat) (st1 st2 : Store) (owner1 owner2 : option ref)
    (nodes1 nodes2 : list ref) (st1' st2' : Store) (out1 out2 : list Node)
    (p1 p2 : Placement),
    tidy files1 st1 → tidy files2 st2 →
    call_ok st1 owner1 nodes1 → call_ok st2 owner2 nodes2 →
    nodes1 ≡ₚ Fresh <$> placed files1 p1 → nodes2 ≡ₚ Fresh <$> placed files2 p2 →
    (∀ f, f ∈ files1 ∧ placement files1 f = p1 ↔ f ∈ files2 ∧ placement files2 f = p2) →
    sortNodes localeCompare fuel1 st1 owner1 nodes1 = Some (st1', out1) →
    sortNodes localeCompare fuel2 st2 owner2 nodes2 = Some (st2', out2) →
    out1 = out2.
Proof.
  induction fuel1 as [|fuel1 IH];
    intros [|fuel2] st1 st2 owner1 owner2 nodes1 nodes2 st1' st2' out1 out2 p1 p2
      Htidy1 Htidy2 Hok1 Hok2 Hperm1 Hperm2 Hlevel Hrun1 Hrun2; try done.
  destruct (sortNodes_level localeCompare _ _ _ _ _ _
              localeCompare_total localeCompare_trans Hok1 Hrun1)
    as (objs1 & Hobjs1 & Hsorted1 & Hrecs1).
  destruct (sortNodes_level localeCompare _ _ _ _ _ _
              localeCompare_total localeCompare_trans Hok2 Hrun2)
    as (objs2 & Hobjs2 & Hsorted2 & Hrecs2).
  pose proof (level_records files1 st1 p1 nodes1 objs1 Htidy1 Hobjs1 Hperm1) as Hin1.
  pose proof (level_records files2 st2 p2 nodes2 objs2 Htidy2 Hobjs2 Hperm2) as Hin2.
  assert (record_of <$> out1 = record_of <$> out2) as Hrecords.
  { apply (StronglySorted_unique_on (λ a b, compareNodes localeCompare a b ≤ 0));
      [|done|done|].
    - intros x y Hx Hy. rewrite Hrecs1 in Hx, Hy.
      apply separated; [by apply Hin1 in Hx as [? _]|by apply Hin1 in Hy as [? _]].
    - rewrite Hrecs1, Hrecs2. apply list.NoDup_Permutation.
      + exact (level_records_NoDup files1 st1 p1 nodes1 objs1 distinct1 Htidy1 Hobjs1 Hperm1).
      + exact (level_records_NoDup files2 st2 p2 nodes2 objs2 distinct2 Htidy2 Hobjs2 Hperm2).
      + intros f. rewrite Hin1, Hin2. apply Hlevel. }
  destruct (sortNodes_unfold localeCompare fuel1 st1 owner1 nodes1 st1' out1 Hok1 Hrun1)
    as (objs1' & Hobjs1' & Hall1).
  destruct (sortNodes_unfold localeCompare fuel2 st2 owner2 nodes2 st2' out2 Hok2 Hrun2)
    as (objs2' & Hobjs2' & Hall2).
  assert (objs1' = objs1) as -> by congruence.
  assert (objs2' = objs2) as -> by congruence.
  apply list_eq. intros e.
  pose proof (f_equal (.!! e) Hrecords) as He. rewrite !list_lookup_fmap in He.
  destruct (out1 !! e) as [n1|] eqn:Hn1, (out2 !! e) as [n2|] eqn:Hn2; try done.
  simpl in He. injection He as Hrec. f_equal.
  destruct (Forall2_lookup_r _ _ _ _ _ Hall1 Hn1)
    as (q1 & Hq1 & sa1 & o1 & H0a1 & Ho1 & Hderef1 & Hf1 & Hrec1 & Hkids1).
  destruct (Forall2_lookup_r _ _ _ _ _ Hall2 Hn2)
    as (q2 & Hq2 & sa2 & o2 & H0a2 & Ho2 & Hderef2 & Hf2 & Hrec2 & Hkids2).
  assert (is_fresh st1 q1.1) as (a1 & Ha1 & _).
  { destruct Hok1 as (_ & Hnodes & _). rewrite Forall_forall in Hnodes. apply Hnodes.
    rewrite <- (sorted_refs_perm localeCompare nodes1 objs1 (length_mapM _ _ _ Hobjs1)).
    apply list_elem_of_fmap. exists q1. split; [done|]. by eapply list_elem_of_lookup_2. }
  assert (is_fresh st2 q2.1) as (a2 & Ha2 & _).
  { destruct Hok2 as (_ & Hnodes & _). rewrite Forall_forall in Hnodes. apply Hnodes.
    rewrite <- (sorted_refs_perm localeCompare nodes2 objs2 (length_mapM _ _ _ Hobjs2)).
    apply list_elem_of_fmap. exists q2. split; [done|]. by eapply list_elem_of_lookup_2. }
  rewrite Ha1 in Ho1, Hkids1. rewrite Ha2 in Ho2, Hkids2. simpl in Ho1, Ho2.
  pose proof (tidy_evolves files1 st1 sa1 Htidy1 H0a1) as Htidy_a1.
  pose proof (tidy_evolves files2 st2 sa2 Htidy2 H0a2) as Htidy_a2.
  pose proof (tidy_lookup files1 sa1 a1 o1 Htidy_a1 Ho1) as Hfile1.
  pose proof (tidy_lookup files2 sa2 a2 o2 Htidy_a2 Ho2) as Hfile2.
  pose proof (proj2 Htidy_a1 a1 o1 Ho1) as Hshape1.
  pose proof (proj2 Htidy_a2 a2 o2 Ho2) as Hshape2.
  assert (fields o2 = fields o1) as Hsame by congruence.
  rewrite Hsame in Hshape2, Hfile2.
  apply node_eq; [done|].
  destruct (FileNode.type (fields o1)) eqn:Hty.
  - rewrite Hshape1 in Hkids1. rewrite Hshape2 in Hkids2. congruence.
  - destruct Hshape1 as (cs1 & Hcs1 & Hp1). destruct Hshape2 as (cs2 & Hcs2 & Hp2).
    rewrite Hcs1 in Hkids1. rewrite Hcs2 in Hkids2.
    destruct Hkids1 as (sb1 & ks1 & -> & Hok1' & Hrun1').
    destruct Hkids2 as (sb2 & ks2 & -> & Hok2' & Hrun2').
    f_equal. eapply (IH fuel2 sa1 sa2 _ _ cs1 cs2 sb1 sb2 ks1 ks2 (Under a1) (Under a2));
      try done.
    intros f.
    rewrite (placement_under_iff files1 a1 (fields o1) f distinct1 Hfile1 Hty).
    rewrite (placement_under_iff files2 a2 (fields o1) f distinct2 Hfile2 Hty).
    by rewrite same_records.
Qed.
End input_order.

(** X18.  Let the host collation be consistent, the ids distinct, and let the
    comparator of [sortNodes] tell any two distinct records apart (no two
    of them have the same type and names the collation ranks equal).  Then
    the forest does not depend on the order in which the records are
    listed: [buildTree] returns the same forest on every rearrangement of
    the input. *)
Theorem buildTree_order_independent (localeCompare : string → string → Z)
    (files1 files2 : list Obj) (fuel : nat) :
  (∀ a b, 0 < localeCompare a b → localeCompare b a ≤ 0) →
  (∀ a b c, localeCompare a b ≤ 0 → localeCompare b c ≤ 0 → localeCompare a c ≤ 0) →
  NoDup (FileNode.id <$> (fields <$> files1)) →
  fields <$> files1 ≡ₚ fields <$> files2 →
  (∀ f g, f ∈ fields <$> files1 → g ∈ fields <$> files1 →
     compareNodes localeCompare f g ≤ 0 → compareNodes localeCompare g f ≤ 0 → f = g) →
  (length files1 < fuel)%nat →
  ∃ out, buildTree localeCompare fuel files1 = Some (files1, out)
    ∧ buildTree localeCompare fuel files2 = Some (files2, out).
Proof.
  intros Htotal Htrans Hnd1 Hperm Hsep Hfuel.
  assert (NoDup (FileNode.id <$> (fields <$> files2))) as Hnd2 by (by rewrite <- Hperm).
  assert (length files2 < fuel)%nat as Hfuel2.
  { rewrite <- (length_fmap fields files2), <- Hperm, length_fmap. done. }
  destruct (buildTree_returns localeCompare fuel files1 Hnd1 Hfuel) as [out1 Hrun1].
  destruct (buildTree_returns localeCompare fuel files2 Hnd2 Hfuel2) as [out2 Hrun2].
  exists out1. split; [done|]. rewrite Hrun2. do 2 f_equal. symmetry.
  destruct (buildTree_inv localeCompare _ _ _ _ Hrun1) as (st1' & Hsort1 & _).
  destruct (buildTree_inv localeCompare _ _ _ _ Hrun2) as (st2' & Hsort2 & _).
  destruct (prepared_tidy files1 Hnd1) as [Htidy1 Hroots1].
  destruct (prepared_tidy files2 Hnd2) as [Htidy2 Hroots2].
  destruct (prepared_call_ok files1) as (_ & _ & Hok1).
  destruct (prepared_call_ok files2) as (_ & _ & Hok2).
  assert (∀ f, f ∈ fields <$> files1 ↔ f ∈ fields <$> files2) as Hmem
    by (intros f; by rewrite Hperm).
  assert (∀ key, key ∈ FileNode.id <$> (fields <$> files1)
                 ↔ key ∈ FileNode.id <$> (fields <$> files2)) as Hids
    by (intros key; by rewrite Hperm).
  eapply (sortNodes_same localeCompare (fields <$> files1) (fields <$> files2)
            Htotal Htrans Hnd1 Hnd2 Hmem Hsep
            fuel fuel _ _ None None _ _ st1' st2' out1 out2 Root Root
            Htidy1 Htidy2 Hok1 Hok2);
    [by rewrite Hroots1|by rewrite Hroots2| |exact Hsort1|exact Hsort2].
  intros f. rewrite !placement_root_iff, Hmem. unfold parentless.
  split; intros [Hin Hnone]; (split; [done|]); intros pid Hpid Hpresent;
    apply (Hnone pid Hpid); by apply Hids.
Qed.

Lemma sampleCollation_separates :
  ∀ f g, f ∈ fields <$> stray_files → g ∈ fields <$> stray_files →
    compareNodes sampleCollation f g ≤ 0 → compareNodes sampleCollation g f ≤ 0 → f = g.
Proof.
  assert (Forall (λ f, Forall (λ g,
            compareNodes sampleCollation f g ≤ 0 →
            compareNodes sampleCollation g f ≤ 0 → f = g) (fields <$> stray_files))
            (fields <$> stray_files)) as Hall
    by (apply (bool_decide_unpack _); vm_compute; exact I).
  intros f g Hf Hg. rewrite Forall_forall in Hall.
  specialize (Hall f Hf). rewrite Forall_forall in Hall. by apply Hall.
Qed.

Lemma buildTree_order_independent_witness :
  ∃ out, buildTree sampleCollation 8 stray_files = Some (stray_files, out)
    ∧ buildTree sampleCollation 8 shuffled_files = Some (shuffled_files, out).
Proof.
  apply (buildTree_order_independent sampleCollation stray_files shuffled_files 8).
  - exact sampleCollation_total.
  - exact sampleCollation_trans.
  - exact stray_files_distinct.
  - apply (bool_decide_unpack _). vm_compute. exact I.
  - exact sampleCollation_separates.
  - simpl. lia.
Defined.

(** * The [isActive] flags *)

Lemma filter_comm {A} (P Q : A → Prop) `{∀ x, Decision (P x), ∀ x, Decision (Q x)}
    (l : list A) :
  filter P (filter Q l) = filter Q (filter P l).
Proof.
  induction l as [|x l IH]; [done|]. rewrite !filter_cons.
  destruct (decide (Q x)), (decide (P x)); rewrite ?filter_cons; repeat case_decide;
    try done; by rewrite IH.
Qed.

(** The operations that rewrite tabs in place, keeping ids and flags. *)
Lemma session_invariant_fmap (s : Session) (g : EditorTab.t → EditorTab.t)
    (sel : option FileNode.t) :
  (∀ x, EditorTab.id (g x) = EditorTab.id x) →
  (∀ x, EditorTab.isActive (g x) = EditorTab.isActive x) →
  session_invariant s →
  session_invariant (mkSession (g <$> tabs s) (activeTabId s) sel).
Proof.
  intros Hid Hflag Hinv. unfold session_invariant in *. simpl.
  destruct (tabs s) as [|y l] eqn:E; [done|]. rewrite <- E in *.
  destruct (g <$> tabs s) as [|z l0] eqn:E'; [by rewrite E in E'|]. rewrite <- E'.
  destruct Hinv as (t & Hfilter & Hactive). exists (g t).
  rewrite (filter_fmap g _ (λ x, EditorTab.isActive x = true)), Hfilter, Hid; [done|].
  intros x. by rewrite Hflag.
Qed.

(** X19.  In a session that satisfies the session invariant (one tab flagged
    [isActive], and [activeTabId] its id) and whose tab ids are distinct,
    every operation returns, [setActiveTab] being given the id of an open
    tab, and it keeps the invariant unless it moves [activeTabId] without
    writing the flags.  It does that in exactly two cases: [closeTab] on
    the active tab while other tabs remain, and [openFile] on a file whose
    tab is open and not active. *)
Theorem session_invariant_step (s : Session) (op : Op) :
  session_invariant s → NoDup (EditorTab.id <$> tabs s) → targets_open_tab s op →
  ∃ s', perform s op = Ok s'
    ∧ (session_invariant s' ↔ ¬ moves_focus_only s op).
Proof.
  intros Hinv Hnd Hop.
  destruct op as [file net now|tabId|tabId|tabId content|tabId net]; simpl in *.
  - eexists. split; [reflexivity|].
    unfold openFile. destruct (FileNode.type file) eqn:Hty.
    2:{ split; [by intros _ [? _]|done]. }
    destruct (find _ _) as [existing|] eqn:Hfind; simpl.
    + pose proof Hfind as (j & _ & Hj & _)%find_Some_inv.
      unfold session_invariant in *. simpl.
      destruct (tabs s) as [|y l] eqn:E; [done|]. rewrite <- E in *.
      destruct Hinv as (t0 & Hfilter & Hactive). split.
      * intros (t & Ht & Hid) (_ & t' & [= <-] & Hne). apply Hne.
        rewrite Hactive. congruence.
      * intros Hkeeps. exists t0. split; [done|].
        destruct (decide (activeTabId s = Some (EditorTab.id existing))) as [Heq|Hne];
          [congruence|].
        destruct Hkeeps. split; [done|]. by exists existing.
    + split; [by intros _ (_ & t & ? & _)|]. intros _.
      destruct net as [|[] [c|]]; try done.
      pose proof (openFile_new_establishes_invariant s file c now Hty Hfind) as Hnew.
      unfold openFile in Hnew. by rewrite Hty, Hfind in Hnew.
  - unfold session_invariant in Hinv.
    destruct (tabs s) as [|y l] eqn:E.
    { exists (mkSession [] None None). split.
      - unfold closeTab. rewrite E. simpl. by rewrite decide_False by (simpl; lia).
      - split; [intros _ [_ ?]; simpl in *; lia|done]. }
    rewrite <- E in *. destruct Hinv as (t0 & Hfilter & Hactive).
    assert (t0 ∈ tabs s) as [i0 Hi0]%list_elem_of_lookup_1.
    { assert (t0 ∈ filter (λ x, EditorTab.isActive x = true) (tabs s)) as Hin
        by (rewrite Hfilter; by left).
      by apply list_elem_of_filter in Hin as [_ ?]. }
    destruct (decide (tabId = EditorTab.id t0)) as [->|Hother].
    + destruct (closeTab_present s i0 t0 Hnd Hi0) as (s' & Hclose & Htabs & Hnew).
      exists s'. split; [done|].
      assert (filter (λ x, EditorTab.isActive x = true) (tabs s') = []) as Hnone.
      { rewrite Htabs, <- (filter_key_delete EditorTab.id _ _ _ Hnd Hi0).
        rewrite filter_comm, Hfilter.
        by rewrite filter_cons_False by (intros Hne; by apply Hne). }
      unfold session_invariant. destruct (tabs s') as [|z l'] eqn:E'.
      * rewrite decide_True in Hnew by done. split; [|done]. intros _ [_ Hlen].
        apply (f_equal length) in Htabs. rewrite length_delete in Htabs by (by eexists).
        simpl in Htabs. lia.
      * rewrite <- E' in *. split; [by intros (t & Ht & _); rewrite Hnone in Ht|].
        intros Hkeeps. destruct Hkeeps. split; [done|].
        apply (f_equal length) in Htabs. rewrite length_delete in Htabs by (by eexists).
        rewrite E' in Htabs. simpl in Htabs. lia.
    + destruct (decide (tabId ∈ EditorTab.id <$> tabs s)) as [Hin|Hout].
      * apply list_elem_of_fmap in Hin as (t & -> & [i Hi]%list_elem_of_lookup_1).
        destruct (closeTab_present s i t Hnd Hi) as (s' & Hclose & Htabs & Hnew).
        exists s'. split; [done|].
        split; [intros _ [Heq _]; congruence|]. intros _.
        assert (filter (λ x, EditorTab.isActive x = true) (tabs s') = [t0]) as Hone.
        { rewrite Htabs, <- (filter_key_delete EditorTab.id _ _ _ Hnd Hi).
          rewrite filter_comm, Hfilter. by rewrite filter_cons_True by congruence. }
        unfold session_invariant. destruct (tabs s') as [|z l'] eqn:E'; [done|].
        rewrite <- E' in *. exists t0. split; [done|].
        rewrite Hnew, decide_False by (by rewrite E').
        rewrite decide_False by congruence. done.
      * exists s. split.
        -- unfold closeTab.
           rewrite (filter_all (λ t, EditorTab.id t ≠ tabId)).
           2:{ apply Forall_forall. intros x Hx Heq. apply Hout. rewrite <- Heq.
               by apply list_elem_of_fmap_2. }
           rewrite decide_False by (intros [? _]; congruence).
           rewrite decide_False by (rewrite E; simpl; lia). by destruct s.
        -- split; [intros _ [Heq _]; congruence|]. intros _.
           unfold session_invariant. rewrite E. rewrite <- E. by exists t0.
  - eexists. split; [reflexivity|]. split; [by intros _ []|]. intros _.
    apply list_elem_of_fmap in Hop as (t & -> & [i Hi]%list_elem_of_lookup_1).
    by eapply setActiveTab_establishes_invariant.
  - eexists. split; [reflexivity|]. split; [by intros _ []|]. intros _.
    apply (session_invariant_fmap s); [| |done]; intros x; by case_decide.
  - eexists. split; [reflexivity|]. split; [by intros _ []|]. intros _.
    unfold saveFile. destruct (find _ _) as [tab|]; [|done].
    destruct (EditorTab.isDirty tab); [|done].
    destruct net as [|[] body]; [done| |done].
    apply (session_invariant_fmap s); [| |done]; intros x; by case_decide.
Qed.

Lemma session_invariant_step_witness :
  ∃ s', perform (run (take 2 close_active_trace)) (CloseTab "tab-2000") = Ok s'
    ∧ (session_invariant s'
       ↔ ¬ moves_focus_only (run (take 2 close_active_trace)) (CloseTab "tab-2000")).
Proof.
  apply (session_invariant_step (run (take 2 close_active_trace)) (CloseTab "tab-2000")).
  - vm_compute. eexists. split; reflexivity.
  - apply (bool_decide_unpack _). vm_compute. exact I.
  - exact I.
Defined.

(** * The editor pane *)

(** X20.  The tab the editor pane shows.  In every session reached with
    [setActiveTab] given ids of open tabs, whatever ids [openFile] mints,
    the pane has no tab to show (and renders its placeholder) exactly when
    no tab is open; otherwise the tab it shows is an open tab whose id is
    [activeTabId].  When the ids of the open tabs are distinct, it is the
    only such tab, so the one tab the tab bar highlights. *)
Theorem activeTab_defined (s : Session) :
  ui_reachable s →
  (activeTab s = None ↔ tabs s = [])
  ∧ (∀ t, activeTab s = Some t → t ∈ tabs s ∧ activeTabId s = Some (EditorTab.id t))
  ∧ (NoDup (EditorTab.id <$> tabs s) →
     ∀ t, activeTab s = Some t → designated s = [t]).
Proof.
  intros Hact%ui_reachable_active_tab. unfold activeTab, active_tab_invariant in *.
  assert (∀ t, find (λ x, Some (EditorTab.id x) = activeTabId s) (tabs s) = Some t →
            ∃ i, tabs s !! i = Some t ∧ activeTabId s = Some (EditorTab.id t)) as Hfound.
  { intros t (i & _ & Hi & Hid)%find_Some_inv. by exists i. }
  split_and!.
  - destruct (tabs s) as [|y l] eqn:E; [done|]. rewrite <- E in *.
    destruct Hact as (t0 & Hin & Hid).
    destruct (find_is_Some (λ x, Some (EditorTab.id x) = activeTabId s) (tabs s) t0)
      as [t Hfind]; [done|done|].
    rewrite Hfind. split; [done|]. intros Hnil. by rewrite Hnil in E.
  - intros t (i & Hi & Hid)%Hfound. split; [by eapply list_elem_of_lookup_2|done].
  - intros Hnd t (i & Hi & Hid)%Hfound. by apply (designated_key s i).
Qed.

Lemma activeTab_defined_witness :
  (activeTab (run (take 2 close_active_trace)) = None
   ↔ tabs (run (take 2 close_active_trace)) = [])
  ∧ (∀ t, activeTab (run (take 2 close_active_trace)) = Some t →
       t ∈ tabs (run (take 2 close_active_trace))
       ∧ activeTabId (run (take 2 close_active_trace)) = Some (EditorTab.id t))
  ∧ (NoDup (EditorTab.id <$> tabs (run (take 2 close_active_trace))) →
     ∀ t, activeTab (run (take 2 close_active_trace)) = Some t →
       designated (run (take 2 close_active_trace)) = [t]).
Proof.
  exact (activeTab_defined (run (take 2 close_active_trace))
           close_active_prefix_ui_reachable).
Defined.







(** * The nodes of the forest *)

Lemma elem_of_concat {A} (x : A) (ls : list (list A)) :
  x ∈ concat ls ↔ ∃ l, x ∈ l ∧ l ∈ ls.
Proof.
  induction ls as [|l ls IH]; simpl.
  - split; [by intros ?%elem_of_nil|by intros (l & _ & ?%elem_of_nil)].
  - rewrite elem_of_app, IH. split.
    + intros [Hx|(l' & Hx & Hl')]; [exists l; split; [done|by left]|].
      exists l'. split; [done|by right].
    + intros (l' & Hx & [->|Hl']%elem_of_cons); [by left|]. right. by exists l'.
Qed.

Lemma roots_in_all_records (out : list Node) (x : FileNode.t) :
  x ∈ record_of <$> out → x ∈ all_records out.
Proof.
  intros (n & -> & Hn)%list_elem_of_fmap. unfold all_records.
  apply elem_of_concat. exists (records_of_node n).
  split; [|by apply list_elem_of_fmap_2]. rewrite records_of_node_eq. by left.
Qed.

(** In a forest whose folders have the right kids, the children of a
    record that has a node have nodes too. *)
Lemma all_records_kids (files : list FileNode.t) (size : nat) :
  ∀ (out : list Node) (r f : FileNode.t),
    (length (all_records out) ≤ size)%nat →
    every_node (kids_are_children files) out →
    r ∈ all_records out → FileNode.type r = FOLDER →
    f ∈ files → child_of r f → f ∈ all_records out.
Proof.
  induction size as [|size IH]; intros out r f Hsize Hout Hr Hty Hf Hchild.
  { destruct (all_records out); [by apply elem_of_nil in Hr|simpl in Hsize; lia]. }
  unfold all_records in Hr. apply elem_of_concat in Hr as (blk & Hr & Hblk).
  apply list_elem_of_fmap in Hblk as (n & -> & Hn).
  destruct Hout as [ns Hall]. rewrite Forall_forall in Hall.
  destruct (Hall n Hn) as [Hkids Hbelow].
  assert (∀ y, y ∈ records_of_node n → y ∈ all_records ns) as Hup.
  { intros y Hy. unfold all_records. apply elem_of_concat.
    exists (records_of_node n). split; [done|]. by apply list_elem_of_fmap_2. }
  apply Hup. rewrite records_of_node_eq in Hr |- *.
  apply elem_of_cons in Hr as [->|Hr].
  - unfold kids_are_children in Hkids. rewrite Hty in Hkids.
    destruct Hkids as (ks & Hks & Hiff). rewrite Hks. simpl. right.
    apply roots_in_all_records, Hiff. by split.
  - destruct (kids_of n) as [ks|] eqn:Hks; simpl in Hr; [|by apply elem_of_nil in Hr].
    right. simpl. apply (IH ks r f); [|by apply Hbelow|done|done|done|done].
    assert (length (records_of_node n) ≤ length (all_records ns))%nat as Hle.
    { apply list_elem_of_lookup_1 in Hn as [e He].
      unfold all_records. rewrite <- (take_drop_middle ns e n He).
      rewrite fmap_app, fmap_cons, concat_app. simpl. rewrite !length_app. lia. }
    rewrite records_of_node_eq, Hks in Hle. simpl in Hle. lia.
Qed.

(** X23.  On records with distinct ids the nodes of the forest, all depths
    taken together, are copies of exactly the records that hang on a
    parentless record by a finite chain of folders ([at_depth]): every such
    record is shown, and nothing else is. *)
Theorem buildTree_nodes_are_connected_records (localeCompare : string → string → Z)
    (files : list Obj) (fuel : nat) :
  NoDup (FileNode.id <$> (fields <$> files)) → (length files < fuel)%nat →
  ∃ out, buildTree localeCompare fuel files = Some (files, out)
    ∧ ∀ x, x ∈ all_records out
           ↔ ∃ k d, (fields <$> files) !! k = Some x ∧ at_depth (fields <$> files) d k.
Proof.
  intros Hnd Hfuel.
  destruct (buildTree_returns localeCompare fuel files Hnd Hfuel) as [out Hrun].
  exists out. split; [done|].
  destruct (buildTree_inv localeCompare _ _ _ _ Hrun) as (st' & Hsort & _).
  destruct (prepared_tidy files Hnd) as [Htidy Hroots].
  destruct (prepared_call_ok files) as (_ & _ & Hok).
  set (records := fields <$> files) in *.
  intros x. split.
  - destruct (sortNodes_flatten localeCompare records fuel 0 _ None _ st' out Htidy Hok)
      as (idxs & Hrecs & _ & Hidxs); [| |done|].
    { rewrite Hroots. apply placed_root_level. }
    { rewrite Hroots. apply NoDup_placed. }
    intros [e He]%list_elem_of_lookup_1.
    destruct (Forall2_lookup_l _ _ _ _ _ Hrecs He) as (k & Hk & Hx).
    destruct (Hidxs k) as (a & _ & Ha & Hbelow); [by eapply list_elem_of_lookup_2|].
    destruct (below_at_depth records a k 0 Ha Hbelow) as [d Hd]. by exists k, d.
  - pose proof (sortNodes_kids localeCompare records Hnd _ _ _ _ _ _ Htidy Hok Hsort)
      as Hkids.
    destruct (sortNodes_roots_perm localeCompare _ _ _ _ _ _ Hok Hsort)
      as (objs & Hobjs & Hperm).
    intros (k & d & Hk & Hd). revert x Hk.
    induction Hd as [i f Hi Hroot|i f j d Hi Hunder Hj IH]; intros x Hx.
    + assert (x = f) as -> by congruence.
      apply roots_in_all_records. rewrite Hperm.
      apply (level_records records _ Root _ objs Htidy Hobjs); [by rewrite Hroots|].
      split; [by eapply list_elem_of_lookup_2|done].
    + assert (x = f) as -> by congruence.
      destruct (records !! j) as [r|] eqn:Hr;
        [|by apply at_depth_lt, lookup_lt_is_Some in Hj as [? ?]; congruence].
      assert (FileNode.type r = FOLDER) as Hty.
      { unfold placement in Hunder.
        destruct (truthy (FileNode.parentId f) ≫= index_of records) as [j'|]; [|done].
        destruct (records !! j') as [g|] eqn:Hg; simpl in Hunder; [|done].
        destruct (FileNode.type g) eqn:Hgty; [done|]. congruence. }
      apply (all_records_kids records (length (all_records out)) out r f);
        [done|done|by apply IH|done|by eapply list_elem_of_lookup_2|].
      by apply (placement_under_iff records j r f Hnd Hr Hty).
Qed.

Lemma buildTree_nodes_are_connected_records_witness :
  ∃ out, buildTree sampleCollation 8 stray_files = Some (stray_files, out)
    ∧ ∀ x, x ∈ all_records out
           ↔ ∃ k d, (fields <$> stray_files) !! k = Some x
                    ∧ at_depth (fields <$> stray_files) d k.
Proof.
  apply (buildTree_nodes_are_connected_records sampleCollation stray_files 8).
  - exact stray_files_distinct.
  - simpl. lia.
Defined.
